(** * Vector index synchronisation engine (ingestion/vector_db_sync.py)

    A shallow embedding of the change-set resolver, the token budgeter and
    the sync executor, with the properties of the specification stated
    over it.

    Python [str] values are modelled as [string]: a sequence of code
    points, here restricted to U+0000..U+00FF (one [ascii] each).  The
    external collaborators (vector store, embedding and chunking services,
    git, the file tree, the [json] and [tiktoken] libraries) are oracles
    gathered in a [World]; every call made to them is logged, in order, in
    a trace of [event]s.  Python code that raises is a computation in a
    state-and-exception monad, so that what was done before an exception
    stays done.

    Contents: string operations and the two regular expressions; token
    budgeter ([re_chunk_if_oversize]); data model, world and effects;
    store gateway ([safe_delete_vectors], [safe_upsert_batch]) and journal
    ([append_error]); sync executor ([run_sync]); change set resolver
    ([compute_changes_from_git], [compute_reindex_all_files],
    [main_entry]); concrete worlds; vocabulary of the properties;
    embedding, line ranges and chunking of one file ([get_embedding],
    [get_accurate_line_range], [dispatch_chunking], [process_file]);
    commit range of a GitHub Actions run
    ([detect_github_commit_range]); the properties, C1 to C10; further
    properties of the same code, X1 to X26. *)

From Stdlib Require Import Bool Arith Lia List Ascii String ZArith.
From Stdlib Require Import Floats.PrimFloat.
From Stdlib Require DecimalString.
Import ListNotations.

Local Open Scope string_scope.
Local Open Scope list_scope.
Local Open Scope bool_scope.
Local Open Scope nat_scope.

Set Warnings "-register-all,-abstract-large-number".

(* ================================================================== *)
(** * Python string operations *)
(* ================================================================== *)

Module PyStr.

Definition chr (n : nat) : ascii := ascii_of_nat n.
Definition str1 (c : ascii) : string := String c EmptyString.

Definition TAB : ascii := chr 9.
Definition LF : ascii := chr 10.
Definition CR : ascii := chr 13.
Definition tab : string := str1 TAB.
Definition newline : string := str1 LF.

(** [str.isspace] on one code point below U+0100: the characters that
    [str.strip()], [str.split()] and the regex class [\s] treat as
    whitespace. *)
Definition isspace (c : ascii) : bool :=
  let n := nat_of_ascii c in
  ((9 <=? n) && (n <=? 13)) || ((28 <=? n) && (n <=? 32))
  || (n =? 133) || (n =? 160).

(** Line boundaries of [str.splitlines()] below U+0100. *)
Definition is_linebreak (c : ascii) : bool :=
  let n := nat_of_ascii c in
  ((10 <=? n) && (n <=? 13)) || ((28 <=? n) && (n <=? 30)) || (n =? 133).

Definition is_empty (s : string) : bool :=
  match s with EmptyString => true | String _ _ => false end.

(** Python truthiness of a [str]. *)
Definition truthy (s : string) : bool := negb (is_empty s).

Fixpoint map_chars (f : ascii -> ascii) (s : string) : string :=
  match s with
  | EmptyString => EmptyString
  | String c s' => String (f c) (map_chars f s')
  end.

Fixpoint forallb_chars (p : ascii -> bool) (s : string) : bool :=
  match s with
  | EmptyString => true
  | String c s' => p c && forallb_chars p s'
  end.

Fixpoint existsb_chars (p : ascii -> bool) (s : string) : bool :=
  match s with
  | EmptyString => false
  | String c s' => p c || existsb_chars p s'
  end.

(** [s.lstrip()], [s.rstrip()], [s.strip()]. *)
Fixpoint lstrip (s : string) : string :=
  match s with
  | EmptyString => EmptyString
  | String c s' => if isspace c then lstrip s' else s
  end.

Fixpoint rstrip (s : string) : string :=
  match s with
  | EmptyString => EmptyString
  | String c s' =>
      let r := rstrip s' in
      if is_empty r && isspace c then EmptyString else String c r
  end.

Definition strip (s : string) : string := rstrip (lstrip s).

(** Prepend a character to the first field of a split in progress. *)
Definition cons_head (c : ascii) (fields : list string) : list string :=
  match fields with
  | [] => [str1 c]
  | f :: fs => String c f :: fs
  end.

(** [s.split(sep, maxsplit)] for a one-character separator;
    [maxsplit = None] is Python's default (no limit). *)
Fixpoint split_sep (sep : ascii) (maxsplit : option nat) (s : string)
  {struct s} : list string :=
  match maxsplit with
  | Some 0 => [s]
  | _ =>
      match s with
      | EmptyString => [EmptyString]
      | String c s' =>
          if Ascii.eqb c sep
          then EmptyString :: split_sep sep (option_map pred maxsplit) s'
          else cons_head c (split_sep sep maxsplit s')
      end
  end.

(** [s.split(None, maxsplit)]: fields are maximal runs of non-whitespace;
    once [maxsplit] fields are cut the remainder, without its leading
    whitespace, is the last field. *)
Fixpoint split_ws (maxsplit : option nat) (s : string) {struct s}
  : list string :=
  match maxsplit with
  | Some 0 => let r := lstrip s in if is_empty r then [] else [r]
  | _ =>
      match s with
      | EmptyString => []
      | String c s' =>
          if isspace c then split_ws maxsplit s'
          else
            match s' with
            | EmptyString => [str1 c]
            | String c2 _ =>
                if isspace c2
                then str1 c :: split_ws (option_map pred maxsplit) s'
                else cons_head c (split_ws maxsplit s')
            end
      end
  end.

(** [s.splitlines()]. *)
Fixpoint splitlines (s : string) : list string :=
  match s with
  | EmptyString => []
  | String c s' =>
      if is_linebreak c then
        EmptyString ::
          match s' with
          | String c2 s'' =>
              if Ascii.eqb c CR && Ascii.eqb c2 LF
              then splitlines s'' else splitlines s'
          | EmptyString => []
          end
      else cons_head c (splitlines s')
  end.

(** [s.startswith(p)]. *)
Definition startswith (p s : string) : bool := String.prefix p s.

(** [needle in hay]. *)
Fixpoint contains (needle hay : string) : bool :=
  String.prefix needle hay ||
  match hay with
  | EmptyString => false
  | String _ hay' => contains needle hay'
  end.

Definition in_range (lo hi : nat) (c : ascii) : bool :=
  let n := nat_of_ascii c in (lo <=? n) && (n <=? hi).

(** [s.upper()].  Only ASCII letters are mapped: the engine compares the
    result with ["A"], ["M"] and ["D"] alone, and no other character
    upper-cases to one of these. *)
Definition upper_char (c : ascii) : ascii :=
  if in_range 97 122 c then chr (nat_of_ascii c - 32) else c.
Definition upper : string -> string := map_chars upper_char.

(** [s.lower()] below U+0100: ASCII and Latin-1 capital letters. *)
Definition lower_char (c : ascii) : ascii :=
  let n := nat_of_ascii c in
  if in_range 65 90 c
     || (in_range 192 222 c && negb (n =? 215))
  then chr (n + 32) else c.
Definition lower : string -> string := map_chars lower_char.

(** [s.replace(a, b)] for one-character [a] and [b]. *)
Definition replace_char (a b : ascii) : string -> string :=
  map_chars (fun c => if Ascii.eqb c a then b else c).

Definition mem (s : string) (l : list string) : bool :=
  existsb (String.eqb s) l.

Fixpoint repeat_char (c : ascii) (n : nat) : string :=
  match n with
  | O => EmptyString
  | S n' => String c (repeat_char c n')
  end.

End PyStr.

Import PyStr.

(* ================================================================== *)
(** * The two regular expressions of the token budgeter *)
(* ================================================================== *)

Module Regex.

Fixpoint take (n : nat) (s : string) : string :=
  match n, s with
  | S n', String c s' => String c (take n' s')
  | _, _ => EmptyString
  end.

Fixpoint drop (n : nat) (s : string) : string :=
  match n, s with
  | S n', String _ s' => drop n' s'
  | _, _ => s
  end.

(** Length of the whitespace run at the head of [s]: what a greedy [\s+]
    (or [\s*]) consumes there. *)
Fixpoint ws_run (s : string) : nat :=
  match s with
  | String c s' => if isspace c then S (ws_run s') else 0
  | EmptyString => 0
  end.

(** The class [[.!?]]. *)
Definition is_sentence_end (c : ascii) : bool :=
  Ascii.eqb c "."%char || Ascii.eqb c "!"%char || Ascii.eqb c "?"%char.

Inductive split_mode : Type :=
| Plain        (* previous character is not one of . ! ? *)
| AfterPunct   (* previous character is one of . ! ? *)
| InSeparator. (* inside a separator match *)

(** [re.split(r'(?<=[.!?])\s+', s)], scanning left to right.  A separator
    can only start on the first whitespace character after one of . ! ?
    (the look-behind) and then takes the whole whitespace run. *)
Fixpoint re_split_from (m : split_mode) (s : string) : list string :=
  match s with
  | EmptyString => [EmptyString]
  | String c s' =>
      if isspace c then
        match m with
        | AfterPunct => EmptyString :: re_split_from InSeparator s'
        | InSeparator => re_split_from InSeparator s'
        | Plain => cons_head c (re_split_from Plain s')
        end
      else
        cons_head c
          (re_split_from (if is_sentence_end c then AfterPunct else Plain) s')
  end.

Definition re_split_sentences (s : string) : list string :=
  re_split_from Plain s.

(** The position after the window is accepted by [(?:\s+|$)]: it is the
    end of the text or a whitespace character. *)
Definition at_boundary (s : string) : bool :=
  match s with
  | EmptyString => true
  | String c _ => isspace c
  end.

(** The largest [k <= w] such that the first [k] characters of [s] are
    matched by [.] (anything but a line feed) and the window can stop
    after them: the greedy [.{0,w}] with its backtracking. *)
Fixpoint window (w : nat) (s : string) : option nat :=
  let here := if at_boundary s then Some 0 else None in
  match w, s with
  | S w', String c s' =>
      if Ascii.eqb c LF then here
      else match window w' s' with
           | Some k => Some (S k)
           | None => here
           end
  | _, _ => here
  end.

(** One match of [.{1,w}(?:\s+|$)] anchored at the head of [s]. *)
Definition match_here (w : nat) (s : string) : option string :=
  match w, s with
  | S w', String c s' =>
      if Ascii.eqb c LF then None
      else match window w' s' with
           | Some k => Some (take (S k + ws_run (drop (S k) s)) s)
           | None => None
           end
  | _, _ => None
  end.

(** [re.findall] for that pattern: non-overlapping matches, leftmost
    first; a position where the pattern does not match is passed over.
    [skip] counts the characters of the last match still to pass. *)
Fixpoint findall_from (w : nat) (skip : nat) (s : string) : list string :=
  match s with
  | EmptyString => []
  | String _ s' =>
      match skip with
      | S n => findall_from w n s'
      | O =>
          match match_here w s with
          | Some m => m :: findall_from w (pred (String.length m)) s'
          | None => findall_from w 0 s'
          end
      end
  end.

(** [re.findall(r'.{1,3000}(?:\s+|$)', s)]. *)
Definition CHAR_WINDOW : nat := 3000.
Definition findall_windows (s : string) : list string :=
  findall_from CHAR_WINDOW 0 s.

End Regex.

(* ================================================================== *)
(** * Token budgeter *)
(* ================================================================== *)

Module Budget.

Definition MAX_TOKENS : nat := 8192.

Section WithTokenizer.

(** The module-level [tokenizer]: [None] until [run_sync] installs the
    tiktoken encoding; [Some enc] gives, for a text, the number of
    tokens [len(tokenizer.encode(text, allowed_special="all"))]. *)
Variable tokenizer : option (string -> nat).

Definition count_tokens (text : string) : nat :=
  match tokenizer with
  | None => List.length (split_ws None text)
  | Some enc => enc text
  end.

(** One turn of the loop over [split_points]; the state is
    [(final_chunks, current_chunk)]. *)
Definition add_part (max_tokens : nat) (st : list string * string)
           (part : string) : list string * string :=
  let '(final_chunks, current_chunk) := st in
  let test_chunk :=
    (current_chunk ++ (if truthy current_chunk then " " ++ part else part))%string in
  if count_tokens test_chunk <=? max_tokens
  then (final_chunks, test_chunk)
  else ((if truthy current_chunk
         then final_chunks ++ [strip current_chunk]
         else final_chunks),
        part).

(** The last resort: fixed character windows, stripped, blanks dropped. *)
Definition hard_split (chunk : string) : list string :=
  filter truthy (map strip (Regex.findall_windows chunk)).

Definition recheck (max_tokens : nat) (final_chunks : list string)
  : list string :=
  flat_map (fun chunk =>
              if count_tokens chunk <=? max_tokens then [chunk]
              else hard_split chunk)
           final_chunks.

(** One turn of the loop over [sections]. *)
Definition add_section (max_tokens : nat) (final_chunks : list string)
           (section : string) : list string :=
  let section := strip section in
  if is_empty section then final_chunks
  else if count_tokens section <=? max_tokens
  then final_chunks ++ [section]
  else
    let split_points := Regex.re_split_sentences section in
    let '(final_chunks, current_chunk) :=
      fold_left (add_part max_tokens) split_points (final_chunks, EmptyString) in
    let final_chunks :=
      if truthy (strip current_chunk)
      then final_chunks ++ [strip current_chunk] else final_chunks in
    recheck max_tokens final_chunks.

Definition re_chunk_if_oversize (sections : list string) (max_tokens : nat)
  : list string :=
  fold_left (add_section max_tokens) sections [].

End WithTokenizer.

End Budget.

(* ================================================================== *)
(** * Data model, outside world and effects *)
(* ================================================================== *)

(** Values produced by [json.loads]. *)
Inductive json : Type :=
| JNull
| JBool (b : bool)
| JInt (z : Z)
| JFloat (f : float)
| JStr (s : string)
| JArr (items : list json)
| JObj (members : list (string * json)).

(** Python truthiness of such a value. *)
Definition json_truthy (v : json) : bool :=
  match v with
  | JNull => false
  | JBool b => b
  | JInt z => negb (Z.eqb z 0)
  | JFloat f => negb (PrimFloat.eqb f PrimFloat.zero)
  | JStr s => truthy s
  | JArr items => match items with [] => false | _ => true end
  | JObj members => match members with [] => false | _ => true end
  end.

(** [obj.get(key)] on a dict. *)
Fixpoint dict_get (key : string) (members : list (string * json)) : option json :=
  match members with
  | [] => None
  | (k, v) :: rest => if String.eqb k key then Some v else dict_get key rest
  end.

(** A change record [(status, path)].  The path is a [str] in every input
    mode but journal replay, which passes on whatever truthy value the
    journal line holds. *)
Definition change : Type := string * json.

(** The keys of a chunk entry that the engine reads back. *)
Record metadata : Type := mkMetadata {
  chunk_type : option string;
  md_file_path : option string
}.

Record entry : Type := mkEntry {
  entry_id : option string;             (* [it.get('id')] when it is a str *)
  entry_values : option (list float);   (* [entry.get("values")] *)
  entry_metadata : option metadata      (* absent: [{}] *)
}.

(** ErrorRecord: one journal line, and one item of [failures]. *)
Record error_record : Type := mkError {
  err_file_path : json;
  err_operation : string;
  err_message : string;
  err_status : option string
}.

(** What [stat] finds at a path.  [Unreadable msg]: [stat] fails with an
    OSError other than "no such file" (a name that is too long, a parent
    that may not be searched), [msg] being its [str(e)]. *)
Inductive file_kind : Type :=
| Absent
| RegularFile
| Directory
| Unreadable (msg : string).

(** [Path(p).exists()] and [Path(p).is_dir()]: [False] for a path that is
    not there; [inl msg] is the OSError that they raise again. *)
Definition path_exists (k : file_kind) : string + bool :=
  match k with
  | Absent => inr false
  | RegularFile | Directory => inr true
  | Unreadable msg => inl msg
  end.
Definition path_is_dir (k : file_kind) : string + bool :=
  match k with
  | Directory => inr true
  | Absent | RegularFile => inr false
  | Unreadable msg => inl msg
  end.

(** Calls made to the outside world. *)
Inductive event : Type :=
| StoreDelete (repo_name file_path : string)  (* index.delete(filter=..) *)
| StoreDeleteAll                              (* index.delete(delete_all=True) *)
| StoreUpsert (vectors : list entry)          (* index.upsert(vectors=..) *)
| ProcessFile (filepath status : string)      (* chunk and embed one file *)
| JournalAppend (path : string) (rec : error_record)
| Git (args : list string) (cwd : string)
| ReadText (path : string)
| ReadGithubEvent                             (* detect_github_commit_range() *)
| InitStore
| InitModels.

Definition trace : Type := list event.

(** The outside world.  An answer may depend on everything that was called
    before.  For a call that can fail, [inl msg] or [Some msg] is an
    exception whose [str(e)] is [msg].  The file tree is taken as it is
    when the run starts. *)
Record World : Type := mkWorld {
  environ : string -> option string;
  path_kind : string -> file_kind;
  joinpath : string -> list string -> string;   (* str(Path(a) / b / ..) *)
  resolved_name : string -> string;             (* Path(p).resolve().name *)
  path_type_error : json -> string;             (* Path(v), v not a str *)
  git : trace -> list string -> string -> string + string;
  read_text : trace -> string -> string + string;
  json_loads : string -> option json;
  detect_github_commit_range : trace -> string + (string * string);
  init_store : trace -> option string;
  init_models : trace -> option string;
  index_delete : trace -> string -> string -> option string;
  index_delete_all : trace -> option string;
  index_upsert : trace -> list entry -> option string;
  process_file : trace -> string -> string -> string -> string
                 -> string + list entry
}.

(** How a computation ends: a value, an exception ([str(e)]), or
    [SystemExit] with its code. *)
Inductive outcome (A : Type) : Type :=
| Ok (a : A)
| Raise (msg : string)
| Exit (code : nat).
Arguments Ok {A} a.
Arguments Raise {A} msg.
Arguments Exit {A} code.

(** State and exceptions; what was done before an exception stays done. *)
Definition M (S A : Type) : Type := S -> S * outcome A.

Definition ret {S A : Type} (a : A) : M S A := fun s => (s, Ok a).
Definition raise {S A : Type} (msg : string) : M S A := fun s => (s, Raise msg).
Definition sys_exit {S A : Type} (code : nat) : M S A := fun s => (s, Exit code).

Definition bind {S A B : Type} (m : M S A) (k : A -> M S B) : M S B :=
  fun s =>
    match m s with
    | (s', Ok a) => k a s'
    | (s', Raise msg) => (s', Raise msg)
    | (s', Exit code) => (s', Exit code)
    end.

(** [try: m  except Exception as e: h(str(e))]. *)
Definition try_except {S A : Type} (m : M S A) (h : string -> M S A) : M S A :=
  fun s =>
    match m s with
    | (s', Raise msg) => h msg s'
    | r => r
    end.

Definition modify {S : Type} (f : S -> S) : M S unit := fun s => (f s, Ok tt).

(** A call that answers [inl msg] raises; [msg] is its [str(e)]. *)
Definition of_result {S A : Type} (r : string + A) : M S A :=
  match r with
  | inl e => raise e
  | inr a => ret a
  end.

Declare Scope py_scope.
Delimit Scope py_scope with py.
Notation "x <- m ;; k" := (bind m (fun x => k))
  (at level 61, m at next level, right associativity) : py_scope.
Notation "m ;; k" := (bind m (fun _ => k))
  (at level 61, right associativity) : py_scope.
Local Open Scope py_scope.

(** [for x in xs: body(x)]. *)
Fixpoint for_each {S A : Type} (body : A -> M S unit) (xs : list A) : M S unit :=
  match xs with
  | [] => ret tt
  | x :: rest => body x ;; for_each body rest
  end.

Definition W : Type -> Type := M trace.

(** One call to the world: log it, then take the world's answer. *)
Definition call {A : Type} (ev : event) (answer : trace -> string + A) : W A :=
  fun t =>
    match answer t with
    | inl msg => (t ++ [ev], Raise msg)
    | inr a => (t ++ [ev], Ok a)
    end.

Definition unit_answer (r : option string) : string + unit :=
  match r with
  | Some msg => inl msg
  | None => inr tt
  end.

(* ================================================================== *)
(** * Vector store gateway and error journal *)
(* ================================================================== *)

Definition DEFAULT_NAMESPACE : string := "".
Definition BATCH_SIZE : nat := 10.

Definition dquote : string := str1 (chr 34).

Section Gateway.

Variable w : World.

(** [append_error]: the status key is written only when it is truthy; a
    failure to write is swallowed, so the call never raises. *)
Definition append_error (path : string) (file_path : json)
           (operation message : string) (status : option string) : W unit :=
  fun t =>
    let rec :=
      mkError file_path operation message
              (match status with
               | Some st => if truthy st then Some st else None
               | None => None
               end) in
    (t ++ [JournalAppend path rec], Ok tt).

Definition namespace_absent (message : string) : bool :=
  let msg := lower message in
  contains "namespace not found" msg
  || contains ("code" ++ dquote ++ ":5")%string msg.

Definition safe_delete_vectors (file_path repo_name : string) : W unit :=
  try_except
    (call (StoreDelete repo_name file_path)
          (fun t => unit_answer (index_delete w t repo_name file_path)))
    (fun e => if namespace_absent e then ret tt else raise e).

(** The test of the validation loop on one entry. *)
Definition empty_content (e : entry) : bool :=
  let ct := match entry_metadata e with
            | Some md => chunk_type md
            | None => None
            end in
  match ct with
  | Some ty =>
      String.eqb ty "content"
      && negb (match entry_values e with
               | Some (_ :: _) => true
               | _ => false
               end)
  | None => false
  end.

Definition empty_embedding_message (e : entry) : string :=
  ("Attempted to upsert empty embedding: " ++
   match entry_metadata e with
   | Some md => match md_file_path md with Some p => p | None => "None" end
   | None => "None"
   end)%string.

Definition safe_upsert_batch (batch : list entry) (repo_name : string) : W nat :=
  match find empty_content batch with
  | Some e => raise (empty_embedding_message e)
  | None =>
      call (StoreUpsert batch)
           (fun t => unit_answer (index_upsert w t batch)) ;;
      ret (List.length batch)
  end.

End Gateway.

(* ================================================================== *)
(** * Sync executor *)
(* ================================================================== *)

(** The local variables of [run_sync] together with the trace. *)
Record sync_state : Type := mkState {
  calls : trace;
  processed : nat;          (* file_stats["processed"] *)
  errors : nat;             (* file_stats["errors"] *)
  skipped : nat;            (* file_stats["skipped"] *)
  failures : list error_record;
  deleted_files : nat;
  upserted_ids : list string;
  total_upserted : nat
}.

Definition initial_state (t : trace) : sync_state :=
  mkState t 0 0 0 [] 0 [] 0.

Definition set_calls (t : trace) (s : sync_state) : sync_state :=
  mkState t (processed s) (errors s) (skipped s) (failures s)
          (deleted_files s) (upserted_ids s) (total_upserted s).
Definition incr_processed (s : sync_state) : sync_state :=
  mkState (calls s) (S (processed s)) (errors s) (skipped s) (failures s)
          (deleted_files s) (upserted_ids s) (total_upserted s).
Definition incr_errors (s : sync_state) : sync_state :=
  mkState (calls s) (processed s) (S (errors s)) (skipped s) (failures s)
          (deleted_files s) (upserted_ids s) (total_upserted s).
Definition incr_skipped (s : sync_state) : sync_state :=
  mkState (calls s) (processed s) (errors s) (S (skipped s)) (failures s)
          (deleted_files s) (upserted_ids s) (total_upserted s).
Definition add_failure (f : error_record) (s : sync_state) : sync_state :=
  mkState (calls s) (processed s) (errors s) (skipped s) (failures s ++ [f])
          (deleted_files s) (upserted_ids s) (total_upserted s).
Definition incr_deleted (s : sync_state) : sync_state :=
  mkState (calls s) (processed s) (errors s) (skipped s) (failures s)
          (S (deleted_files s)) (upserted_ids s) (total_upserted s).
Definition add_upserted (n : nat) (ids : list string) (s : sync_state)
  : sync_state :=
  mkState (calls s) (processed s) (errors s) (skipped s) (failures s)
          (deleted_files s) (upserted_ids s ++ ids) (total_upserted s + n).

Definition X : Type -> Type := M sync_state.

(** A call to the world made from inside the executor. *)
Definition lift {A : Type} (m : W A) : X A :=
  fun s => let '(t, r) := m (calls s) in (set_calls t s, r).

(** [[it.get('id') for it in batch]], kept when a str. *)
Fixpoint batch_ids (batch : list entry) : list string :=
  match batch with
  | [] => []
  | e :: rest =>
      match entry_id e with
      | Some uid => uid :: batch_ids rest
      | None => batch_ids rest
      end
  end.

(** [[chunks[i:i + BATCH_SIZE] for i in range(0, len(chunks), BATCH_SIZE)]]. *)
Definition batches (chunks : list entry) : list (list entry) :=
  map (fun j => firstn BATCH_SIZE (skipn (j * BATCH_SIZE) chunks))
      (seq 0 ((List.length chunks + (BATCH_SIZE - 1)) / BATCH_SIZE)).

Definition not_found_message (status filepath : string) : string :=
  ("File marked as " ++ status ++ " but not found: " ++ filepath)%string.

Record run_result : Type := mkResult {
  res_namespace : string;
  res_repo_name : string;
  res_upserted_ids : list string
}.

Section Executor.

Variable w : World.

Definition getenv_or_empty (key : string) : string :=
  match environ w key with Some v => v | None => "" end.

(** The metadata tag of the run. *)
Definition compute_repo_name (repo_root : string) : string :=
  let github_repo := strip (getenv_or_empty "GITHUB_REPOSITORY") in
  let repo_name :=
    if truthy github_repo
    then last (split_sep "/" None github_repo) ""
    else "" in
  if truthy repo_name then repo_name
  else if truthy (resolved_name w repo_root)
       then resolved_name w repo_root else "unknown".

Definition compute_commit_sha : string :=
  match environ w "GITHUB_SHA" with Some v => v | None => "unknown" end.

(** Recording a failure: counter, [failures] list, journal. *)
Definition record_failure (errors_out : string) (filepath : json)
           (operation status message : string) : X unit :=
  modify incr_errors ;;
  modify (add_failure (mkError filepath operation message (Some status))) ;;
  lift (append_error errors_out filepath operation message (Some status)).

(** The body of the loop over batches, with its own [try]. *)
Definition upsert_batch (errors_out repo_name status filepath : string)
           (batch : list entry) : X unit :=
  try_except
    (upserted_count <- lift (safe_upsert_batch w batch repo_name) ;;
     modify (add_upserted upserted_count (batch_ids batch)))
    (fun e => record_failure errors_out (JStr filepath) "upsert" status e).

(** Chunk, embed and upsert one file that is on disk. *)
Definition chunk_and_upsert (errors_out repo_name commit_sha status fp : string)
  : X unit :=
  chunks <- lift (call (ProcessFile fp status)
                    (fun t => process_file w t fp status repo_name commit_sha)) ;;
  for_each (upsert_batch errors_out repo_name status fp) (batches chunks) ;;
  modify incr_processed.

(** What stands inside the [try] of the loop over [files_to_process];
    [continue] ends it without an exception.  The two tests on the path
    call [stat]: when that fails for a path it cannot examine, the
    OSError leaves the body at the first of them. *)
Definition process_record_body (wipe_first : bool)
           (errors_out repo_name commit_sha : string)
           (status : string) (filepath : json) : X unit :=
  match filepath with
  | JStr fp =>
      let kind := path_kind w fp in
      on_disk <- of_result (path_exists kind) ;;
      is_directory <- (if on_disk then of_result (path_is_dir kind)
                       else ret false) ;;
      if is_directory then
        modify incr_skipped ;;
        lift (append_error errors_out filepath "skip-dir"
                           "Path is a directory; skipping" (Some status))
      else if String.eqb status "D" then
        lift (safe_delete_vectors w fp repo_name) ;;
        modify incr_deleted
      else
        on_disk <- of_result (path_exists kind) ;;
        if negb on_disk then
          modify incr_skipped ;;
          raise (not_found_message status fp)
        else
          (if mem status ["A"; "M"] && negb wipe_first
           then lift (safe_delete_vectors w fp repo_name) ;;
                modify incr_deleted
           else ret tt) ;;
          chunk_and_upsert errors_out repo_name commit_sha status fp
  | _ => raise (path_type_error w filepath)
  end.

(** One turn of the loop over [files_to_process]. *)
Definition process_record (wipe_first : bool)
           (errors_out repo_name commit_sha : string)
           (rec : change) : X unit :=
  let '(status, filepath) := rec in
  try_except
    (process_record_body wipe_first errors_out repo_name commit_sha status filepath)
    (fun e => record_failure errors_out filepath "process" status e).

Definition sync_loop (wipe_first : bool)
           (errors_out repo_name commit_sha : string)
           (files_to_process : list change) : X unit :=
  for_each (process_record wipe_first errors_out repo_name commit_sha)
           files_to_process.

(** Client set-up at the head of [run_sync]. *)
Definition init_clients : W unit :=
  call InitStore (fun t => unit_answer (init_store w t)) ;;
  (if truthy (getenv_or_empty "VOYAGE_API_KEY") then ret tt
   else raise "VOYAGE_API_KEY not set") ;;
  call InitModels (fun t => unit_answer (init_models w t)).

Definition wipe_namespace : W unit :=
  try_except
    (call StoreDeleteAll (fun t => unit_answer (index_delete_all w t)))
    (fun e => if contains "namespace not found" (lower e) then ret tt
              else raise ("Failed to wipe namespace: " ++ e)%string).

(** The end of [run_sync]: exit status from [failures]. *)
Definition finish (repo_name : string) : X run_result :=
  fun s =>
    match failures s with
    | [] => (s, Ok (mkResult DEFAULT_NAMESPACE repo_name (upserted_ids s)))
    | _ :: _ => (s, Exit 1)
    end.

(** [run_sync] up to the loop: clients, then the wipe of reindex-all. *)
Definition setup (wipe_first : bool) : X unit :=
  lift init_clients ;;
  (if wipe_first then lift wipe_namespace else ret tt).

(** [run_sync] from the loop on: fresh counters, every record, exit status. *)
Definition run_records (wipe_first : bool)
           (errors_out repo_name commit_sha : string)
           (files_to_process : list change) : X run_result :=
  modify (fun s => initial_state (calls s)) ;;
  sync_loop wipe_first errors_out repo_name commit_sha files_to_process ;;
  finish repo_name.

Definition run_sync (files_to_process : list change)
           (errors_out repo_root : string) (wipe_first : bool)
  : X run_result :=
  let repo_name := compute_repo_name repo_root in
  let commit_sha := compute_commit_sha in
  setup wipe_first ;;
  run_records wipe_first errors_out repo_name commit_sha files_to_process.

End Executor.

(* ================================================================== *)
(** * Change set resolver *)
(* ================================================================== *)

(** [for x in xs: out.extend(f(x))], with [f] calling the world. *)
Fixpoint collect {S A B : Type} (f : A -> M S (list B)) (xs : list A)
  : M S (list B) :=
  match xs with
  | [] => ret []
  | x :: rest =>
      here <- f x ;;
      later <- collect f rest ;;
      ret (here ++ later)
  end.

(** Dedup while preserving order. *)
Fixpoint dedup_from (seen : list string) (xs : list string) : list string :=
  match xs with
  | [] => []
  | x :: rest =>
      if mem x seen then dedup_from seen rest
      else x :: dedup_from (x :: seen) rest
  end.
Definition dedup (xs : list string) : list string := dedup_from [] xs.

(** [sorted(..)] on strings: code point order. *)
Fixpoint insert_sorted (x : string) (xs : list string) : list string :=
  match xs with
  | [] => [x]
  | y :: rest => if String.leb x y then x :: xs else y :: insert_sorted x rest
  end.
Definition sorted (xs : list string) : list string :=
  fold_right insert_sorted [] xs.

Definition nth_col (n : nat) (cols : list string) : string := nth n cols "".

(** One line of [git diff --name-status] in the superproject. *)
Definition superproject_line_changes (line : string) : list (string * string) :=
  let cols := split_sep TAB None (strip line) in
  match cols with
  | [] => []
  | st :: _ =>
      if startswith "R" st && (3 <=? List.length cols)
      then [("D", nth_col 1 cols); ("M", nth_col 2 cols)]
      else if 2 <=? List.length cols
      then [(st, nth_col 1 cols)]
      else []
  end.

Definition under (sub_path path : string) : string :=
  (sub_path ++ "/" ++ path)%string.

(** One line of [git diff --name-status] inside a submodule. *)
Definition submodule_line_changes (sub_path line : string)
  : list (string * string) :=
  let cols := split_sep TAB None (strip line) in
  match cols with
  | [] => []
  | st :: _ =>
      if startswith "R" st && (3 <=? List.length cols)
      then [("D", under sub_path (nth_col 1 cols));
            ("M", under sub_path (nth_col 2 cols))]
      else if 2 <=? List.length cols
      then [(st, under sub_path (nth_col 1 cols))]
      else []
  end.

(** The class [[0-9a-f]]. *)
Definition is_hex (c : ascii) : bool := in_range 48 57 c || in_range 97 102 c.

(** Length of the longest prefix of [s] whose characters satisfy [p]. *)
Fixpoint run_length (p : ascii -> bool) (s : string) : nat :=
  match s with
  | String c s' => if p c then S (run_length p s') else 0
  | EmptyString => 0
  end.

Definition strip_prefix (p s : string) : option string :=
  if String.prefix p s then Some (Regex.drop (String.length p) s) else None.

(** [re.match(r"^Submodule\s+([^\s]+)\s+([0-9a-f]{7,})\.{2,3}([0-9a-f]{7,}).*$", line.strip())].
    Each greedy group is followed by a class disjoint from its own, so it
    takes its whole run and backtracking never finds another match. *)
Definition match_submodule_line (line : string)
  : option (string * string * string) :=
  match strip_prefix "Submodule" (strip line) with
  | None => None
  | Some r1 =>
      let n1 := run_length isspace r1 in
      let r2 := Regex.drop n1 r1 in
      let n2 := run_length (fun c => negb (isspace c)) r2 in
      let r3 := Regex.drop n2 r2 in
      let n3 := run_length isspace r3 in
      let r4 := Regex.drop n3 r3 in
      let n4 := run_length is_hex r4 in
      let r5 := Regex.drop n4 r4 in
      let n5 := run_length (Ascii.eqb "."%char) r5 in
      let r6 := Regex.drop n5 r5 in
      let n6 := run_length is_hex r6 in
      if (1 <=? n1) && (1 <=? n2) && (1 <=? n3) && (7 <=? n4)
         && ((n5 =? 2) || (n5 =? 3)) && (7 <=? n6)
      then Some (Regex.take n2 r2, Regex.take n4 r4, Regex.take n6 r6)
      else None
  end.

Definition _parse_submodule_short (diff_text : string)
  : list (string * string * string) :=
  flat_map (fun line => match match_submodule_line line with
                        | Some m => [m]
                        | None => []
                        end)
           (splitlines diff_text).

(** [sha == "0000000" or re.fullmatch(r"0+", sha) is not None]. *)
Definition null_sha (sha : string) : bool :=
  String.eqb sha "0000000"
  || (truthy sha && forallb_chars (Ascii.eqb "0"%char) sha).

Definition SUBMODULE_ERRORS : string := "chat/.vector_sync_errors.jsonl".

Record Args : Type := mkArgs {
  changed_files : option string;
  files : option (list string);
  retry_errors : option string;
  errors_out : string;
  from_commit : option string;
  to_commit : string;
  repo_root : string;
  reindex_all : bool;
  skip_on_missing_keys : bool
}.

Definition opt_truthy (o : option string) : bool :=
  match o with Some s => truthy s | None => false end.
Definition list_truthy {A : Type} (o : option (list A)) : bool :=
  match o with Some (_ :: _) => true | _ => false end.

Definition STATUSES : list string := ["A"; "M"; "D"].

(** The messages of the two RuntimeErrors of reindex-all. *)
Definition REINDEX_CONFLICT : string :=
  "--reindex-all cannot be combined with --files, --retry-errors, or changed_files".
Definition NOTHING_TRACKED : string :=
  "No tracked files found to index. Make sure the superproject is a git repo and submodules are checked out.".

(** [parse_token] of the [--files] mode; [inl] is the RuntimeError. *)
Definition parse_token (tok : string) : string + (string * string) :=
  if contains ":" tok then
    match split_sep ":"%char (Some 1) tok with
    | st :: path :: _ =>
        let st := upper (strip st) in
        if mem st STATUSES then inr (st, path)
        else inl ("Invalid status prefix in --files token: " ++ tok)%string
    | _ => inl "ValueError"
    end
  else inr ("M", tok).

Fixpoint parse_tokens (toks : list string) : string + list (string * string) :=
  match toks with
  | [] => inr []
  | tok :: rest =>
      match parse_token tok with
      | inl e => inl e
      | inr rec =>
          match parse_tokens rest with
          | inl e => inl e
          | inr recs => inr (rec :: recs)
          end
      end
  end.

(** Text-mode reading translates CR LF and CR to LF. *)
Fixpoint universal_newlines (s : string) : string :=
  match s with
  | EmptyString => EmptyString
  | String c s' =>
      if Ascii.eqb c CR then
        String LF
          match s' with
          | String c2 s'' =>
              if Ascii.eqb c2 LF then universal_newlines s''
              else universal_newlines s'
          | EmptyString => EmptyString
          end
      else String c (universal_newlines s')
  end.

(** [[ln.strip() for ln in f.readlines() if ln.strip()]]: the line
    terminators that [readlines] keeps are stripped at once. *)
Definition stripped_lines (content : string) : list string :=
  filter truthy (map strip (split_sep LF None (universal_newlines content))).

(** One line of a changed-files listing; [inl] is the RuntimeError. *)
Definition listing_line_changes (line : string)
  : string + list (string * string) :=
  let parts := split_ws (Some 2) line in
  let status := nth_col 0 parts in
  if startswith "R" status then
    if 3 <=? List.length parts
    then inr [("D", nth_col 1 parts); ("M", nth_col 2 parts)]
    else inl ("Malformed rename line: " ++ line)%string
  else
    let fp := if 1 <? List.length parts then nth_col 1 parts else "" in
    if truthy fp then inr [(status, fp)] else inr [].

Fixpoint listing_changes (lines : list string)
  : string + list (string * string) :=
  match lines with
  | [] => inr []
  | line :: rest =>
      match listing_line_changes line with
      | inl e => inl e
      | inr here =>
          match listing_changes rest with
          | inl e => inl e
          | inr later => inr (here ++ later)
          end
      end
  end.

(** [main_entry] passes over what commit-range mode left with an R status. *)
Definition drop_unexpanded_renames (changes : list (string * string))
  : list (string * string) :=
  filter (fun r => negb (startswith "R" (fst r))) changes.

Definition as_changes (l : list (string * string)) : list change :=
  map (fun r => (fst r, JStr (snd r))) l.

Section Resolver.

Variable w : World.

Definition is_dir (p : string) : W bool :=
  of_result (path_is_dir (path_kind w p)).

Definition _run_git (args : list string) (cwd : string) : W string :=
  try_except
    (call (Git args cwd) (fun t => git w t args cwd))
    (fun stderr =>
       raise ("git " ++ String.concat " " args ++ " failed: " ++ stderr)%string).

(** The files of a submodule tree, each as one record. *)
Definition tree_changes (status sub_path out : string)
  : list (string * string) :=
  flat_map (fun f => if truthy (strip f) then [(status, under sub_path f)]
                     else [])
           (splitlines out).

(** One turn of the loop over submodule pointer changes. *)
Definition submodule_changes (repo_root : string)
           (sub : string * string * string) : W (list (string * string)) :=
  let '(sub_path, oldsha, newsha) := sub in
  let sub_abs := joinpath w repo_root [sub_path] in
  let sub_gitdir := joinpath w repo_root [".git"; "modules"; sub_path] in
  let added := null_sha oldsha in
  let deleted := null_sha newsha in
  try_except
    (if added then
       out <- (there <- is_dir sub_abs ;;
               if there
               then _run_git ["-C"; sub_abs; "ls-tree"; "-r"; "--name-only"; newsha] repo_root
               else _run_git ["--git-dir"; sub_gitdir; "ls-tree"; "-r"; "--name-only"; newsha] repo_root) ;;
       ret (tree_changes "A" sub_path out)
     else if deleted then
       out <- (there <- is_dir sub_gitdir ;;
               if there
               then _run_git ["--git-dir"; sub_gitdir; "ls-tree"; "-r"; "--name-only"; oldsha] repo_root
               else _run_git ["-C"; sub_abs; "ls-tree"; "-r"; "--name-only"; oldsha] repo_root) ;;
       ret (tree_changes "D" sub_path out)
     else
       out <- (there <- is_dir sub_abs ;;
               if there
               then _run_git ["-C"; sub_abs; "diff"; "--name-status"; oldsha; newsha] repo_root
               else _run_git ["--git-dir"; sub_gitdir; "diff"; "--name-status"; oldsha; newsha] repo_root) ;;
       ret (flat_map (submodule_line_changes sub_path) (splitlines out)))
    (fun e =>
       append_error SUBMODULE_ERRORS (JStr sub_path) "diff-submodule" e None ;;
       ret []).

Definition compute_changes_from_git (repo_root from_rev to_rev : string)
  : W (list (string * string)) :=
  super_out <- _run_git ["diff"; "--name-status"; from_rev; to_rev] repo_root ;;
  let changes := flat_map superproject_line_changes (splitlines super_out) in
  sub_out <- _run_git ["diff"; "--submodule=short"; from_rev; to_rev] repo_root ;;
  sub_changes <- collect (submodule_changes repo_root)
                         (_parse_submodule_short sub_out) ;;
  ret (changes ++ sub_changes).

Definition gitmodules_path_line (line : string) : list string :=
  match split_ws (Some 1) (strip line) with
  | [_; p] => if truthy (strip p) then [replace_char "\"%char "/"%char (strip p)]
              else []
  | _ => []
  end.

Definition _get_submodule_paths (repo_root : string) : W (list string) :=
  on_disk <- of_result (path_exists
                          (path_kind w (joinpath w repo_root [".gitmodules"]))) ;;
  if negb on_disk
  then ret []
  else
    try_except
      (out <- _run_git ["config"; "--file"; ".gitmodules"; "--get-regexp";
                        "submodule\..*\.path"] repo_root ;;
       ret (dedup (flat_map gitmodules_path_line (splitlines out))))
      (fun _ => ret []).

Definition tracked_files (keep : string -> bool) (rename : string -> string)
           (out : string) : list string :=
  flat_map (fun fp => let fp := strip fp in
                      if truthy fp && keep fp then [rename fp] else [])
           (splitlines out).

Definition backslash_to_slash : string -> string :=
  replace_char "\"%char "/"%char.

(** One turn of the loop over [sorted(submodules)]. *)
Definition submodule_files (repo_root errors_out sub_path : string)
  : W (list string) :=
  let sub_abs := joinpath w repo_root [sub_path] in
  there <- is_dir sub_abs ;;
  if negb there then
    append_error errors_out (JStr sub_path) "ls-files-submodule"
                 "Submodule path not found on disk" None ;;
    ret []
  else
    try_except
      (out <- _run_git ["-C"; sub_abs; "ls-files"] repo_root ;;
       ret (tracked_files (fun _ => true)
                          (fun fp => backslash_to_slash (under sub_path fp))
                          out))
      (fun e =>
         append_error errors_out (JStr sub_path) "ls-files-submodule" e None ;;
         ret []).

Definition compute_reindex_all_files (repo_root errors_out : string)
  : W (list (string * string)) :=
  submodules <- _get_submodule_paths repo_root ;;
  super_out <- _run_git ["ls-files"] repo_root ;;
  let super_files :=
    tracked_files (fun fp => negb (mem fp submodules)) backslash_to_slash
                  super_out in
  sub_files <- collect (submodule_files repo_root errors_out)
                       (sorted (dedup submodules)) ;;
  ret (map (fun fp => ("A", fp)) (dedup (super_files ++ sub_files))).

(** One line of the journal in replay mode; every exception inside the
    [try] (no parse, no [.get], no [.upper]) skips the line. *)
Definition replay_line (line : string) : list change :=
  match json_loads w line with
  | Some (JObj members) =>
      let fp := dict_get "file_path" members in
      let status :=
        match dict_get "status" members with
        | Some v => if json_truthy v then v else JStr "M"
        | None => JStr "M"
        end in
      match status with
      | JStr st =>
          let st := upper st in
          let st := if mem st STATUSES then st else "M" in
          match fp with
          | Some v => if json_truthy v then [(st, v)] else []
          | None => []
          end
      | _ => []
      end
  | _ => []
  end.

Definition missing_keys : list string :=
  (if truthy (getenv_or_empty w "PINECONE_API_KEY") then []
   else ["PINECONE_API_KEY"])
  ++ (if truthy (getenv_or_empty w "VOYAGE_API_KEY") then []
      else ["VOYAGE_API_KEY"]).

(** The branches of [main_entry] that fill [files_to_process]. *)
Definition resolve (args : Args) : W (list change) :=
  if reindex_all args then
    files_to_process <- compute_reindex_all_files (repo_root args) (errors_out args) ;;
    match files_to_process with
    | [] => raise "No tracked files found to index. Make sure the superproject is a git repo and submodules are checked out."
    | _ => ret (as_changes files_to_process)
    end
  else if list_truthy (files args) then
    recs <- of_result (parse_tokens (match files args with Some l => l | None => [] end)) ;;
    ret (as_changes recs)
  else if opt_truthy (retry_errors args) then
    let src := match retry_errors args with Some p => p | None => "" end in
    on_disk <- of_result (path_exists (path_kind w src)) ;;
    if on_disk then
      text <- call (ReadText src) (fun t => read_text w t src) ;;
      ret (flat_map replay_line (splitlines text))
    else raise ("Errors file not found: " ++ src)%string
  else
    let listing := opt_truthy (changed_files args) in
    range <-
      (if negb (opt_truthy (from_commit args)) && negb listing
       then call ReadGithubEvent (detect_github_commit_range w)
       else ret (match from_commit args with Some c => c | None => "" end,
                 if truthy (to_commit args) then to_commit args else "HEAD")) ;;
    let '(from_commit, to_commit) := range in
    if truthy from_commit then
      changes <- compute_changes_from_git (repo_root args) from_commit to_commit ;;
      ret (as_changes (drop_unexpanded_renames changes))
    else if listing then
      let path := match changed_files args with Some p => p | None => "" end in
      text <- call (ReadText path) (fun t => read_text w t path) ;;
      recs <- of_result (listing_changes (stripped_lines text)) ;;
      ret (as_changes recs)
    else raise "Usage: provide one of: --files, --retry-errors, --from-commit, --reindex-all, or changed_files path".

Definition main_entry (args : Args) : X run_result :=
  match missing_keys with
  | _ :: _ =>
      if skip_on_missing_keys args then sys_exit 0
      else raise ("Missing required API keys: " ++ String.concat ", " missing_keys)%string
  | [] =>
      if reindex_all args
         && (list_truthy (files args) || opt_truthy (retry_errors args)
             || opt_truthy (changed_files args))
      then raise "--reindex-all cannot be combined with --files, --retry-errors, or changed_files"
      else
        files_to_process <- lift (resolve args) ;;
        run_sync w files_to_process (errors_out args) (repo_root args)
                 (reindex_all args)
  end.

End Resolver.

(* ================================================================== *)
(** * Concrete worlds for the examples *)
(* ================================================================== *)

(** A world given by its environment, file tree, git, journal parser,
    store and file processor; no file can be read and the clients start. *)
Definition sample_world
           (env : string -> option string)
           (fs : string -> file_kind)
           (git_out : list string -> string + string)
           (parse : string -> option json)
           (delete : string -> option string)
           (upsert : list entry -> option string)
           (process : string -> string + list entry) : World :=
  mkWorld env fs
          (fun a parts => String.concat "/" (a :: parts))
          (fun p => p)
          (fun _ => "expected str, bytes or os.PathLike object")
          (fun _ args _ => git_out args)
          (fun _ _ => inl "No such file or directory")
          parse
          (fun _ => inl "GITHUB_EVENT_PATH not set")
          (fun _ => None)
          (fun _ => None)
          (fun _ _ p => delete p)
          (fun _ => None)
          (fun _ batch => upsert batch)
          (fun _ p _ _ _ => process p).

Definition silent_git (args : list string) : string + string := inr "".
Definition no_json (line : string) : option json := None.

Definition keys_present (key : string) : option string :=
  if mem key ["PINECONE_API_KEY"; "VOYAGE_API_KEY"] then Some "secret" else None.
Definition no_environment (key : string) : option string := None.

Definition content_entry (uid path : string) (values : list float) : entry :=
  mkEntry (Some uid) (Some values) (Some (mkMetadata (Some "content") (Some path))).
Definition summary_entry (uid path : string) : entry :=
  mkEntry (Some uid) (Some []) (Some (mkMetadata (Some "summary") (Some path))).

Definition one_chunk (p : string) : string + list entry :=
  inr [content_entry ("id-" ++ p) p [1%float]].

(** Three regular files; embedding fails for the second. *)
Definition three_files_world : World :=
  sample_world keys_present
               (fun p => if mem p ["one.py"; "two.py"; "three.py"]
                         then RegularFile else Absent)
               silent_git no_json
               (fun _ => None) (fun _ => None)
               (fun p => if String.eqb p "two.py"
                         then inl "Embedding failed: Received empty embedding from API"
                         else one_chunk p).

(** [team] is a directory (a submodule mount point), nothing else exists. *)
Definition directory_world : World :=
  sample_world keys_present
               (fun p => if String.eqb p "team" then Directory else Absent)
               silent_git no_json
               (fun _ => None) (fun _ => None) one_chunk.

(** A name too long for the file system: [stat] raises for it.  Nothing
    else is on disk. *)
Definition long_name : string := repeat_char "a" 300.

Definition long_name_error : string :=
  ("[Errno 36] File name too long: '" ++ long_name ++ "'")%string.

Definition long_name_world : World :=
  sample_world keys_present
               (fun p => if String.eqb p long_name
                         then Unreadable long_name_error else Absent)
               silent_git no_json
               (fun _ => None) (fun _ => None) one_chunk.

(** Nothing on disk; the store reports that the namespace does not exist. *)
Definition empty_store_world : World :=
  sample_world keys_present (fun _ => Absent) silent_git no_json
               (fun _ => Some "(404) Namespace not found")
               (fun _ => None) one_chunk.

(** A superproject that tracks one file, [a.py]; no submodules. *)
Definition one_file_git (args : list string) : string + string :=
  match args with
  | ["ls-files"] => inr ("a.py" ++ newline)%string
  | _ => inr ""
  end.

Definition one_file_world : World :=
  sample_world keys_present
               (fun p => if String.eqb p "a.py" then RegularFile else Absent)
               one_file_git no_json
               (fun _ => None) (fun _ => None) one_chunk.

(** The same tree without the API keys in the environment. *)
Definition no_keys_world : World :=
  sample_world no_environment
               (fun p => if String.eqb p "a.py" then RegularFile else Absent)
               one_file_git no_json
               (fun _ => None) (fun _ => None) one_chunk.

(** A name-status line for a rename. *)
Definition rename_line (st old new : string) : string :=
  (st ++ tab ++ old ++ tab ++ new)%string.

(** [git diff --name-status] prints one rename; no submodule changed. *)
Definition rename_git (args : list string) : string + string :=
  match args with
  | "diff" :: "--name-status" :: _ =>
      inr (rename_line "R100" "old.md" "new.md" ++ newline)%string
  | _ => inr ""
  end.

Definition rename_world : World :=
  sample_world keys_present (fun _ => Absent) rename_git no_json
               (fun _ => None) (fun _ => None) one_chunk.

(** Journal lines and what [json.loads] makes of them. *)
Definition quoted (s : string) : string := (dquote ++ s ++ dquote)%string.

Definition journal_line (status_text : string) : string :=
  ("{" ++ quoted "file_path" ++ ": " ++ quoted "x.py" ++ ", "
       ++ quoted "status" ++ ": " ++ status_text ++ "}")%string.

Definition journal_parse (line : string) : option json :=
  if String.eqb line (journal_line (quoted "d"))
  then Some (JObj [("file_path", JStr "x.py"); ("status", JStr "d")])
  else if String.eqb line (journal_line (quoted "X"))
  then Some (JObj [("file_path", JStr "x.py"); ("status", JStr "X")])
  else if String.eqb line (journal_line "5")
  then Some (JObj [("file_path", JStr "x.py"); ("status", JInt 5)])
  else None.

Definition journal_world : World :=
  sample_world keys_present (fun _ => Absent) silent_git journal_parse
               (fun _ => None) (fun _ => None) one_chunk.

(* ================================================================== *)
(** * Vocabulary of the properties *)
(* ================================================================== *)

(** [m] moves every state to a [rel]-related one, however it ends. *)
Definition keeps {S A : Type} (rel : S -> S -> Prop) (m : M S A) : Prop :=
  forall s, rel s (fst (m s)).

(** A computation that never ends in [SystemExit]. *)
Definition no_exit {S A : Type} (m : M S A) : Prop :=
  forall s code, snd (m s) <> Exit code.

(** A computation that always returns. *)
Definition total {S A : Type} (m : M S A) : Prop :=
  forall s, exists a, snd (m s) = Ok a.

(** The trace grows by events that all satisfy [P]. *)
Definition emits (P : event -> Prop) (t t' : trace) : Prop :=
  exists new, t' = t ++ new /\ Forall P new.

Definition emits_in (P : event -> Prop) (s s' : sync_state) : Prop :=
  emits P (calls s) (calls s').

(** Each new error comes with one new item of [failures]. *)
Definition accounted (s s' : sync_state) : Prop :=
  exists newf, failures s' = failures s ++ newf
               /\ errors s' = errors s + List.length newf.

(** Classes of events. *)
Definition any_event (ev : event) : Prop := True.

Definition not_store_delete (ev : event) : Prop :=
  match ev with StoreDelete _ _ => False | _ => True end.

(** What the enumeration of tracked files may call: git, and the journal
    for a submodule it cannot list. *)
Definition enumeration_event (ev : event) : Prop :=
  match ev with
  | Git _ _ | JournalAppend _ _ => True
  | _ => False
  end.

(** An entry of kind "content" whose vector is empty or absent. *)
Definition lacks_vector (e : entry) : Prop :=
  exists md, entry_metadata e = Some md
             /\ chunk_type md = Some "content"
             /\ (entry_values e = None \/ entry_values e = Some []).

Section RunVocabulary.

Variable w : World.
Variable wipe_first : bool.
Variables errors_out repo_name commit_sha : string.

(** The state in which the loop leaves a list of records. *)
Definition state_after (recs : list change) (s : sync_state) : sync_state :=
  fst (sync_loop w wipe_first errors_out repo_name commit_sha recs s).



End RunVocabulary.

(** The partial-failure scenario of the specification: three files, the
    second fails on embedding. *)
Definition three_records : list change :=
  [("A", JStr "one.py"); ("A", JStr "two.py"); ("A", JStr "three.py")].

(** No character of [s] is [c]. *)
Definition free_of (c : ascii) (s : string) : bool :=
  forallb_chars (fun x => negb (Ascii.eqb x c)) s.

(** No character of [s] is whitespace. *)
Definition no_space (s : string) : bool :=
  forallb_chars (fun x => negb (isspace x)) s.

(** Every character of [s] is whitespace. *)
Definition all_space (s : string) : bool := forallb_chars isspace s.

Section BudgetVocabulary.

Variable tokenizer : option (string -> nat).
Variable max_tokens : nat.

Definition within_limit (chunk : string) : Prop :=
  Budget.count_tokens tokenizer chunk <= max_tokens.

(** The character window of the last resort is never worth more tokens
    than the limit. *)
Definition window_fits : Prop :=
  forall s : string,
    String.length s <= Regex.CHAR_WINDOW -> within_limit s.

End BudgetVocabulary.

(** A tokenizer that needs three tokens for every character. *)
Definition three_per_char (s : string) : nat := 3 * String.length s.

(** A word of 3001 letters: longer than the window, no whitespace. *)
Definition long_word : string := repeat_char "a" 3001.

(* ================================================================== *)
(** * Vocabulary of the further properties *)
(* ================================================================== *)

(** A chunk that is not empty and has no whitespace at either end. *)
Definition clean (chunk : string) : Prop :=
  is_empty chunk = false /\ strip chunk = chunk.

(** The first character of [s] exists and is not whitespace. *)
Definition starts_with_text (s : string) : Prop :=
  match s with
  | String c _ => isspace c = false
  | EmptyString => False
  end.

(** What is still to be flushed from [current_chunk]. *)
Definition pending (current_chunk : string) : list string :=
  if truthy current_chunk then [current_chunk] else [].

(** A status that still carries git's rename code. *)
Definition rename_status (rec : change) : bool := startswith "R" (fst rec).

(** What the resolution of a commit range may call: git, and the journal
    of the submodule failures. *)
Definition range_event (ev : event) : Prop :=
  match ev with
  | Git _ _ => True
  | JournalAppend path rec =>
      path = SUBMODULE_ERRORS /\ err_operation rec = "diff-submodule"
  | _ => False
  end.

(** A superproject whose listing names one file twice, once with a
    backslash; no submodules. *)
Definition messy_git (args : list string) : string + string :=
  match args with
  | ["ls-files"] =>
      inr ("src\a.py" ++ newline ++ "src/a.py" ++ newline ++ "b.py" ++ newline)%string
  | _ => inr ""
  end.

Definition messy_world : World :=
  sample_world keys_present (fun _ => Absent) messy_git no_json
               (fun _ => None) (fun _ => None) one_chunk.

(** One file changed in the superproject and the pointer of the
    submodule [team] moved; git cannot be run inside [team]. *)
Definition broken_submodule_git (args : list string) : string + string :=
  match args with
  | "diff" :: "--name-status" :: _ => inr ("M" ++ tab ++ "a.py" ++ newline)%string
  | "diff" :: "--submodule=short" :: _ =>
      inr ("Submodule team 1234567..89abcde:" ++ newline)%string
  | _ => inl "fatal: not a git repository"
  end.

Definition broken_submodule_world : World :=
  sample_world keys_present
               (fun p => if String.eqb p "./team" then Directory else Absent)
               broken_submodule_git no_json
               (fun _ => None) (fun _ => None) one_chunk.

(** Every call but the wipe of the whole namespace. *)
Definition no_wipe (ev : event) : Prop :=
  match ev with StoreDeleteAll => False | _ => True end.

(** The entries that the calls of a trace sent to the store. *)
Definition sent (t : trace) : list entry :=
  flat_map (fun ev => match ev with StoreUpsert batch => batch | _ => [] end) t.

(** Between two states: the ids reported since are ids of entries sent
    to the store since, and no more chunks are counted than were sent. *)
Definition reported (s s' : sync_state) : Prop :=
  exists new ids,
    calls s' = calls s ++ new
    /\ upserted_ids s' = upserted_ids s ++ ids
    /\ incl ids (batch_ids (sent new))
    /\ total_upserted s <= total_upserted s'
    /\ total_upserted s' - total_upserted s <= List.length (sent new).

(** [a.py] is on disk and the store refuses every filtered delete. *)
Definition outage_world : World :=
  sample_world keys_present
               (fun p => if String.eqb p "a.py" then RegularFile else Absent)
               silent_git no_json
               (fun _ => Some "503 Service Unavailable")
               (fun _ => None) one_chunk.

(* ================================================================== *)
(** * Embedding, line ranges and chunking of one file *)
(* ================================================================== *)

(** [str(n)] for a natural number. *)
Definition str_nat (n : nat) : string :=
  DecimalString.NilZero.string_of_uint (Nat.to_uint n).

(** [enumerate(l)]. *)
Definition enumerate {A : Type} (l : list A) : list (nat * A) :=
  combine (seq 0 (List.length l)) l.

(** [s.count(c)] for a one-character [c]. *)
Fixpoint count_char (c : ascii) (s : string) : nat :=
  match s with
  | EmptyString => 0
  | String x s' => (if Ascii.eqb x c then 1 else 0) + count_char c s'
  end.

(** [s.lstrip('.')]. *)
Fixpoint lstrip_dots (s : string) : string :=
  match s with
  | String c s' => if Ascii.eqb c "."%char then lstrip_dots s' else s
  | EmptyString => EmptyString
  end.

Definition DIMENSION : nat := 1024.

Definition BINARY_EXTS : list string :=
  [".png"; ".jpg"; ".jpeg"; ".gif"; ".webp"; ".bmp"; ".tiff"; ".ico";
   ".psd"; ".pdf"; ".zip"; ".gz"; ".tar"; ".7z"; ".mp3"; ".mp4"; ".mov";
   ".avi"; ".wav"; ".woff"; ".woff2"; ".ttf"; ".eot"].

Definition SUMMARY_ONLY_BASENAMES : list string :=
  ["pnpm-lock.yaml"; "yarn.lock"; "package-lock.json"; "npm-shrinkwrap.json";
   "cargo.lock"; "poetry.lock"; "pipfile.lock"; "gemfile.lock";
   "composer.lock"].

(** [v != v or v == float("inf") or v == float("-inf")]. *)
Definition is_nan_or_inf (v : float) : bool :=
  negb (PrimFloat.eqb v v)
  || PrimFloat.eqb v PrimFloat.infinity
  || PrimFloat.eqb v PrimFloat.neg_infinity.

(** The two loops of [get_accurate_line_range] over the lines of the
    file; a range is (start_line, end_line).  No operation inside its
    [try] raises on strings, so the [except] branch is left out. *)
Definition line_range (chunk full_text : string) : nat * nat :=
  if negb (truthy full_text) || negb (truthy chunk) then (1, 1)
  else
    let chunk_clean := strip chunk in
    if negb (truthy chunk_clean) then (1, 1)
    else
      let full_lines := split_sep LF None full_text in
      let chunk_lines := split_sep LF None chunk_clean in
      let first_chunk_line := strip (nth 0 chunk_lines "") in
      if negb (truthy first_chunk_line) then (1, 1)
      else
        match find (fun il => contains first_chunk_line (strip (snd il))
                              || contains (strip (snd il)) first_chunk_line)
                   (enumerate full_lines) with
        | Some (i, _) =>
            let start_line := i + 1 in
            (start_line, start_line + List.length chunk_lines - 1)
        | None =>
            match find (fun il => (10 <? String.length (strip (snd il)))
                                  && contains (strip (snd il)) chunk)
                       (enumerate full_lines) with
            | Some (i, _) =>
                let start_line := i + 1 in
                let chunk_line_count := count_char LF chunk + 1 in
                (start_line, start_line + chunk_line_count - 1)
            | None => (1, 1)
            end
        end.

Definition get_accurate_line_range (chunk full_text : string) : string :=
  let '(start_line, end_line) := line_range chunk full_text in
  ("L" ++ str_nat start_line ++ "-L" ++ str_nat end_line)%string.

(** The metadata of a chunk entry, and the entry, as [process_file]
    builds them. *)
Record chunk_metadata : Type := mkChunkMetadata {
  m_repo_name : string;
  m_file_path : string;
  m_file_type : string;
  m_chunk_type : string;
  m_chunk_index : nat;
  m_chunk_id : string;
  m_content : string;
  m_line_range : string;
  m_embedded : bool;
  m_should_embed : bool;
  m_status : string;
  m_token_count : nat;
  m_commit_sha : string;
  m_indexed_at : string
}.

Record chunk_entry : Type := mkChunkEntry {
  ce_id : string;
  ce_values : list float;
  ce_metadata : chunk_metadata
}.

(** What the gateway and the executor read back from a chunk entry. *)
Definition to_entry (c : chunk_entry) : entry :=
  mkEntry (Some (ce_id c)) (Some (ce_values c))
          (Some (mkMetadata (Some (m_chunk_type (ce_metadata c)))
                            (Some (m_file_path (ce_metadata c))))).

(** What the chunking of a file takes from outside.  A call that can
    fail answers [inl msg], [msg] being [str(e)]; the file tree does
    not change while a file is processed. *)
Record Services : Type := mkServices {
  tokenizer : option (string -> nat);
  path_str : string -> string;           (* str(Path(p)) *)
  path_name : string -> string;          (* Path(p).name *)
  path_suffix : string -> string;        (* Path(p).suffix *)
  upper_text : string -> string;         (* s.upper() *)
  on_disk : string -> bool;              (* Path(p).exists() *)
  first_line : string -> option string;  (* open(p).readline(); None: raised *)
  head_lines : string -> string + string;       (* the first 20 lines, joined *)
  stat_size : string -> string + (string * bool);
                     (* size in MB printed with two decimals; size_mb < 1 *)
  file_text : string -> string + string; (* Path(p).read_text(..) *)
  chunk_file : string -> string + list string;  (* chunker.chunk_file(p) *)
  get_text_embedding : string -> string + list float;
  uuid4 : nat -> string;                 (* str(uuid.uuid4()), n-th draw *)
  utcnow : nat -> string                 (* utcnow().isoformat(), n-th reading *)
}.

Module Indexer.

Section WithServices.

Variable sv : Services.

Definition count_tokens : string -> nat := Budget.count_tokens (tokenizer sv).

Definition re_chunk_if_oversize (sections : list string) : list string :=
  Budget.re_chunk_if_oversize (tokenizer sv) sections Budget.MAX_TOKENS.

(** The checks made on what the embedding service returned. *)
Definition checked_embedding (embedding : list float) : string + list float :=
  match embedding with
  | [] => inl "Received empty embedding from API"
  | _ :: _ =>
      if negb (List.length embedding =? DIMENSION) then
        inl ("Unexpected embedding dimension: got "
               ++ str_nat (List.length embedding)
               ++ ", expected " ++ str_nat DIMENSION)%string
      else if existsb is_nan_or_inf embedding then
        inl "Embedding contains NaN/inf values"
      else inr embedding
  end.

Definition get_embedding (text : string) : string + list float :=
  if negb (truthy text) || negb (truthy (strip text)) then
    inl "Empty text provided for embedding"
  else
    match match get_text_embedding sv text with
          | inl e => inl e
          | inr embedding => checked_embedding embedding
          end with
    | inl e => inl ("Embedding failed: " ++ e)%string
    | inr embedding => inr embedding
    end.

Definition detect_file_type (filepath : string) : string :=
  let ext := lower (path_suffix sv filepath) in
  if (is_empty ext || mem ext [".sh"]) && on_disk sv filepath then
    match first_line sv filepath with
    | Some line =>
        let first_line := strip line in
        if startswith "#!" first_line then
          if contains "python" first_line then "python"
          else if existsb (fun shell => contains shell first_line)
                          ["bash"; "sh"; "zsh"]
          then "bash"
          else lstrip_dots ext
        else lstrip_dots ext
    | None => lstrip_dots ext
    end
  else lstrip_dots ext.

Definition chunk_csv_tsv (filepath : string) : list string :=
  match head_lines sv filepath with
  | inr content =>
      re_chunk_if_oversize
        [("CSV/TSV File: " ++ path_name sv filepath ++ newline
          ++ "First 20 lines preview:" ++ newline
          ++ content ++ newline)%string]
  | inl e =>
      [("Error reading CSV " ++ path_str sv filepath ++ ": " ++ e)%string]
  end.

Definition chunk_as_summary (filepath : string) : list string :=
  let file_type := detect_file_type (path_str sv filepath) in
  match stat_size sv filepath with
  | inr (size_text, under_one_mb) =>
      let summary :=
        (upper_text sv file_type ++ " file: " ++ path_name sv filepath ++ newline
         ++ "Path: " ++ path_str sv filepath ++ newline
         ++ "Size: " ++ size_text ++ " MB" ++ newline
         ++ "Type: " ++ file_type ++ newline)%string in
      let summary :=
        if under_one_mb && mem file_type ["txt"; "log"; "conf"; "ini"; "cfg"]
        then
          match file_text sv filepath with
          | inr text =>
              (summary ++ newline ++ "Preview:" ++ newline
               ++ Regex.take 500 text ++ "...")%string
          | inl _ => summary
          end
        else summary in
      re_chunk_if_oversize [summary]
  | inl e =>
      [("Error accessing " ++ path_str sv filepath ++ ": " ++ e)%string]
  end.

(** (chunks, should_embed, chunk_type). *)
Definition dispatch_chunking (filepath : string)
  : list string * bool * string :=
  let ext := lower (path_suffix sv filepath) in
  if mem (lower (path_name sv filepath)) SUMMARY_ONLY_BASENAMES then
    (chunk_as_summary filepath, true, "summary")
  else if mem ext BINARY_EXTS then
    (chunk_as_summary filepath, true, "summary")
  else if mem ext [".csv"; ".tsv"] then
    (chunk_csv_tsv filepath, true, "summary")
  else
    match chunk_file sv (path_str sv filepath) with
    | inr (c :: cs) => (re_chunk_if_oversize (c :: cs), true, "content")
    | _ => (chunk_as_summary filepath, true, "summary")
    end.

(** One turn of the loop over [enumerate(chunks)]; [inl] once
    [get_embedding] has raised. *)
Definition add_chunk_entry (filepath status repo_name commit_sha : string)
           (should_embed : bool) (chunk_type full_text : string)
           (acc : string + list chunk_entry) (ic : nat * string)
  : string + list chunk_entry :=
  match acc with
  | inl e => inl e
  | inr chunk_entries =>
      let '(i, chunk) := ic in
      if negb (truthy chunk) || negb (truthy (strip chunk))
      then inr chunk_entries
      else
        let chunk_id := uuid4 sv (List.length chunk_entries) in
        match (if should_embed
                  && (count_tokens chunk <=? Budget.MAX_TOKENS)
               then get_embedding chunk else inr []) with
        | inl e => inl e
        | inr vector =>
            inr (chunk_entries ++
                 [mkChunkEntry chunk_id vector
                    (mkChunkMetadata
                       repo_name filepath (detect_file_type filepath)
                       chunk_type i chunk_id chunk
                       (get_accurate_line_range chunk full_text)
                       (match vector with [] => false | _ :: _ => true end)
                       should_embed status (count_tokens chunk) commit_sha
                       (utcnow sv (List.length chunk_entries) ++ "Z")%string)])
        end
  end.

(** [inl] is the exception that [process_file] raises again. *)
Definition process_file (filepath status repo_name commit_sha : string)
  : string + list chunk_entry :=
  if negb (on_disk sv filepath) then inr []
  else
    let '(chunks, should_embed, chunk_type) := dispatch_chunking filepath in
    let full_text :=
      if String.eqb chunk_type "content"
      then match file_text sv filepath with
           | inr text => text
           | inl _ => EmptyString
           end
      else EmptyString in
    fold_left (add_chunk_entry filepath status repo_name commit_sha
                               should_embed chunk_type full_text)
              (enumerate chunks) (inr []).

End WithServices.

End Indexer.

(** A file type is known from its extension; the embedding service
    answers with the same vector for every text. *)
Definition plain_services (embedding : list float) : Services :=
  mkServices None (fun p => p) (fun p => p)
             (fun p => if String.eqb p "notes.md" then ".md" else "")
             (fun s => upper s)
             (fun p => String.eqb p "notes.md")
             (fun _ => None) (fun _ => inl "No such file or directory")
             (fun _ => inl "No such file or directory")
             (fun _ => inr ("# Notes" ++ newline ++ newline ++ "Body text.")%string)
             (fun _ => inr ["# Notes"; "Body text."])
             (fun _ => inr embedding)
             (fun n => ("uuid-" ++ str_nat n)%string)
             (fun _ => "2024-01-01T00:00:00").

Definition unit_vector : list float := repeat 1%float DIMENSION.

(** A chunk that [process_file] does not pass over. *)
Definition nonblank (chunk : string) : Prop :=
  truthy chunk = true /\ truthy (strip chunk) = true.

(** A number that is neither NaN nor infinite. *)
Definition finite (v : float) : Prop := is_nan_or_inf v = false.

(** The vector of a chunk entry, given the number of tokens of its
    content: a full, finite embedding within the limit, none above. *)
Definition vector_by_token_count (c : chunk_entry) : Prop :=
  let md := ce_metadata c in
  if m_token_count md <=? Budget.MAX_TOKENS
  then List.length (ce_values c) = DIMENSION /\ Forall finite (ce_values c)
       /\ m_embedded md = true
  else ce_values c = [] /\ m_embedded md = false.

(** The same services with a tokenizer for which one chunk of
    [notes.md] is far over the limit. *)
Definition over_limit_services : Services :=
  mkServices (Some (fun s => if String.eqb s "Body text." then 9000 else 1))
             (fun p => p) (fun p => p)
             (fun p => if String.eqb p "notes.md" then ".md" else "")
             (fun s => upper s)
             (fun p => String.eqb p "notes.md")
             (fun _ => None) (fun _ => inl "No such file or directory")
             (fun _ => inl "No such file or directory")
             (fun _ => inr ("# Notes" ++ newline ++ newline ++ "Body text.")%string)
             (fun _ => inr ["# Notes"; "Body text."])
             (fun _ => inr unit_vector)
             (fun n => ("uuid-" ++ str_nat n)%string)
             (fun _ => "2024-01-01T00:00:00").

(** The entries of [notes.md] under these services. *)
Definition entries_of (sv : Services) : list chunk_entry :=
  match Indexer.process_file sv "notes.md" "A" "repo" "sha" with
  | inr chunk_entries => chunk_entries
  | inl _ => []
  end.

(* ================================================================== *)
(** * Commit range of a GitHub Actions run *)
(* ================================================================== *)

(** What [detect_github_commit_range] takes from outside. *)
Record Runner : Type := mkRunner {
  runner_env : string -> option string;     (* os.environ.get *)
  event_file_exists : string -> bool;       (* os.path.exists *)
  load_event : string -> string + json;     (* open and json.load; inl: raised *)
  format_value : json -> string             (* str(v) for v that is no str *)
}.

Module GithubEvent.

Definition NULL_SHA : string := "0000000000000000000000000000000000000000".

(** [type(v).__name__]. *)
Definition type_name (v : json) : string :=
  match v with
  | JNull => "NoneType"
  | JBool _ => "bool"
  | JInt _ => "int"
  | JFloat _ => "float"
  | JStr _ => "str"
  | JArr _ => "list"
  | JObj _ => "dict"
  end.

(** [v.get(key, default)]: an AttributeError when [v] is no dict. *)
Definition get (v : json) (key : string) (default : json) : string + json :=
  match v with
  | JObj members =>
      inr (match dict_get key members with Some x => x | None => default end)
  | _ => inl ("'" ++ type_name v ++ "' object has no attribute 'get'")%string
  end.

(** [a or b]. *)
Definition or_else (a b : json) : json := if json_truthy a then a else b.

Definition and_then {A B : Type} (r : string + A) (k : A -> string + B)
  : string + B :=
  match r with
  | inl e => inl e
  | inr a => k a
  end.

Section WithRunner.

Variable r : Runner.

(** [f"{v}"]. *)
Definition text_of (v : json) : string :=
  match v with JStr s => s | _ => format_value r v end.

(** The branch on the event name: (base, head) as read from the event. *)
Definition read_range (event_name : option string) (github_sha event : json)
  : string + (json * json) :=
  match event_name with
  | Some name =>
      if String.eqb name "push" then
        and_then (get event "before" (JStr "")) (fun base =>
        and_then (if json_truthy github_sha then inr github_sha
                  else get event "after" (JStr "")) (fun head =>
        inr (base, head)))
      else if String.eqb name "pull_request" then
        and_then (get event "pull_request" (JObj [])) (fun pr =>
        and_then (get pr "base" (JObj [])) (fun pr_base =>
        and_then (get pr_base "sha" (JStr "")) (fun base =>
        and_then (get pr "merge_commit_sha" JNull) (fun merge =>
        inr (base, or_else merge (or_else github_sha (JStr "")))))))
      else
        inl ("Unsupported GitHub event type: " ++ name
             ++ ". Only 'push' and 'pull_request' events are supported. Use --from-commit for manual runs.")%string
  | None =>
      inl "Unsupported GitHub event type: None. Only 'push' and 'pull_request' events are supported. Use --from-commit for manual runs."
  end.

(** The handling of an empty tree or first commit, and of a missing head. *)
Definition close_range (base head : json) : string + (json * json) :=
  and_then
    (if negb (json_truthy base)
        || match base with JStr s => String.eqb s NULL_SHA | _ => false end
     then
       if json_truthy head then inr (JStr (text_of head ++ "^"))
       else inl "Cannot determine base commit: both base and head are missing from event data"
     else inr base)
    (fun base =>
       if negb (json_truthy head)
       then inl "Cannot determine head commit: missing from GitHub event data"
       else inr (base, head)).

Definition detect_github_commit_range : string + (json * json) :=
  let event_path := runner_env r "GITHUB_EVENT_PATH" in
  let event_name := runner_env r "GITHUB_EVENT_NAME" in
  let github_sha := match runner_env r "GITHUB_SHA" with
                    | Some sha => JStr sha
                    | None => JNull
                    end in
  if negb (opt_truthy event_path) then
    inl "GITHUB_EVENT_PATH not set. Cannot auto-detect commit range. Provide --from-commit or run in GitHub Actions environment."
  else
    let path := match event_path with Some p => p | None => EmptyString end in
    if negb (event_file_exists r path) then
      inl ("GitHub event file not found: " ++ path)%string
    else
      match load_event r path with
      | inl e => inl ("Failed to parse GitHub event file: " ++ e)%string
      | inr event =>
          and_then (read_range event_name github_sha event)
                   (fun range => close_range (fst range) (snd range))
      end.

End WithRunner.

End GithubEvent.

(** The first push of a branch: the event names the null commit as the
    one before. *)
Definition first_push_runner : Runner :=
  mkRunner (fun key => if String.eqb key "GITHUB_EVENT_PATH" then Some "event.json"
                       else if String.eqb key "GITHUB_EVENT_NAME" then Some "push"
                       else if String.eqb key "GITHUB_SHA" then Some "89abcde"
                       else None)
           (fun _ => true)
           (fun _ => inr (JObj [("before", JStr GithubEvent.NULL_SHA);
                                ("after", JStr "89abcde")]))
           (fun _ => "").


(** The four counters of the summary, added up. *)
Definition counted (s : sync_state) : nat :=
  processed s + skipped s + deleted_files s + errors s.

(** No counter of the summary goes down. *)
Definition counters_grow (s s' : sync_state) : Prop :=
  processed s <= processed s' /\ skipped s <= skipped s'
  /\ deleted_files s <= deleted_files s' /\ errors s <= errors s'.

(** The slices that the calls of a trace sent to the store. *)
Definition upserts (t : trace) : list (list entry) :=
  flat_map (fun ev => match ev with StoreUpsert batch => [batch] | _ => [] end) t.

(** A slice that passes the validation of [safe_upsert_batch]. *)
Definition valid_batch (batch : list entry) : bool :=
  match find empty_content batch with Some _ => false | None => true end.

(** A run inside GitHub Actions: the repository is named in the
    environment. *)
Definition tagged_world : World :=
  sample_world (fun key => if String.eqb key "GITHUB_REPOSITORY"
                           then Some "ModelEarth/codechat-fork"
                           else keys_present key)
               (fun _ => Absent) silent_git no_json
               (fun _ => None) (fun _ => None) one_chunk.

(** A commit id as git abbreviates it: seven or more hex digits. *)
Definition short_sha (sha : string) : Prop :=
  7 <= String.length sha /\ forallb_chars is_hex sha = true.

(** The calls that initialise the clients. *)
Definition init_event (ev : event) : Prop :=
  match ev with InitStore | InitModels => True | _ => False end.

(* ================================================================== *)
(** * Properties of the gateway *)
(* ================================================================== *)

(** Two laws of the monad, and the guards on a path whose kind is known. *)
Lemma bind_ret {S A B : Type} (a : A) (k : A -> M S B) :
  bind (ret a) k = k a.
Proof. reflexivity. Qed.

Lemma bind_raise {S A B : Type} (msg : string) (k : A -> M S B) :
  bind (raise msg) k = raise msg.
Proof. reflexivity. Qed.

Ltac run_guards :=
  repeat (progress (cbn [path_exists path_is_dir of_result negb];
                    rewrite ?bind_ret, ?bind_raise)).

Lemma empty_content_true (e : entry) :
  empty_content e = true <-> lacks_vector e.
Proof.
  unfold empty_content, lacks_vector. split.
  - destruct (entry_metadata e) as [md|]; [|discriminate].
    destruct (chunk_type md) as [ty|] eqn:Hty; [|discriminate].
    intros H. apply andb_true_iff in H as [Hc Hv].
    apply String.eqb_eq in Hc. subst ty.
    exists md. repeat split; auto.
    destruct (entry_values e) as [[|x xs]|]; auto; discriminate.
  - intros (md & Hmd & Hty & Hv). rewrite Hmd, Hty. simpl.
    destruct Hv as [-> | ->]; reflexivity.
Qed.

Lemma find_empty_content_none (batch : list entry) :
  find empty_content batch = None <-> ~ Exists lacks_vector batch.
Proof.
  induction batch as [|e rest IH]; simpl.
  - split; [intros _ H; inversion H | reflexivity].
  - destruct (empty_content e) eqn:He.
    + split; [discriminate|]. intros H. exfalso. apply H.
      constructor. now apply empty_content_true.
    + rewrite IH. split.
      * intros Hn H. inversion H; subst; [|contradiction].
        apply empty_content_true in H1. congruence.
      * intros Hn H. apply Hn. now constructor 2.
Qed.

(** C3.  [safe_upsert_batch] on a batch holding a "content" entry with an
    empty or absent vector raises and calls nothing (the trace is left as
    it was); on any other batch it calls the store's upsert once, with the
    whole batch, and returns the batch's length when the store accepts it
    (an exception of the store itself is passed on). *)
Theorem C3_upsert_validates_before_calling_the_store :
  forall (w : World) (batch : list entry) (repo_name : string) (t : trace),
    (Exists lacks_vector batch ->
     exists msg, safe_upsert_batch w batch repo_name t = (t, Raise msg))
    /\
    (~ Exists lacks_vector batch ->
     safe_upsert_batch w batch repo_name t
     = (t ++ [StoreUpsert batch],
        match index_upsert w t batch with
        | None => Ok (List.length batch)
        | Some msg => Raise msg
        end)).
Proof.
  intros w batch repo_name t. unfold safe_upsert_batch. split.
  - intros Hbad.
    destruct (find empty_content batch) as [e|] eqn:Hfind.
    + eexists. reflexivity.
    + apply find_empty_content_none in Hfind. contradiction.
  - intros Hgood. apply find_empty_content_none in Hgood. rewrite Hgood.
    unfold bind, call, unit_answer, ret.
    destruct (index_upsert w t batch); reflexivity.
Qed.

Lemma C3_witness :
  (exists msg,
      safe_upsert_batch three_files_world
        [content_entry "u1" "a.py" [1%float]; content_entry "u2" "a.py" []]
        "repo" []
      = ([], Raise msg))
  /\ safe_upsert_batch three_files_world
       [content_entry "u1" "a.py" [1%float]; summary_entry "u2" "b.png"]
       "repo" []
     = ([StoreUpsert [content_entry "u1" "a.py" [1%float];
                      summary_entry "u2" "b.png"]], Ok 2).
Proof.
  split.
  - apply (proj1 (C3_upsert_validates_before_calling_the_store
                    three_files_world _ "repo" [])).
    constructor 2. constructor.
    eexists. split; [reflexivity | split; [reflexivity | right; reflexivity]].
  - apply (proj2 (C3_upsert_validates_before_calling_the_store
                    three_files_world
                    [content_entry "u1" "a.py" [1%float]; summary_entry "u2" "b.png"]
                    "repo" [])).
    apply find_empty_content_none. reflexivity.
Defined.

(* ================================================================== *)
(** * Reasoning about effects *)
(* ================================================================== *)

Section Keeps.

Context {S : Type}.
Variable rel : S -> S -> Prop.
Hypothesis rel_refl : forall s, rel s s.
Hypothesis rel_trans : forall a b c, rel a b -> rel b c -> rel a c.

Lemma keeps_ret {A : Type} (a : A) : keeps rel (ret a).
Proof. intros s. apply rel_refl. Qed.

Lemma keeps_raise {A : Type} (msg : string) : keeps rel (@raise S A msg).
Proof. intros s. apply rel_refl. Qed.

Lemma keeps_of_result {A : Type} (r : string + A) : keeps rel (of_result r).
Proof. destruct r; intros st; apply rel_refl. Qed.

Lemma keeps_sys_exit {A : Type} (code : nat) : keeps rel (@sys_exit S A code).
Proof. intros s. apply rel_refl. Qed.

Lemma keeps_modify (f : S -> S) :
  (forall s, rel s (f s)) -> keeps rel (modify f).
Proof. intros H s. apply H. Qed.

Lemma keeps_bind {A B : Type} (m : M S A) (k : A -> M S B) :
  keeps rel m -> (forall a, keeps rel (k a)) -> keeps rel (bind m k).
Proof.
  intros Hm Hk s. unfold bind. specialize (Hm s).
  destruct (m s) as [s1 [a|msg|code]]; simpl in *; auto.
  eapply rel_trans; [exact Hm | apply Hk].
Qed.

Lemma keeps_try_except {A : Type} (m : M S A) (h : string -> M S A) :
  keeps rel m -> (forall e, keeps rel (h e)) -> keeps rel (try_except m h).
Proof.
  intros Hm Hh s. unfold try_except. specialize (Hm s).
  destruct (m s) as [s1 [a|msg|code]]; simpl in *; auto.
  eapply rel_trans; [exact Hm | apply Hh].
Qed.

Lemma keeps_for_each {A : Type} (body : A -> M S unit) (xs : list A) :
  (forall x, keeps rel (body x)) -> keeps rel (for_each body xs).
Proof.
  intros Hb. induction xs as [|x rest IH]; simpl.
  - apply keeps_ret.
  - apply keeps_bind; auto.
Qed.

Lemma keeps_if {A : Type} (b : bool) (m1 m2 : M S A) :
  keeps rel m1 -> keeps rel m2 -> keeps rel (if b then m1 else m2).
Proof. destruct b; auto. Qed.

End Keeps.

Lemma no_exit_ret {S A : Type} (a : A) : no_exit (@ret S A a).
Proof. intros s c; discriminate. Qed.

Lemma no_exit_raise {S A : Type} (msg : string) : no_exit (@raise S A msg).
Proof. intros s c; discriminate. Qed.

Lemma no_exit_modify {S : Type} (f : S -> S) : no_exit (modify f).
Proof. intros s c; discriminate. Qed.

Lemma no_exit_bind {S A B : Type} (m : M S A) (k : A -> M S B) :
  no_exit m -> (forall a, no_exit (k a)) -> no_exit (bind m k).
Proof.
  intros Hm Hk s c. unfold bind. specialize (Hm s).
  destruct (m s) as [s1 [a|msg|code]]; simpl in *.
  - apply Hk.
  - discriminate.
  - exfalso. now apply (Hm code).
Qed.

Lemma no_exit_try_except {S A : Type} (m : M S A) (h : string -> M S A) :
  no_exit m -> (forall e, no_exit (h e)) -> no_exit (try_except m h).
Proof.
  intros Hm Hh s c. unfold try_except. specialize (Hm s).
  destruct (m s) as [s1 [a|msg|code]]; simpl in *.
  - discriminate.
  - apply Hh.
  - exfalso. now apply (Hm code).
Qed.

Lemma no_exit_for_each {S A : Type} (body : A -> M S unit) (xs : list A) :
  (forall x, no_exit (body x)) -> no_exit (for_each body xs).
Proof.
  intros Hb. induction xs as [|x rest IH]; simpl.
  - apply no_exit_ret.
  - apply no_exit_bind; auto.
Qed.

Lemma no_exit_call {A : Type} (ev : event) (answer : trace -> string + A) :
  no_exit (call ev answer).
Proof. intros t c. unfold call. destruct (answer t); discriminate. Qed.

Lemma no_exit_lift {A : Type} (m : W A) : no_exit m -> no_exit (lift m).
Proof.
  intros Hm s c. unfold lift. specialize (Hm (calls s) c).
  destruct (m (calls s)) as [t r]. exact Hm.
Qed.

Lemma total_bind {S A B : Type} (m : M S A) (k : A -> M S B) :
  total m -> (forall a, total (k a)) -> total (bind m k).
Proof.
  intros Hm Hk s. unfold bind. destruct (Hm s) as [a Ha].
  destruct (m s) as [s1 r]. simpl in Ha. subst r. apply Hk.
Qed.

Lemma total_try_except {S A : Type} (m : M S A) (h : string -> M S A) :
  no_exit m -> (forall e, total (h e)) -> total (try_except m h).
Proof.
  intros Hm Hh s. unfold try_except. specialize (Hm s).
  destruct (m s) as [s1 [a|msg|code]]; simpl in *.
  - now exists a.
  - apply Hh.
  - exfalso. now apply (Hm code).
Qed.

Lemma total_for_each {S A : Type} (body : A -> M S unit) (xs : list A) :
  (forall x, total (body x)) -> total (for_each body xs).
Proof.
  intros Hb. induction xs as [|x rest IH]; simpl.
  - intros s. now exists tt.
  - apply total_bind; auto.
Qed.


(* ================================================================== *)
(** * Properties of the sync executor *)
(* ================================================================== *)

Lemma emits_refl (P : event -> Prop) (t : trace) : emits P t t.
Proof. exists []. split; [now rewrite app_nil_r | constructor]. Qed.

Lemma emits_trans (P : event -> Prop) (a b c : trace) :
  emits P a b -> emits P b c -> emits P a c.
Proof.
  intros (n1 & -> & H1) (n2 & -> & H2). exists (n1 ++ n2).
  split; [now rewrite app_assoc | now apply Forall_app].
Qed.

Lemma emits_in_refl (P : event -> Prop) (s : sync_state) : emits_in P s s.
Proof. apply emits_refl. Qed.

Lemma emits_in_trans (P : event -> Prop) (a b c : sync_state) :
  emits_in P a b -> emits_in P b c -> emits_in P a c.
Proof. apply emits_trans. Qed.

Lemma emits_in_same_calls (P : event -> Prop) (s s' : sync_state) :
  calls s' = calls s -> emits_in P s s'.
Proof. intros H. unfold emits_in. rewrite H. apply emits_refl. Qed.

Lemma accounted_refl (s : sync_state) : accounted s s.
Proof. exists []. split; [now rewrite app_nil_r | simpl; lia]. Qed.

Lemma accounted_trans (a b c : sync_state) :
  accounted a b -> accounted b c -> accounted a c.
Proof.
  intros (n1 & F1 & E1) (n2 & F2 & E2). exists (n1 ++ n2). split.
  - now rewrite F2, F1, app_assoc.
  - rewrite E2, E1, length_app. lia.
Qed.

Section ExecutorFacts.

Variable w : World.
Variable P : event -> Prop.

Lemma keeps_call {A : Type} (ev : event) (answer : trace -> string + A) :
  P ev -> keeps (emits P) (call ev answer).
Proof.
  intros Hev t. unfold call.
  destruct (answer t); simpl; exists [ev]; split; auto.
Qed.

Lemma keeps_append_error (path : string) (fp : json) (op msg : string)
      (status : option string) :
  (forall p r, P (JournalAppend p r)) ->
  keeps (emits P) (append_error path fp op msg status).
Proof.
  intros HP t. unfold append_error. simpl. eexists. split; [reflexivity|].
  constructor; [apply HP | constructor].
Qed.

Lemma keeps_lift {A : Type} (m : W A) :
  keeps (emits P) m -> keeps (emits_in P) (lift m).
Proof.
  intros Hm s. unfold lift, emits_in. specialize (Hm (calls s)).
  destruct (m (calls s)) as [t r]. exact Hm.
Qed.

Lemma keeps_safe_upsert_batch (batch : list entry) (repo_name : string) :
  (forall b, P (StoreUpsert b)) ->
  keeps (emits P) (safe_upsert_batch w batch repo_name).
Proof.
  intros HP. unfold safe_upsert_batch.
  destruct (find empty_content batch).
  - apply keeps_raise, emits_refl.
  - apply keeps_bind; [apply emits_trans | now apply keeps_call |].
    intros _. apply keeps_ret, emits_refl.
Qed.

Lemma keeps_record_failure (errors_out : string) (fp : json)
      (op status msg : string) :
  (forall p r, P (JournalAppend p r)) ->
  keeps (emits_in P) (record_failure errors_out fp op status msg).
Proof.
  intros HP. unfold record_failure.
  repeat (apply keeps_bind; [apply emits_in_trans | | intros _]).
  - apply keeps_modify. intros s. now apply emits_in_same_calls.
  - apply keeps_modify. intros s. now apply emits_in_same_calls.
  - now apply keeps_lift, keeps_append_error.
Qed.

Lemma keeps_upsert_batch (errors_out repo_name status fp : string)
      (batch : list entry) :
  (forall p r, P (JournalAppend p r)) ->
  (forall b, P (StoreUpsert b)) ->
  keeps (emits_in P) (upsert_batch w errors_out repo_name status fp batch).
Proof.
  intros HJ HU. unfold upsert_batch.
  apply keeps_try_except; [apply emits_in_trans | |].
  - apply keeps_bind; [apply emits_in_trans | |].
    + now apply keeps_lift, keeps_safe_upsert_batch.
    + intros n. apply keeps_modify. intros s. now apply emits_in_same_calls.
  - intros e. now apply keeps_record_failure.
Qed.

Lemma keeps_chunk_and_upsert (errors_out repo_name commit_sha status fp : string) :
  (forall p r, P (JournalAppend p r)) ->
  (forall b, P (StoreUpsert b)) ->
  (forall p st, P (ProcessFile p st)) ->
  keeps (emits_in P) (chunk_and_upsert w errors_out repo_name commit_sha status fp).
Proof.
  intros HJ HU HF. unfold chunk_and_upsert.
  apply keeps_bind; [apply emits_in_trans | |].
  - now apply keeps_lift, keeps_call.
  - intros chunks. apply keeps_bind; [apply emits_in_trans | |].
    + apply keeps_for_each; [apply emits_in_refl | apply emits_in_trans |].
      intros b. now apply keeps_upsert_batch.
    + intros _. apply keeps_modify. intros s. now apply emits_in_same_calls.
Qed.

End ExecutorFacts.

Lemma try_except_bind {S A B : Type} (m : M S A) (k : A -> M S B)
      (h : string -> M S B) (s : S) :
  try_except (bind m k) h s
  = match m s with
    | (s1, Ok a) => try_except (k a) h s1
    | (s1, Raise e) => h e s1
    | (s1, Exit code) => (s1, Exit code)
    end.
Proof.
  unfold try_except, bind. destruct (m s) as [s1 [a|e|code]]; reflexivity.
Qed.

(** The pre-clean step: the call is logged; the counter moves when the
    store answers or reports that the namespace does not exist. *)
Lemma delete_step (w : World) (fp repo_name : string) (s : sync_state) :
  let s1 := set_calls (calls s ++ [StoreDelete repo_name fp]) s in
  bind (lift (safe_delete_vectors w fp repo_name)) (fun _ => modify incr_deleted) s
  = match index_delete w (calls s) repo_name fp with
    | None => (incr_deleted s1, Ok tt)
    | Some e => if namespace_absent e then (incr_deleted s1, Ok tt)
                else (s1, Raise e)
    end.
Proof.
  unfold bind, lift, safe_delete_vectors, try_except, call, unit_answer.
  destruct (index_delete w (calls s) repo_name fp) as [e|]; simpl; auto.
  destruct (namespace_absent e); reflexivity.
Qed.

Section RecordFacts.

Variable w : World.
Variables errors_out repo_name commit_sha : string.

Lemma not_store_delete_journal (p : string) (r : error_record) :
  not_store_delete (JournalAppend p r).
Proof. exact I. Qed.

Lemma not_store_delete_upsert (b : list entry) : not_store_delete (StoreUpsert b).
Proof. exact I. Qed.

Lemma not_store_delete_process (p st : string) :
  not_store_delete (ProcessFile p st).
Proof. exact I. Qed.

(** The body of a turn for a file on disk whose status is not "D". *)
Lemma body_of_regular_file (wipe_first : bool) (status fp : string) :
  path_kind w fp = RegularFile ->
  String.eqb status "D" = false ->
  process_record_body w wipe_first errors_out repo_name commit_sha status (JStr fp)
  = bind (if mem status ["A"; "M"] && negb wipe_first
          then bind (lift (safe_delete_vectors w fp repo_name))
                    (fun _ => modify incr_deleted)
          else ret tt)
         (fun _ => chunk_and_upsert w errors_out repo_name commit_sha status fp).
Proof.
  intros Hk Hd. unfold process_record_body. rewrite Hk, Hd. reflexivity.
Qed.

Lemma keeps_turn_tail (status fp : string) :
  keeps (emits_in not_store_delete)
        (try_except
           (chunk_and_upsert w errors_out repo_name commit_sha status fp)
           (fun e => record_failure errors_out (JStr fp) "process" status e)).
Proof.
  apply keeps_try_except; [apply emits_in_trans | |].
  - apply keeps_chunk_and_upsert;
      auto using not_store_delete_journal, not_store_delete_upsert,
                 not_store_delete_process.
  - intros e. apply keeps_record_failure, not_store_delete_journal.
Qed.

End RecordFacts.

(* ------------------------------------------------------------------ *)
(** ** Failure isolation *)

Lemma accounted_same (s s' : sync_state) :
  failures s' = failures s -> errors s' = errors s -> accounted s s'.
Proof.
  intros F E. exists []. split; [now rewrite app_nil_r | simpl; lia].
Qed.

Lemma accounted_bind {A B : Type} (m : X A) (k : A -> X B) :
  keeps accounted m -> (forall a, keeps accounted (k a)) ->
  keeps accounted (bind m k).
Proof. apply keeps_bind, accounted_trans. Qed.

Lemma accounted_try_except {A : Type} (m : X A) (h : string -> X A) :
  keeps accounted m -> (forall e, keeps accounted (h e)) ->
  keeps accounted (try_except m h).
Proof. apply keeps_try_except, accounted_trans. Qed.

Lemma accounted_for_each {A : Type} (body : A -> X unit) (xs : list A) :
  (forall x, keeps accounted (body x)) -> keeps accounted (for_each body xs).
Proof. apply keeps_for_each; [apply accounted_refl | apply accounted_trans]. Qed.

Lemma accounted_ret {A : Type} (a : A) : keeps accounted (ret a).
Proof. apply keeps_ret, accounted_refl. Qed.

Lemma accounted_raise {A : Type} (msg : string) :
  keeps accounted (@raise sync_state A msg).
Proof. apply keeps_raise, accounted_refl. Qed.

Lemma accounted_lift {A : Type} (m : W A) : keeps accounted (lift m).
Proof.
  intros s. unfold lift. destruct (m (calls s)) as [t r].
  now apply accounted_same.
Qed.

Lemma accounted_incr_skipped : keeps accounted (modify incr_skipped).
Proof. intros s. now apply accounted_same. Qed.

Lemma accounted_incr_deleted : keeps accounted (modify incr_deleted).
Proof. intros s. now apply accounted_same. Qed.

Lemma accounted_incr_processed : keeps accounted (modify incr_processed).
Proof. intros s. now apply accounted_same. Qed.

Lemma accounted_add_upserted (n : nat) (ids : list string) :
  keeps accounted (modify (add_upserted n ids)).
Proof. intros s. now apply accounted_same. Qed.

Lemma record_failure_run (errors_out : string) (fp : json)
      (op status msg : string) (s : sync_state) :
  record_failure errors_out fp op status msg s
  = (mkState
       (calls s ++ [JournalAppend errors_out
                      (mkError fp op msg
                               (if truthy status then Some status else None))])
       (processed s) (S (errors s)) (skipped s)
       (failures s ++ [mkError fp op msg (Some status)])
       (deleted_files s) (upserted_ids s) (total_upserted s),
     Ok tt).
Proof. reflexivity. Qed.

Lemma accounted_record_failure (errors_out : string) (fp : json)
      (op status msg : string) :
  keeps accounted (record_failure errors_out fp op status msg).
Proof.
  intros s. rewrite record_failure_run. simpl.
  eexists. split; [reflexivity | simpl; lia].
Qed.

Create HintDb accounting.
#[local] Hint Resolve accounted_bind accounted_try_except accounted_for_each
  accounted_ret accounted_raise accounted_lift accounted_incr_skipped
  accounted_incr_deleted accounted_incr_processed accounted_add_upserted
  accounted_record_failure : accounting.

Create HintDb noexit.
#[local] Hint Resolve no_exit_bind no_exit_try_except no_exit_for_each
  no_exit_ret no_exit_raise no_exit_modify no_exit_call no_exit_lift : noexit.

Section Isolation.

Variable w : World.
Variable wipe_first : bool.
Variables errors_out repo_name commit_sha : string.

Lemma no_exit_append_error (path : string) (fp : json) (op msg : string)
      (status : option string) :
  no_exit (append_error path fp op msg status).
Proof. intros t c. discriminate. Qed.

Lemma no_exit_safe_delete_vectors (fp : string) :
  no_exit (safe_delete_vectors w fp repo_name).
Proof.
  unfold safe_delete_vectors. apply no_exit_try_except; auto with noexit.
  intros e. destruct (namespace_absent e); auto with noexit.
Qed.

Lemma no_exit_safe_upsert_batch (batch : list entry) :
  no_exit (safe_upsert_batch w batch repo_name).
Proof.
  unfold safe_upsert_batch. destruct (find empty_content batch);
    auto with noexit.
Qed.

Lemma no_exit_record_failure (fp : json) (op status msg : string) :
  no_exit (record_failure errors_out fp op status msg).
Proof. intros s c. rewrite record_failure_run. discriminate. Qed.

Lemma total_record_failure (fp : json) (op status msg : string) :
  total (record_failure errors_out fp op status msg).
Proof. intros s. rewrite record_failure_run. now exists tt. Qed.

Lemma no_exit_upsert_batch (status fp : string) (batch : list entry) :
  no_exit (upsert_batch w errors_out repo_name status fp batch).
Proof.
  unfold upsert_batch.
  apply no_exit_try_except;
    auto using no_exit_safe_upsert_batch, no_exit_record_failure with noexit.
Qed.

Lemma no_exit_chunk_and_upsert (status fp : string) :
  no_exit (chunk_and_upsert w errors_out repo_name commit_sha status fp).
Proof.
  unfold chunk_and_upsert. auto 8 using no_exit_upsert_batch with noexit.
Qed.

Lemma no_exit_body (status : string) (filepath : json) :
  no_exit (process_record_body w wipe_first errors_out repo_name commit_sha
                               status filepath).
Proof.
  unfold process_record_body.
  destruct filepath; auto with noexit.
  destruct (path_kind w s); run_guards;
    try solve [auto using no_exit_append_error with noexit];
    (destruct (String.eqb status "D");
     [solve [auto using no_exit_safe_delete_vectors with noexit]|]);
    run_guards; [solve [auto with noexit]|].
  apply no_exit_bind.
  - destruct (mem status ["A"; "M"] && negb wipe_first);
      auto using no_exit_safe_delete_vectors with noexit.
  - intros _. apply no_exit_chunk_and_upsert.
Qed.

Lemma accounted_upsert_batch (status fp : string) (batch : list entry) :
  keeps accounted (upsert_batch w errors_out repo_name status fp batch).
Proof. unfold upsert_batch. auto with accounting. Qed.

Lemma accounted_body (status : string) (filepath : json) :
  keeps accounted (process_record_body w wipe_first errors_out repo_name
                                       commit_sha status filepath).
Proof.
  unfold process_record_body, chunk_and_upsert.
  destruct filepath; auto with accounting.
  destruct (path_kind w s); run_guards;
    try solve [auto with accounting];
    (destruct (String.eqb status "D"); [solve [auto with accounting]|]);
    run_guards; [solve [auto with accounting]|].
  apply accounted_bind.
  - destruct (mem status ["A"; "M"] && negb wipe_first); auto with accounting.
  - intros _. auto 8 using accounted_upsert_batch with accounting.
Qed.

Lemma accounted_process_record (rec : change) :
  keeps accounted
        (process_record w wipe_first errors_out repo_name commit_sha rec).
Proof.
  destruct rec as [status filepath]. unfold process_record.
  auto using accounted_body with accounting.
Qed.

(** A turn of the loop always comes back, whatever its body did. *)
Lemma process_record_returns (rec : change) (s : sync_state) :
  exists s', process_record w wipe_first errors_out repo_name commit_sha rec s
             = (s', Ok tt).
Proof.
  destruct rec as [status filepath].
  assert (T : total (process_record w wipe_first errors_out repo_name
                                    commit_sha (status, filepath))).
  { unfold process_record. apply total_try_except.
    - apply no_exit_body.
    - intros e. apply total_record_failure. }
  destruct (T s) as [[] Ha].
  destruct (process_record w wipe_first errors_out repo_name commit_sha
                           (status, filepath) s) as [s' r].
  simpl in Ha. subst r. now exists s'.
Qed.

Lemma sync_loop_returns (recs : list change) (s : sync_state) :
  exists s', sync_loop w wipe_first errors_out repo_name commit_sha recs s
             = (s', Ok tt).
Proof.
  revert s. induction recs as [|rec rest IH]; intros s.
  - now exists s.
  - unfold sync_loop. simpl. unfold bind.
    destruct (process_record_returns rec s) as [s1 ->]. apply IH.
Qed.

Lemma accounted_sync_loop (recs : list change) :
  keeps accounted (sync_loop w wipe_first errors_out repo_name commit_sha recs).
Proof.
  unfold sync_loop. apply accounted_for_each. apply accounted_process_record.
Qed.

End Isolation.

Section ExitStatus.

Variable w : World.
Variable wipe_first : bool.
Variables errors_out repo_name commit_sha : string.

Lemma state_after_cons (rec : change) (rest : list change) (s : sync_state) :
  state_after w wipe_first errors_out repo_name commit_sha (rec :: rest) s
  = state_after w wipe_first errors_out repo_name commit_sha rest
      (fst (process_record w wipe_first errors_out repo_name commit_sha rec s)).
Proof.
  unfold state_after, sync_loop. simpl. unfold bind.
  destruct (process_record_returns w wipe_first errors_out repo_name
                                   commit_sha rec s) as [s1 ->].
  reflexivity.
Qed.



Lemma run_records_outcome (recs : list change) (s : sync_state) :
  let s3 := state_after w wipe_first errors_out repo_name commit_sha recs
                        (initial_state (calls s)) in
  run_records w wipe_first errors_out repo_name commit_sha recs s
  = (s3, match errors s3 with
         | O => Ok (mkResult DEFAULT_NAMESPACE repo_name (upserted_ids s3))
         | S _ => Exit 1
         end).
Proof.
  intros s3. unfold run_records, bind, modify.
  pose proof (accounted_sync_loop w wipe_first errors_out repo_name commit_sha
                recs (initial_state (calls s))) as (newf & F & E).
  fold (state_after w wipe_first errors_out repo_name commit_sha recs
                    (initial_state (calls s))) in F, E.
  fold s3 in F, E.
  destruct (sync_loop_returns w wipe_first errors_out repo_name commit_sha
              recs (initial_state (calls s))) as [s' Hs'].
  assert (s' = s3) by (unfold s3, state_after; now rewrite Hs'). subst s'.
  rewrite Hs'. unfold finish. simpl in F, E. rewrite F, E.
  destruct newf; reflexivity.
Qed.

End ExitStatus.

(* ------------------------------------------------------------------ *)
(** ** The trace of a run *)

Section TraceFacts.

Variable w : World.
Variable wipe_first : bool.
Variables errors_out repo_name commit_sha : string.

Lemma keeps_safe_delete_vectors (P : event -> Prop) (fp : string) :
  (forall r p, P (StoreDelete r p)) ->
  keeps (emits P) (safe_delete_vectors w fp repo_name).
Proof.
  intros HP. unfold safe_delete_vectors.
  apply keeps_try_except; [apply emits_trans | now apply keeps_call |].
  intros e. destruct (namespace_absent e);
    [apply keeps_ret | apply keeps_raise]; apply emits_refl.
Qed.

Lemma keeps_pre_clean (fp : string) :
  keeps (emits_in any_event)
        (bind (lift (safe_delete_vectors w fp repo_name))
              (fun _ => modify incr_deleted)).
Proof.
  apply keeps_bind; [apply emits_in_trans | |].
  - apply keeps_lift, keeps_safe_delete_vectors. intros r p. exact I.
  - intros _. apply keeps_modify. intros s. now apply emits_in_same_calls.
Qed.

Lemma calls_grow_in_turn (rec : change) :
  keeps (emits_in any_event)
        (process_record w wipe_first errors_out repo_name commit_sha rec).
Proof.
  destruct rec as [status filepath]. unfold process_record.
  apply keeps_try_except; [apply emits_in_trans | |].
  - unfold process_record_body.
    destruct filepath as [| | | |fp| |];
      try (apply keeps_raise, emits_in_refl).
    assert (Hskip : keeps (emits_in any_event)
                          (modify incr_skipped ;;
                           lift (append_error errors_out (JStr fp) "skip-dir"
                                   "Path is a directory; skipping"
                                   (Some status)))).
    { apply keeps_bind; [apply emits_in_trans | | intros _].
      - apply keeps_modify. intros s. now apply emits_in_same_calls.
      - apply keeps_lift, keeps_append_error. intros p r. exact I. }
    destruct (path_kind w fp); run_guards;
      try exact Hskip; try (apply keeps_raise, emits_in_refl);
      (destruct (String.eqb status "D"); [apply keeps_pre_clean|]);
      run_guards.
    { apply keeps_bind; [apply emits_in_trans | | intros _].
      - apply keeps_modify. intros s. now apply emits_in_same_calls.
      - apply keeps_raise, emits_in_refl. }
    apply keeps_bind; [apply emits_in_trans | | intros _].
    + destruct (mem status ["A"; "M"] && negb wipe_first);
        [apply keeps_pre_clean | apply keeps_ret, emits_in_refl].
    + apply keeps_chunk_and_upsert; intros; exact I.
  - intros e. apply keeps_record_failure. intros p r. exact I.
Qed.

Lemma calls_grow_in_loop (recs : list change) :
  keeps (emits_in any_event)
        (sync_loop w wipe_first errors_out repo_name commit_sha recs).
Proof.
  unfold sync_loop.
  apply keeps_for_each; [apply emits_in_refl | apply emits_in_trans |].
  apply calls_grow_in_turn.
Qed.

Lemma state_after_app (pre post : list change) (s : sync_state) :
  state_after w wipe_first errors_out repo_name commit_sha (pre ++ post) s
  = state_after w wipe_first errors_out repo_name commit_sha post
      (state_after w wipe_first errors_out repo_name commit_sha pre s).
Proof.
  revert s. induction pre as [|rec pre IH]; intros s.
  - reflexivity.
  - simpl. rewrite !state_after_cons. apply IH.
Qed.

(** What a turn has logged stays, in place, in the trace of the run. *)
Lemma calls_grow_after_turn (pre : list change) (rec : change)
      (post : list change) (s : sync_state) :
  exists later,
    calls (state_after w wipe_first errors_out repo_name commit_sha
                       (pre ++ rec :: post) s)
    = calls (fst (process_record w wipe_first errors_out repo_name commit_sha rec
                    (state_after w wipe_first errors_out repo_name commit_sha
                                 pre s)))
      ++ later.
Proof.
  rewrite state_after_app, state_after_cons.
  destruct (calls_grow_in_loop post
              (fst (process_record w wipe_first errors_out repo_name commit_sha
                      rec (state_after w wipe_first errors_out repo_name
                                       commit_sha pre s))))
    as (later & Hlater & _).
  now exists later.
Qed.

End TraceFacts.

(** One turn for an Add or Modify record on a regular file: without
    [wipe_first] the filtered delete is the first call of the turn and the
    only delete; with [wipe_first] the turn makes no delete. *)
Lemma turn_pre_delete (w : World)
      (errors_out repo_name commit_sha status fp : string) (s : sync_state) :
  (status = "A" \/ status = "M") ->
  path_kind w fp = RegularFile ->
  (exists rest,
      calls (fst (process_record w false errors_out repo_name commit_sha
                                 (status, JStr fp) s))
      = calls s ++ StoreDelete repo_name fp :: rest
      /\ Forall not_store_delete rest)
  /\
  (exists new,
      calls (fst (process_record w true errors_out repo_name commit_sha
                                 (status, JStr fp) s))
      = calls s ++ new
      /\ Forall not_store_delete new).
Proof.
  intros Hst Hk.
  assert (Hd : String.eqb status "D" = false)
    by (destruct Hst as [-> | ->]; reflexivity).
  assert (Hm : mem status ["A"; "M"] = true)
    by (destruct Hst as [-> | ->]; reflexivity).
  unfold process_record. split.
  - rewrite (body_of_regular_file w errors_out repo_name commit_sha false
                                  status fp Hk Hd), Hm.
    cbn [negb andb]. rewrite try_except_bind, delete_step.
    set (s1 := set_calls (calls s ++ [StoreDelete repo_name fp]) s).
    assert (Hok : exists rest,
               calls (fst (try_except
                             (chunk_and_upsert w errors_out repo_name commit_sha status fp)
                             (fun e => record_failure errors_out (JStr fp) "process" status e)
                             (incr_deleted s1)))
               = calls s ++ StoreDelete repo_name fp :: rest
               /\ Forall not_store_delete rest).
    { destruct (keeps_turn_tail w errors_out repo_name commit_sha status fp
                                (incr_deleted s1)) as (new & Hnew & Hall).
      exists new. split; [|exact Hall]. rewrite Hnew. simpl.
      now rewrite <- app_assoc. }
    destruct (index_delete w (calls s) repo_name fp) as [e|]; [|exact Hok].
    destruct (namespace_absent e); [exact Hok|].
    destruct (keeps_record_failure not_store_delete errors_out (JStr fp)
                "process" status e (fun p r => I) s1) as (new & Hnew & Hall).
    exists new. split; [|exact Hall]. rewrite Hnew. simpl.
    now rewrite <- app_assoc.
  - rewrite (body_of_regular_file w errors_out repo_name commit_sha true
                                  status fp Hk Hd), Hm.
    cbn [negb andb]. rewrite try_except_bind. unfold ret at 1.
    apply (keeps_turn_tail w errors_out repo_name commit_sha status fp s).
Qed.

(** C1.  In a run of the loop of [run_sync] over any records, take an Add
    or Modify record whose path is a regular file on disk, and the state
    [before] in which its turn starts.  Without [wipe_first] the trace of
    the run is the trace so far, then the filtered delete for
    [(repo_name, file_path)], then the rest of the turn (chunking,
    upserts, journal), then the later turns; the rest of the turn holds no
    other filtered delete.  With [wipe_first] (reindex-all) the events of
    the turn hold no filtered delete at all. *)
Theorem C1_pre_delete_unless_full_wipe :
  forall (w : World) (errors_out repo_name commit_sha status fp : string)
         (pre post : list change) (s : sync_state),
    (status = "A" \/ status = "M") ->
    path_kind w fp = RegularFile ->
    (let before := state_after w false errors_out repo_name commit_sha pre s in
     exists rest later,
       calls (fst (process_record w false errors_out repo_name commit_sha
                                  (status, JStr fp) before))
       = calls before ++ StoreDelete repo_name fp :: rest
       /\ Forall not_store_delete rest
       /\ calls (state_after w false errors_out repo_name commit_sha
                             (pre ++ (status, JStr fp) :: post) s)
          = calls before ++ StoreDelete repo_name fp :: rest ++ later)
    /\
    (let before := state_after w true errors_out repo_name commit_sha pre s in
     exists new later,
       calls (fst (process_record w true errors_out repo_name commit_sha
                                  (status, JStr fp) before))
       = calls before ++ new
       /\ Forall not_store_delete new
       /\ calls (state_after w true errors_out repo_name commit_sha
                             (pre ++ (status, JStr fp) :: post) s)
          = calls before ++ new ++ later).
Proof.
  intros w errors_out repo_name commit_sha status fp pre post s Hst Hk.
  split; intros before.
  - destruct (turn_pre_delete w errors_out repo_name commit_sha status fp
                              before Hst Hk) as [(rest & Hturn & Hrest) _].
    destruct (calls_grow_after_turn w false errors_out repo_name commit_sha
                pre (status, JStr fp) post s) as (later & Hlater).
    exists rest, later. repeat split; auto.
    etransitivity; [exact Hlater|]. fold before.
    rewrite Hturn, <- app_assoc. reflexivity.
  - destruct (turn_pre_delete w errors_out repo_name commit_sha status fp
                              before Hst Hk) as [_ (new & Hturn & Hnew)].
    destruct (calls_grow_after_turn w true errors_out repo_name commit_sha
                pre (status, JStr fp) post s) as (later & Hlater).
    exists new, later. repeat split; auto.
    etransitivity; [exact Hlater|]. fold before.
    rewrite Hturn, <- app_assoc. reflexivity.
Qed.

Lemma C1_witness :
  (exists rest later,
      calls (fst (process_record three_files_world false "errors.jsonl" "repo"
                                 "sha" ("M", JStr "one.py") (initial_state [])))
      = [] ++ StoreDelete "repo" "one.py" :: rest
      /\ Forall not_store_delete rest
      /\ calls (state_after three_files_world false "errors.jsonl" "repo" "sha"
                            ([] ++ ("M", JStr "one.py") :: [("A", JStr "three.py")])
                            (initial_state []))
         = [] ++ StoreDelete "repo" "one.py" :: rest ++ later)
  /\
  (exists new later,
      calls (fst (process_record three_files_world true "errors.jsonl" "repo"
                                 "sha" ("M", JStr "one.py") (initial_state [])))
      = [] ++ new
      /\ Forall not_store_delete new
      /\ calls (state_after three_files_world true "errors.jsonl" "repo" "sha"
                            ([] ++ ("M", JStr "one.py") :: [("A", JStr "three.py")])
                            (initial_state []))
         = [] ++ new ++ later).
Proof.
  apply (C1_pre_delete_unless_full_wipe three_files_world "errors.jsonl" "repo"
           "sha" "M" "one.py" [] [("A", JStr "three.py")] (initial_state [])).
  - right; reflexivity.
  - reflexivity.
Defined.

(** The turn of C1 on a concrete file: delete, then chunking, then upsert. *)
Example modify_turn_trace :
  calls (fst (process_record three_files_world false "errors.jsonl" "repo"
                             "sha" ("M", JStr "one.py") (initial_state [])))
  = [StoreDelete "repo" "one.py"; ProcessFile "one.py" "M";
     StoreUpsert [content_entry "id-one.py" "one.py" [1%float]]].
Proof. reflexivity. Qed.

(** C9 as stated fails on a path that is not on disk and that the file
    system cannot examine: for a name of 300 letters [exists()] raises
    at the first test of the turn, before [skipped] is touched.  The
    record is counted in [errors] alone, and the failure carries the
    message of the OSError, not the one of FileNotFoundError. *)
Lemma C9_unreadable_path_is_not_skipped :
  let r := process_record long_name_world false "errors.jsonl" "repo" "sha"
                          ("A", JStr long_name) (initial_state []) in
  skipped (fst r) = 0
  /\ errors (fst r) = 1
  /\ failures (fst r)
     = [mkError (JStr long_name) "process" long_name_error (Some "A")]
  /\ long_name_error <> not_found_message "A" long_name.
Proof. repeat split. discriminate. Qed.

(** C9, amended.  An Add or Modify record for whose path [exists()]
    answers that nothing is there is counted twice by its turn:
    [skipped] goes up, then the FileNotFoundError is caught at the
    record boundary, [errors] goes up, and an ErrorRecord with operation
    "process" is put in [failures] and in the journal.  Nothing else
    changes and the store is not called. *)
Theorem C9_missing_file_is_skipped_and_failed :
  forall (w : World) (wipe_first : bool)
         (errors_out repo_name commit_sha status fp : string) (s : sync_state),
    (status = "A" \/ status = "M") ->
    path_kind w fp = Absent ->
    let failure :=
      mkError (JStr fp) "process" (not_found_message status fp) (Some status) in
    process_record w wipe_first errors_out repo_name commit_sha (status, JStr fp) s
    = (mkState (calls s ++ [JournalAppend errors_out failure])
               (processed s) (S (errors s)) (S (skipped s))
               (failures s ++ [failure])
               (deleted_files s) (upserted_ids s) (total_upserted s),
       Ok tt).
Proof.
  intros w wipe_first errors_out repo_name commit_sha status fp s Hst Hk.
  unfold process_record, process_record_body. rewrite Hk.
  destruct Hst as [-> | ->]; reflexivity.
Qed.

Lemma C9_witness :
  process_record three_files_world false "errors.jsonl" "repo" "sha"
                 ("A", JStr "gone.py") (initial_state [])
  = (mkState [JournalAppend "errors.jsonl"
                (mkError (JStr "gone.py") "process"
                         "File marked as A but not found: gone.py" (Some "A"))]
             0 1 1
             [mkError (JStr "gone.py") "process"
                      "File marked as A but not found: gone.py" (Some "A")]
             0 [] 0,
     Ok tt).
Proof.
  apply (C9_missing_file_is_skipped_and_failed three_files_world false
           "errors.jsonl" "repo" "sha" "A" "gone.py" (initial_state [])).
  - left; reflexivity.
  - reflexivity.
Defined.

(** C8 as stated fails on two kinds of Delete records, both stopped by
    the test [path.exists() and path.is_dir()] that comes before the
    test of the status.  When the path is a directory the turn issues no
    delete, counts the record as skipped and leaves the deleted-files
    counter alone.  When the path cannot be examined ([exists()] raises,
    here for a name of 300 letters) the turn issues no delete either and
    records a failure with operation "process". *)
Lemma C8_delete_stops_at_the_path_guard :
  (let r := process_record directory_world false "errors.jsonl" "repo" "sha"
                           ("D", JStr "team") (initial_state []) in
   deleted_files (fst r) = 0
   /\ skipped (fst r) = 1
   /\ calls (fst r)
      = [JournalAppend "errors.jsonl"
           (mkError (JStr "team") "skip-dir" "Path is a directory; skipping"
                    (Some "D"))])
  /\
  (let r := process_record long_name_world false "errors.jsonl" "repo" "sha"
                           ("D", JStr long_name) (initial_state []) in
   deleted_files (fst r) = 0
   /\ skipped (fst r) = 0
   /\ errors (fst r) = 1
   /\ calls (fst r)
      = [JournalAppend "errors.jsonl"
           (mkError (JStr long_name) "process" long_name_error (Some "D"))]).
Proof. repeat split. Qed.

(** C8, amended.  A Delete record whose path [stat] can examine and
    finds to be no directory (a regular file, or nothing at all): the
    turn calls the filtered delete without any further look at the file
    tree.  When the store answers, or raises with "namespace not found"
    in its message, the turn ends well: the deleted-files counter goes
    up and nothing is recorded as skipped or failed. *)
Theorem C8_delete_needs_no_file :
  forall (w : World) (wipe_first : bool)
         (errors_out repo_name commit_sha fp : string) (s : sync_state),
    path_kind w fp = Absent \/ path_kind w fp = RegularFile ->
    let r := process_record w wipe_first errors_out repo_name commit_sha
                            ("D", JStr fp) s in
    (exists rest, calls (fst r) = calls s ++ StoreDelete repo_name fp :: rest)
    /\
    ((index_delete w (calls s) repo_name fp = None
      \/ exists e, index_delete w (calls s) repo_name fp = Some e
                   /\ contains "namespace not found" (lower e) = true) ->
     r = (mkState (calls s ++ [StoreDelete repo_name fp])
                  (processed s) (errors s) (skipped s) (failures s)
                  (S (deleted_files s)) (upserted_ids s) (total_upserted s),
          Ok tt)).
Proof.
  intros w wipe_first errors_out repo_name commit_sha fp s Hk r.
  assert (Hr : r = try_except
                     (bind (lift (safe_delete_vectors w fp repo_name))
                           (fun _ => modify incr_deleted))
                     (fun e => record_failure errors_out (JStr fp) "process" "D" e)
                     s).
  { unfold r, process_record, process_record_body.
    destruct Hk as [Hk | Hk]; rewrite Hk; reflexivity. }
  rewrite Hr. unfold try_except. rewrite delete_step. split.
  - destruct (index_delete w (calls s) repo_name fp) as [e|].
    + destruct (namespace_absent e); simpl.
      * exists []. reflexivity.
      * eexists. rewrite <- app_assoc. reflexivity.
    + simpl. exists []. reflexivity.
  - intros [Hnone | (e & Hsome & Hmsg)].
    + rewrite Hnone. reflexivity.
    + rewrite Hsome. unfold namespace_absent. rewrite Hmsg. reflexivity.
Qed.

Lemma C8_witness :
  let r := process_record empty_store_world false "errors.jsonl" "repo" "sha"
                          ("D", JStr "old.md") (initial_state []) in
  (exists rest, calls (fst r) = [] ++ StoreDelete "repo" "old.md" :: rest)
  /\ r = (mkState [StoreDelete "repo" "old.md"] 0 0 0 [] 1 [] 0, Ok tt).
Proof.
  pose proof (C8_delete_needs_no_file empty_store_world false "errors.jsonl"
                "repo" "sha" "old.md" (initial_state [])) as H.
  destruct H as [H1 H2]; [left; reflexivity|].
  split; [exact H1|].
  apply H2. right. exists "(404) Namespace not found". split; reflexivity.
Defined.



Example partial_failure_run :
  let r := run_sync three_files_world three_records "errors.jsonl" "." false
                    (initial_state []) in
  snd r = Exit 1
  /\ processed (fst r) = 2
  /\ errors (fst r) = 1
  /\ failures (fst r)
     = [mkError (JStr "two.py") "process"
                "Embedding failed: Received empty embedding from API" (Some "A")]
  /\ upserted_ids (fst r) = ["id-one.py"; "id-three.py"].
Proof. vm_compute. repeat split. Qed.

(* ================================================================== *)
(** * Facts about the string operations *)
(* ================================================================== *)

Lemma append_assoc (a b c : string) : ((a ++ b) ++ c = a ++ (b ++ c))%string.
Proof. induction a as [|x a IH]; simpl; [reflexivity | now rewrite IH]. Qed.

Lemma append_empty_r (a : string) : (a ++ "")%string = a.
Proof. induction a as [|x a IH]; simpl; [reflexivity | now rewrite IH]. Qed.

Lemma length_append (a b : string) :
  String.length (a ++ b) = String.length a + String.length b.
Proof. induction a as [|x a IH]; simpl; [reflexivity | now rewrite IH]. Qed.

Lemma split_sep_field (sep : ascii) (ms : option nat) (a rest : string) :
  ms <> Some 0 ->
  free_of sep a = true ->
  split_sep sep ms (a ++ String sep rest)
  = a :: split_sep sep (option_map pred ms) rest.
Proof.
  intros Hms. induction a as [|x a IH]; simpl; intros Hfree.
  - rewrite Ascii.eqb_refl. destruct ms as [[|k]|]; try reflexivity.
    now elim Hms.
  - apply andb_true_iff in Hfree as [Hx Ha].
    apply negb_true_iff in Hx. rewrite Hx, (IH Ha).
    destruct ms as [[|k]|]; try reflexivity. now elim Hms.
Qed.

Lemma split_sep_zero (sep : ascii) (s : string) :
  split_sep sep (Some 0) s = [s].
Proof. now destruct s. Qed.

Lemma split_sep_last (sep : ascii) (ms : option nat) (a : string) :
  free_of sep a = true -> split_sep sep ms a = [a].
Proof.
  induction a as [|x a IH]; simpl; intros Hfree.
  - now destruct ms as [[|k]|].
  - apply andb_true_iff in Hfree as [Hx Ha].
    apply negb_true_iff in Hx. rewrite Hx, (IH Ha).
    now destruct ms as [[|k]|].
Qed.

Lemma prefix_self_append (a b : string) : String.prefix a (a ++ b) = true.
Proof.
  induction a as [|x a IH]; simpl.
  - now destruct b.
  - destruct (ascii_dec x x); [exact IH | contradiction].
Qed.

Lemma contains_append (needle a b : string) :
  contains needle b = true -> contains needle (a ++ b) = true.
Proof.
  intros H. induction a as [|x a IH]; simpl; [exact H|].
  rewrite IH. apply orb_true_r.
Qed.

Lemma lstrip_head (c : ascii) (s : string) :
  isspace c = false -> lstrip (String c s) = String c s.
Proof. intros H. simpl. now rewrite H. Qed.

Lemma rstrip_append (a b : string) :
  is_empty (rstrip b) = false -> rstrip (a ++ b) = (a ++ rstrip b)%string.
Proof.
  intros Hb. induction a as [|x a IH]; simpl; [reflexivity|].
  rewrite IH. destruct a; simpl; [rewrite Hb|]; reflexivity.
Qed.

Lemma split_ws_word (ms : option nat) (a : string) (c : ascii) (rest : string) :
  ms <> Some 0 ->
  is_empty a = false ->
  no_space a = true ->
  isspace c = true ->
  split_ws ms (a ++ String c rest)
  = a :: split_ws (option_map pred ms) (String c rest).
Proof.
  intros Hms Hne Ha Hc. induction a as [|x a IH]; [discriminate|].
  simpl in Ha. apply andb_true_iff in Ha as [Hx Ha].
  apply negb_true_iff in Hx.
  destruct a as [|y a].
  - simpl. rewrite Hx, Hc. destruct ms as [[|k]|]; try reflexivity.
    now elim Hms.
  - assert (Hy : isspace y = false).
    { simpl in Ha. apply andb_true_iff in Ha as [Hy _].
      now apply negb_true_iff in Hy. }
    specialize (IH eq_refl Ha).
    change ((String x (String y a) ++ String c rest)%string)
      with (String x (String y a ++ String c rest)%string).
    destruct ms as [[|k]|]; [now elim Hms | |].
    + change (split_ws (Some (S k)) (String x (String y a ++ String c rest)))
        with (if isspace x then split_ws (Some (S k)) (String y a ++ String c rest)
              else if isspace y
                   then str1 x :: split_ws (option_map pred (Some (S k)))
                                           (String y a ++ String c rest)
                   else cons_head x (split_ws (Some (S k))
                                              (String y a ++ String c rest))).
      rewrite Hx, Hy, IH. reflexivity.
    + change (split_ws None (String x (String y a ++ String c rest)))
        with (if isspace x then split_ws None (String y a ++ String c rest)
              else if isspace y
                   then str1 x :: split_ws (option_map pred None)
                                           (String y a ++ String c rest)
                   else cons_head x (split_ws None
                                              (String y a ++ String c rest))).
      rewrite Hx, Hy, IH. reflexivity.
Qed.

Lemma split_ws_skip (ms : option nat) (c : ascii) (s : string) :
  ms <> Some 0 -> isspace c = true ->
  split_ws ms (String c s) = split_ws ms s.
Proof.
  intros Hms Hc. simpl. rewrite Hc.
  destruct ms as [[|k]|]; try reflexivity. now elim Hms.
Qed.

(* ================================================================== *)
(** * Properties of the change set resolver *)
(* ================================================================== *)

(** C2 as stated fails: the second record of an expanded rename carries
    the status "M" (Modify), not "A" (Add), in each of the three places
    where renames are expanded. *)
Lemma C2_rename_second_record_is_modify :
  let line := rename_line "R100" "old.md" "new.md" in
  superproject_line_changes line = [("D", "old.md"); ("M", "new.md")]
  /\ superproject_line_changes line <> [("D", "old.md"); ("A", "new.md")]
  /\ submodule_line_changes "team" line
     <> [("D", "team/old.md"); ("A", "team/new.md")]
  /\ listing_line_changes line <> inr [("D", "old.md"); ("A", "new.md")].
Proof.
  intros line. unfold line. split; [reflexivity|].
  repeat split; intros H; vm_compute in H; discriminate H.
Qed.

Lemma startswith_R (st : string) :
  startswith "R" st = true -> exists st', st = String "R"%char st'.
Proof.
  destruct st as [|c st']; [discriminate|].
  unfold startswith. cbn [String.prefix].
  destruct (ascii_dec "R"%char c) as [<-|]; [|intros H; discriminate H].
  intros _. now exists st'.
Qed.

Lemma rename_line_columns (st old new : string) :
  free_of TAB st = true -> free_of TAB old = true -> free_of TAB new = true ->
  split_sep TAB None (rename_line st old new) = [st; old; new].
Proof.
  intros Hst Hold Hnew. unfold rename_line, tab, str1. simpl.
  rewrite split_sep_field by (auto; discriminate). simpl.
  rewrite split_sep_field by (auto; discriminate). simpl.
  now rewrite split_sep_last.
Qed.

(** What [strip()] leaves of the line of a rename: the whitespace at the
    end of the new path is cut. *)
Lemma strip_rename_line_cut (st old new : string) :
  startswith "R" st = true ->
  is_empty (rstrip new) = false ->
  strip (rename_line st old new) = rename_line st old (rstrip new).
Proof.
  intros Hst Hne. destruct (startswith_R st Hst) as [st' ->].
  unfold strip, rename_line.
  change ((String "R" st' ++ tab ++ old ++ tab ++ new)%string)
    with (String "R"%char (st' ++ tab ++ old ++ tab ++ new)%string).
  rewrite lstrip_head by reflexivity.
  change (String "R"%char (st' ++ tab ++ old ++ tab ++ new)%string)
    with ((String "R" st' ++ tab ++ old ++ tab ++ new)%string).
  rewrite <- !append_assoc.
  rewrite rstrip_append by exact Hne. now rewrite !append_assoc.
Qed.

(** The third field of [split(None, 2)] starts at the first character
    that is not whitespace. *)
Lemma rename_line_parts_cut (st old new : string) :
  is_empty st = false -> no_space st = true ->
  is_empty old = false -> no_space old = true ->
  is_empty (lstrip new) = false ->
  split_ws (Some 2) (rename_line st old new) = [st; old; lstrip new].
Proof.
  intros Hst1 Hst2 Hold1 Hold2 Hnew. unfold rename_line, tab, str1.
  simpl.
  rewrite split_ws_word by (auto; discriminate). simpl option_map.
  rewrite split_ws_skip by (auto; discriminate).
  rewrite split_ws_word by (auto; discriminate). simpl option_map.
  destruct old as [|c old]; [discriminate|].
  cbn [pred split_ws]. cbn [lstrip]. change (isspace TAB) with true.
  cbv iota. now rewrite Hnew.
Qed.

Lemma lstrip_rstrip (s : string) : lstrip (rstrip s) = strip s.
Proof.
  unfold strip. induction s as [|c s IH]; [reflexivity|].
  cbn [rstrip lstrip]. destruct (isspace c) eqn:E.
  - rewrite andb_true_r. destruct (is_empty (rstrip s)) eqn:En.
    + rewrite <- IH. now destruct (rstrip s).
    + cbn [lstrip]. now rewrite E.
  - rewrite andb_false_r. cbn [lstrip rstrip]. now rewrite E, andb_false_r.
Qed.

Lemma strip_not_empty (s : string) :
  is_empty (rstrip s) = false -> is_empty (strip s) = false.
Proof.
  rewrite <- lstrip_rstrip. intros H.
  induction s as [|c s IH]; [discriminate H|].
  cbn [rstrip] in *.
  destruct (is_empty (rstrip s) && isspace c) eqn:E; [discriminate H|].
  cbn [lstrip]. destruct (isspace c) eqn:Ec; [|reflexivity].
  rewrite andb_true_r in E. apply IH. exact E.
Qed.

Lemma drop_unexpanded_renames_app (a b : list (string * string)) :
  drop_unexpanded_renames (a ++ b)
  = drop_unexpanded_renames a ++ drop_unexpanded_renames b.
Proof. apply filter_app. Qed.

Lemma listing_changes_app (pre post : list string)
      (a b : list (string * string)) :
  listing_changes pre = inr a -> listing_changes post = inr b ->
  listing_changes (pre ++ post) = inr (a ++ b).
Proof.
  revert a. induction pre as [|l pre IH]; simpl; intros a Ha Hb.
  - injection Ha as <-. exact Hb.
  - destruct (listing_line_changes l) as [e|here]; [discriminate|].
    destruct (listing_changes pre) as [e|later]; [discriminate|].
    injection Ha as <-. rewrite (IH later eq_refl Hb).
    now rewrite app_assoc.
Qed.

(** C2, amended.  Take a rename entry [st TAB old TAB new]: [st] starts
    with R, [st] and [old] hold no tab, and [new] is not blank and holds
    no tab before its last character that is not whitespace.  It is
    expanded to exactly two records, Delete(old) followed by Modify(new'),
    wherever it stands among the other lines.  In a superproject diff
    and in a diff inside a submodule (there with the submodule path put
    before both paths), [new'] is [new] without the whitespace at its
    end, which [line.strip()] cuts; in both cases the two records pass
    the filter that [main_entry] applies to commit-range changes.  In a
    changed-files listing, whose lines are stripped when they are read,
    and whose status and old path hold no whitespace, the old path not
    being empty, [new'] is [new] without the whitespace at both ends. *)
Theorem C2_rename_is_delete_then_modify :
  forall (st old new : string),
    startswith "R" st = true ->
    free_of TAB st = true -> free_of TAB old = true ->
    free_of TAB (rstrip new) = true ->
    is_empty (rstrip new) = false ->
    let line := rename_line st old new in
    (forall (pre post : list string),
        drop_unexpanded_renames
          (flat_map superproject_line_changes (pre ++ line :: post))
        = drop_unexpanded_renames (flat_map superproject_line_changes pre)
          ++ [("D", old); ("M", rstrip new)]
          ++ drop_unexpanded_renames (flat_map superproject_line_changes post))
    /\
    (forall (sub_path : string) (pre post : list string),
        drop_unexpanded_renames
          (flat_map (submodule_line_changes sub_path) (pre ++ line :: post))
        = drop_unexpanded_renames
            (flat_map (submodule_line_changes sub_path) pre)
          ++ [("D", under sub_path old); ("M", under sub_path (rstrip new))]
          ++ drop_unexpanded_renames
               (flat_map (submodule_line_changes sub_path) post))
    /\
    (no_space st = true -> is_empty old = false -> no_space old = true ->
     forall (pre post : list string) (a b : list (string * string)),
       listing_changes pre = inr a -> listing_changes post = inr b ->
       listing_changes (pre ++ strip line :: post)
       = inr (a ++ [("D", old); ("M", strip new)] ++ b)).
Proof.
  intros st old new Hst Tst Told Tnew Hne line.
  assert (Hstrip : strip line = rename_line st old (rstrip new))
    by (now apply strip_rename_line_cut).
  assert (Hcols : split_sep TAB None (strip line) = [st; old; rstrip new]).
  { rewrite Hstrip. now apply rename_line_columns. }
  assert (Hsuper : superproject_line_changes line
                   = [("D", old); ("M", rstrip new)]).
  { unfold superproject_line_changes. rewrite Hcols, Hst. reflexivity. }
  split; [|split].
  - intros pre post.
    rewrite flat_map_app, drop_unexpanded_renames_app. f_equal.
    simpl flat_map. rewrite Hsuper.
    change ([("D", old); ("M", rstrip new)]
              ++ flat_map superproject_line_changes post)
      with (("D", old) :: ("M", rstrip new)
              :: flat_map superproject_line_changes post).
    reflexivity.
  - intros sub_path pre post.
    rewrite flat_map_app, drop_unexpanded_renames_app. f_equal.
    simpl flat_map. unfold submodule_line_changes at 1.
    rewrite Hcols, Hst. reflexivity.
  - intros Sst Eold Sold pre post a b Ha Hb.
    assert (Est : is_empty st = false)
      by (destruct (startswith_R st Hst) as [st' ->]; reflexivity).
    assert (Hline : listing_line_changes (strip line)
                    = inr [("D", old); ("M", strip new)]).
    { unfold listing_line_changes. rewrite Hstrip.
      rewrite rename_line_parts_cut;
        rewrite ?lstrip_rstrip; try assumption; [|now apply strip_not_empty].
      unfold nth_col. cbn [nth List.length]. rewrite Hst. reflexivity. }
    apply listing_changes_app; [exact Ha|].
    simpl. rewrite Hline, Hb. reflexivity.
Qed.

Lemma C2_witness :
  let line := rename_line "R100" "old.md" "new.md" in
  drop_unexpanded_renames (flat_map superproject_line_changes ([] ++ line :: []))
  = drop_unexpanded_renames (flat_map superproject_line_changes [])
    ++ [("D", "old.md"); ("M", "new.md")]
    ++ drop_unexpanded_renames (flat_map superproject_line_changes [])
  /\ drop_unexpanded_renames
       (flat_map (submodule_line_changes "team") ([] ++ line :: []))
     = drop_unexpanded_renames (flat_map (submodule_line_changes "team") [])
       ++ [("D", under "team" "old.md"); ("M", under "team" "new.md")]
       ++ drop_unexpanded_renames (flat_map (submodule_line_changes "team") [])
  /\ listing_changes ([] ++ line :: [])
     = inr ([] ++ [("D", "old.md"); ("M", "new.md")] ++ []).
Proof.
  pose proof (C2_rename_is_delete_then_modify "R100" "old.md" "new.md"
                eq_refl eq_refl eq_refl eq_refl eq_refl) as (H1 & H2 & H3).
  split; [apply (H1 [] []) | split; [apply (H2 "team" [] [])|]].
  apply (H3 eq_refl eq_refl eq_refl [] [] [] []); reflexivity.
Defined.

(** The same entry with a blank after the new name: the blank is cut. *)
Example rename_with_trailing_blank :
  superproject_line_changes (rename_line "R100" "old.md" "new.md ")
  = [("D", "old.md"); ("M", "new.md")].
Proof. reflexivity. Qed.

(** The whole resolver in commit-range mode on a diff with one rename. *)
Example rename_resolved_from_commit_range :
  resolve rename_world
          (mkArgs None None None "errors.jsonl" (Some "HEAD~1") "HEAD" "."
                  false false) []
  = ([Git ["diff"; "--name-status"; "HEAD~1"; "HEAD"] ".";
      Git ["diff"; "--submodule=short"; "HEAD~1"; "HEAD"] "."],
     Ok [("D", JStr "old.md"); ("M", JStr "new.md")]).
Proof. reflexivity. Qed.

(* ------------------------------------------------------------------ *)
(** ** Reindex-all *)

Section EnumerationFacts.

Variable w : World.

Lemma keeps_run_git (args : list string) (cwd : string) :
  keeps (emits enumeration_event) (_run_git w args cwd).
Proof.
  unfold _run_git. apply keeps_try_except; [apply emits_trans | |].
  - now apply keeps_call.
  - intros e. apply keeps_raise, emits_refl.
Qed.

Lemma keeps_collect {A B : Type} (f : A -> W (list B)) (xs : list A) :
  (forall x, keeps (emits enumeration_event) (f x)) ->
  keeps (emits enumeration_event) (collect f xs).
Proof.
  intros Hf. induction xs as [|x rest IH]; simpl.
  - apply keeps_ret, emits_refl.
  - apply keeps_bind; [apply emits_trans | apply Hf | intros here].
    apply keeps_bind; [apply emits_trans | apply IH | intros later].
    apply keeps_ret, emits_refl.
Qed.

Lemma keeps_get_submodule_paths (repo_root : string) :
  keeps (emits enumeration_event) (_get_submodule_paths w repo_root).
Proof.
  unfold _get_submodule_paths.
  apply keeps_bind;
    [apply emits_trans | apply keeps_of_result, emits_refl | intros on_disk].
  destruct (negb on_disk).
  - apply keeps_ret, emits_refl.
  - apply keeps_try_except; [apply emits_trans | |].
    + apply keeps_bind; [apply emits_trans | apply keeps_run_git | intros out].
      apply keeps_ret, emits_refl.
    + intros _. apply keeps_ret, emits_refl.
Qed.

Lemma keeps_submodule_files (repo_root errors_out sub_path : string) :
  keeps (emits enumeration_event) (submodule_files w repo_root errors_out sub_path).
Proof.
  unfold submodule_files, is_dir.
  apply keeps_bind;
    [apply emits_trans | apply keeps_of_result, emits_refl | intros there].
  destruct (negb there).
  - apply keeps_bind; [apply emits_trans | | intros _].
    + apply keeps_append_error. intros p r. exact I.
    + apply keeps_ret, emits_refl.
  - apply keeps_try_except; [apply emits_trans | |].
    + apply keeps_bind; [apply emits_trans | apply keeps_run_git | intros out].
      apply keeps_ret, emits_refl.
    + intros e. apply keeps_bind; [apply emits_trans | | intros _].
      * apply keeps_append_error. intros p r. exact I.
      * apply keeps_ret, emits_refl.
Qed.

Lemma keeps_compute_reindex_all_files (repo_root errors_out : string) :
  keeps (emits enumeration_event)
        (compute_reindex_all_files w repo_root errors_out).
Proof.
  unfold compute_reindex_all_files.
  apply keeps_bind;
    [apply emits_trans | apply keeps_get_submodule_paths | intros subs].
  apply keeps_bind; [apply emits_trans | apply keeps_run_git | intros out].
  apply keeps_bind; [apply emits_trans | | intros sub_files].
  - apply keeps_collect. intros x. apply keeps_submodule_files.
  - apply keeps_ret, emits_refl.
Qed.

End EnumerationFacts.

(** C7 as stated fails twice.  With [--reindex-all --from-commit REV] and
    the keys set, nothing is rejected: the tracked files are listed, the
    namespace is wiped and the file is indexed.  With the keys missing
    and [--skip-on-missing-keys], [--reindex-all --files a.py] ends with
    exit status 0, not with a fatal error. *)
Lemma C7_from_commit_and_skip_flag_pass :
  main_entry one_file_world
             (mkArgs None None None "errors.jsonl" (Some "HEAD~1") "HEAD" "."
                     true false)
             (initial_state [])
  = (mkState [Git ["ls-files"] "."; InitStore; InitModels; StoreDeleteAll;
              ProcessFile "a.py" "A";
              StoreUpsert [content_entry "id-a.py" "a.py" [1%float]]]
             1 0 0 [] 0 ["id-a.py"] 1,
     Ok (mkResult "" "." ["id-a.py"]))
  /\
  main_entry no_keys_world
             (mkArgs None (Some ["a.py"]) None "errors.jsonl" None "HEAD" "."
                     true true)
             (initial_state [])
  = (initial_state [], Exit 0).
Proof. split; reflexivity. Qed.

(** C7, amended.  With both API keys set: a reindex-all request that
    comes with a non-empty [--files] list, a [--retry-errors] path or a
    changed-files path is rejected with a RuntimeError and the state is
    untouched (nothing was called); a reindex-all request without them
    whose enumeration of tracked files comes back empty ends with a
    RuntimeError right after the enumeration, which has called git and
    the journal only: no client is started, no record gets a turn. *)
Theorem C7_reindex_all_is_exclusive :
  forall (w : World) (args : Args) (s : sync_state),
    missing_keys w = [] ->
    reindex_all args = true ->
    (list_truthy (files args) = true
     \/ opt_truthy (retry_errors args) = true
     \/ opt_truthy (changed_files args) = true ->
     main_entry w args s = (s, Raise REINDEX_CONFLICT))
    /\
    (list_truthy (files args) = false ->
     opt_truthy (retry_errors args) = false ->
     opt_truthy (changed_files args) = false ->
     forall t' : trace,
       compute_reindex_all_files w (repo_root args) (errors_out args) (calls s)
       = (t', Ok []) ->
       main_entry w args s = (set_calls t' s, Raise NOTHING_TRACKED)
       /\ emits enumeration_event (calls s) t').
Proof.
  intros w args s Hkeys Hre. unfold main_entry. rewrite Hkeys, Hre. split.
  - intros H.
    assert (Hc : list_truthy (files args) || opt_truthy (retry_errors args)
                 || opt_truthy (changed_files args) = true).
    { destruct H as [-> | [-> | ->]];
        rewrite ?orb_true_r; reflexivity. }
    rewrite Hc. reflexivity.
  - intros Hf Hr Hc t' Henum. rewrite Hf, Hr, Hc. simpl. split.
    + unfold bind, lift, resolve. rewrite Hre. unfold bind. rewrite Henum.
      reflexivity.
    + pose proof (keeps_compute_reindex_all_files w (repo_root args)
                    (errors_out args) (calls s)) as H.
      rewrite Henum in H. exact H.
Qed.

Lemma C7_witness :
  main_entry one_file_world
             (mkArgs None (Some ["a.py"]) None "errors.jsonl" None "HEAD" "."
                     true false)
             (initial_state [])
  = (initial_state [], Raise REINDEX_CONFLICT)
  /\
  main_entry three_files_world
             (mkArgs None None None "errors.jsonl" None "HEAD" "." true false)
             (initial_state [])
  = (initial_state [Git ["ls-files"] "."], Raise NOTHING_TRACKED).
Proof.
  split.
  - apply (proj1 (C7_reindex_all_is_exclusive one_file_world
                    (mkArgs None (Some ["a.py"]) None "errors.jsonl" None
                            "HEAD" "." true false)
                    (initial_state []) eq_refl eq_refl)).
    left. reflexivity.
  - apply (proj2 (C7_reindex_all_is_exclusive three_files_world
                    (mkArgs None None None "errors.jsonl" None "HEAD" "."
                            true false)
                    (initial_state []) eq_refl eq_refl)
                 eq_refl eq_refl eq_refl [Git ["ls-files"] "."] eq_refl).
Defined.

(* ------------------------------------------------------------------ *)
(** ** Journal replay and explicit files *)

(** C10 as stated fails.  In replay mode the status is upper-cased before
    it is compared: a journal line with status "d" yields a Delete
    record, not a Modify one; and a line whose status is a number makes
    [.upper()] fail inside the [try], so the line is skipped although it
    parses and has a file_path.  Likewise the [--files] token [a:x.py],
    whose prefix is not one of A, M, D as written, is accepted as Add. *)
Lemma C10_status_is_upper_cased_first :
  replay_line journal_world (journal_line (quoted "d")) = [("D", JStr "x.py")]
  /\ replay_line journal_world (journal_line "5") = []
  /\ parse_token "a:x.py" = inr ("A", "x.py").
Proof. repeat split. Qed.

Lemma parse_tokens_stops (pre post : list string) (tok e : string) :
  parse_token tok = inl e ->
  exists e', parse_tokens (pre ++ tok :: post) = inl e'.
Proof.
  intros Htok. induction pre as [|p pre IH]; simpl.
  - rewrite Htok. now exists e.
  - destruct (parse_token p) as [e1|rec]; [now exists e1|].
    destruct IH as [e' ->]. now exists e'.
Qed.

Lemma contains_colon (st path : string) :
  contains ":" (st ++ String ":" path) = true.
Proof.
  apply contains_append. simpl.
  destruct (ascii_dec ":"%char ":"%char) as [_|n]; [|now elim n].
  now destruct path.
Qed.

(** C10, amended.  Replay: a journal line that parses to an object with a
    truthy file_path always yields one record for that file_path when its
    status is missing, falsy or a string; the record's status is the
    upper-cased string when that is one of A, M, D, and M otherwise (so M
    when the status is missing or falsy).  A line that does not parse, or
    whose object has no truthy file_path, or whose status is truthy but
    not a string, yields nothing.  Explicit
    files: a token [st:path] whose prefix, stripped and upper-cased, is
    not one of A, M, D makes [parse_token] raise, and [main_entry] then
    ends with that exception with nothing called. *)
Theorem C10_replay_coerces_and_files_abort :
  (forall (w : World) (line : string) (members : list (string * json))
          (fp : json),
      json_loads w line = Some (JObj members) ->
      dict_get "file_path" members = Some fp ->
      json_truthy fp = true ->
      ((dict_get "status" members = None
        \/ exists v, dict_get "status" members = Some v
                     /\ json_truthy v = false) ->
       replay_line w line = [("M", fp)])
      /\
      (forall st : string,
          dict_get "status" members = Some (JStr st) ->
          replay_line w line
          = [(if mem (upper st) STATUSES then upper st else "M", fp)]))
  /\
  (forall (w : World) (line : string),
      (json_loads w line = None -> replay_line w line = [])
      /\
      (forall members : list (string * json),
          json_loads w line = Some (JObj members) ->
          (dict_get "file_path" members = None
           \/ exists v, dict_get "file_path" members = Some v
                        /\ json_truthy v = false) ->
          replay_line w line = [])
      /\
      (forall (members : list (string * json)) (v : json),
          json_loads w line = Some (JObj members) ->
          dict_get "status" members = Some v ->
          json_truthy v = true ->
          (forall st, v <> JStr st) ->
          replay_line w line = []))
  /\
  (forall (st path : string),
      free_of ":" st = true ->
      mem (upper (strip st)) STATUSES = false ->
      let tok := (st ++ String ":" path)%string in
      parse_token tok
      = inl ("Invalid status prefix in --files token: " ++ tok)%string
      /\
      (forall (w : World) (args : Args) (s : sync_state)
              (pre post : list string),
          missing_keys w = [] ->
          reindex_all args = false ->
          files args = Some (pre ++ tok :: post) ->
          exists msg, main_entry w args s = (s, Raise msg))).
Proof.
  split; [|split].
  - intros w line members fp Hparse Hfp Htruthy. unfold replay_line.
    rewrite Hparse, Hfp, Htruthy. split.
    + intros [-> | (v & -> & ->)]; reflexivity.
    + intros st ->.
      destruct st as [|c st]; [reflexivity|]. reflexivity.
  - intros w line. unfold replay_line. split; [|split].
    + intros ->. reflexivity.
    + intros members -> Hfp.
      destruct (match dict_get "status" members with
                | Some v => if json_truthy v then v else JStr "M"
                | None => JStr "M"
                end); try reflexivity.
      destruct Hfp as [-> | (v & -> & ->)]; reflexivity.
    + intros members v -> -> -> Hv.
      destruct v; try reflexivity. now elim (Hv s).
  - intros st path Hfree Hbad tok.
    assert (Htok : parse_token tok
                   = inl ("Invalid status prefix in --files token: " ++ tok)%string).
    { unfold parse_token, tok. rewrite contains_colon.
      rewrite split_sep_field by (auto; discriminate). simpl option_map.
      rewrite split_sep_zero, Hbad. reflexivity. }
    split; [exact Htok|].
    intros w args s pre post Hkeys Hre Hfiles.
    destruct (parse_tokens_stops pre post tok _ Htok) as [e' He'].
    exists e'. unfold main_entry. rewrite Hkeys, Hre. simpl.
    unfold bind, lift, resolve. rewrite Hre, Hfiles.
    assert (Hl : list_truthy (Some (pre ++ tok :: post)) = true)
      by (destruct pre; reflexivity).
    rewrite Hl. unfold bind, of_result. rewrite He'. unfold raise.
    destruct s; reflexivity.
Qed.

Lemma C10_witness :
  replay_line journal_world (journal_line (quoted "X")) = [("M", JStr "x.py")]
  /\ replay_line journal_world "not json" = []
  /\ parse_token "X:x.py" = inl "Invalid status prefix in --files token: X:x.py"
  /\ exists msg,
      main_entry journal_world
                 (mkArgs None (Some ([] ++ "X:x.py" :: ["M:y.py"])) None
                         "errors.jsonl" None "HEAD" "." false false)
                 (initial_state [])
      = (initial_state [], Raise msg).
Proof.
  destruct C10_replay_coerces_and_files_abort as (H1 & H2 & H3).
  split; [|split; [|split]].
  - apply (proj2 (H1 journal_world (journal_line (quoted "X"))
                     [("file_path", JStr "x.py"); ("status", JStr "X")]
                     (JStr "x.py") eq_refl eq_refl eq_refl)
                 "X" eq_refl).
  - apply (proj1 (H2 journal_world "not json") eq_refl).
  - apply (proj1 (H3 "X" "x.py" eq_refl eq_refl)).
  - apply (proj2 (H3 "X" "x.py" eq_refl eq_refl) journal_world
                 (mkArgs None (Some ([] ++ "X:x.py" :: ["M:y.py"])) None
                         "errors.jsonl" None "HEAD" "." false false)
                 (initial_state []) [] ["M:y.py"] eq_refl eq_refl eq_refl).
Defined.

(* ================================================================== *)
(** * Properties of the token budgeter *)
(* ================================================================== *)

Lemma rstrip_all_space (s : string) : all_space s = true -> rstrip s = "".
Proof.
  induction s as [|c s IH]; simpl; [reflexivity|].
  intros H. apply andb_true_iff in H as [Hc Hs].
  now rewrite (IH Hs), Hc.
Qed.

Lemma rstrip_drops_trailing_space (a ws : string) :
  all_space ws = true -> rstrip (a ++ ws) = rstrip a.
Proof.
  intros Hws. induction a as [|c a IH]; simpl.
  - now apply rstrip_all_space.
  - now rewrite IH.
Qed.

Lemma rstrip_length (s : string) : String.length (rstrip s) <= String.length s.
Proof.
  induction s as [|c s IH]; simpl; [lia|].
  destruct (is_empty (rstrip s) && isspace c); simpl; lia.
Qed.

Lemma lstrip_all_space (s : string) : all_space s = true -> lstrip s = "".
Proof.
  induction s as [|c s IH]; simpl; [reflexivity|].
  intros H. apply andb_true_iff in H as [Hc Hs]. now rewrite Hc, IH.
Qed.

(** Stripping a text followed by whitespace leaves no more than the text. *)
Lemma strip_window_length (a ws : string) :
  all_space ws = true -> String.length (strip (a ++ ws)) <= String.length a.
Proof.
  intros Hws. unfold strip. induction a as [|c a IH].
  - simpl. rewrite lstrip_all_space by assumption. simpl. lia.
  - change ((String c a ++ ws)%string) with (String c (a ++ ws)%string).
    cbn [lstrip]. destruct (isspace c).
    + simpl. lia.
    + change (String c (a ++ ws)%string) with ((String c a ++ ws)%string).
      rewrite rstrip_drops_trailing_space by assumption.
      apply rstrip_length.
Qed.

Lemma take_length (n : nat) (s : string) : String.length (Regex.take n s) <= n.
Proof.
  revert s. induction n as [|n IH]; intros [|c s]; simpl; try lia.
  specialize (IH s). lia.
Qed.

Lemma take_add (n k : nat) (s : string) :
  Regex.take (n + k) s
  = (Regex.take n s ++ Regex.take k (Regex.drop n s))%string.
Proof.
  revert s. induction n as [|n IH]; intros s; simpl.
  - now destruct s.
  - destruct s as [|c s]; simpl; [now destruct k | now rewrite IH].
Qed.

Lemma take_ws_run_all_space (s : string) :
  all_space (Regex.take (Regex.ws_run s) s) = true.
Proof.
  induction s as [|c s IH]; simpl; [reflexivity|].
  destruct (isspace c) eqn:Hc; [|reflexivity].
  unfold all_space. cbn [Regex.take forallb_chars]. rewrite Hc. exact IH.
Qed.

Lemma window_bound (w : nat) (s : string) (k : nat) :
  Regex.window w s = Some k -> k <= w.
Proof.
  revert s k. induction w as [|w IH]; intros s k; simpl.
  - destruct (Regex.at_boundary s); intros H; inversion H; lia.
  - destruct s as [|c s].
    + simpl. intros H; inversion H; lia.
    + destruct (Ascii.eqb c LF).
      * destruct (Regex.at_boundary (String c s)); intros H; inversion H; lia.
      * destruct (Regex.window w s) as [k'|] eqn:Hw.
        -- intros H; inversion H; subst. apply IH in Hw. lia.
        -- destruct (Regex.at_boundary (String c s)); intros H; inversion H; lia.
Qed.

(** A match of the window pattern, once stripped, fits in the window. *)
Lemma match_here_stripped (w : nat) (s m : string) :
  Regex.match_here w s = Some m -> String.length (strip m) <= w.
Proof.
  unfold Regex.match_here. destruct w as [|w]; [discriminate|].
  destruct s as [|c s]; [discriminate|].
  destruct (Ascii.eqb c LF); [discriminate|].
  destruct (Regex.window w s) as [k|] eqn:Hw; [|discriminate].
  intros H. injection H as <-. rewrite take_add.
  apply window_bound in Hw.
  etransitivity.
  - apply (strip_window_length (Regex.take (S k) (String c s))).
    apply take_ws_run_all_space.
  - etransitivity; [apply take_length | lia].
Qed.

Lemma findall_from_matches (w skip : nat) (s m : string) :
  In m (Regex.findall_from w skip s) ->
  exists s', Regex.match_here w s' = Some m.
Proof.
  revert skip. induction s as [|c s IH]; intros skip; simpl; [contradiction|].
  destruct skip as [|n]; [|apply IH].
  destruct (Regex.match_here w (String c s)) as [m'|] eqn:Hm.
  - intros [<- | Hin]; [now exists (String c s) | now apply IH in Hin].
  - apply IH.
Qed.

Section BudgetFacts.

Variable tokenizer : option (string -> nat).
Variable max_tokens : nat.

Lemma hard_split_within_limit (chunk : string) :
  window_fits tokenizer max_tokens ->
  Forall (within_limit tokenizer max_tokens) (Budget.hard_split chunk).
Proof.
  intros Hfit. unfold Budget.hard_split. apply Forall_forall.
  intros p Hp. apply filter_In in Hp as [Hp _].
  apply in_map_iff in Hp as (m & <- & Hm).
  apply findall_from_matches in Hm as (s' & Hs').
  apply Hfit. now apply match_here_stripped in Hs'.
Qed.

Lemma recheck_within_limit (chunks : list string) :
  window_fits tokenizer max_tokens ->
  Forall (within_limit tokenizer max_tokens)
         (Budget.recheck tokenizer max_tokens chunks).
Proof.
  intros Hfit. unfold Budget.recheck. apply Forall_flat_map.
  apply Forall_forall. intros chunk _.
  destruct (Budget.count_tokens tokenizer chunk <=? max_tokens) eqn:Hle.
  - constructor; [|constructor]. now apply Nat.leb_le in Hle.
  - now apply hard_split_within_limit.
Qed.

Lemma add_section_within_limit (final_chunks : list string) (section : string) :
  window_fits tokenizer max_tokens ->
  Forall (within_limit tokenizer max_tokens) final_chunks ->
  Forall (within_limit tokenizer max_tokens)
         (Budget.add_section tokenizer max_tokens final_chunks section).
Proof.
  intros Hfit Hall. unfold Budget.add_section.
  destruct (is_empty (strip section)); [exact Hall|].
  destruct (Budget.count_tokens tokenizer (strip section) <=? max_tokens) eqn:Hle.
  - apply Forall_app. split; [exact Hall|].
    constructor; [|constructor]. now apply Nat.leb_le in Hle.
  - destruct (fold_left (Budget.add_part tokenizer max_tokens)
                        (Regex.re_split_sentences (strip section))
                        (final_chunks, EmptyString)) as [chunks current].
    now apply recheck_within_limit.
Qed.

End BudgetFacts.

(** C5 as stated fails.  With the whitespace word count that
    [count_tokens] falls back on and a limit of 2, a five-word text
    without sentence ends comes back whole, with 5 tokens.  With the
    default limit of 8192 and a tokenizer that needs three tokens per
    character, a 3000-character word comes back whole, with 9000. *)
Lemma C5_chunk_over_the_limit :
  Budget.re_chunk_if_oversize None ["a b c d e"] 2 = ["a b c d e"]
  /\ Budget.count_tokens None "a b c d e" = 5
  /\ ~ Forall (within_limit None 2)
              (Budget.re_chunk_if_oversize None ["a b c d e"] 2)
  /\ ~ Forall (within_limit (Some three_per_char) Budget.MAX_TOKENS)
              (Budget.re_chunk_if_oversize (Some three_per_char)
                                           [repeat_char "a" 3000]
                                           Budget.MAX_TOKENS).
Proof.
  split; [reflexivity | split; [reflexivity | split]].
  - intros H. apply Forall_inv in H. unfold within_limit in H.
    apply Nat.leb_le in H. vm_compute in H. discriminate H.
  - assert (E : Budget.re_chunk_if_oversize (Some three_per_char)
                  [repeat_char "a" 3000] Budget.MAX_TOKENS
                = [repeat_char "a" 3000]) by (vm_compute; reflexivity).
    rewrite E. intros H. apply Forall_inv in H. unfold within_limit in H.
    apply Nat.leb_le in H. vm_compute in H. discriminate H.
Qed.

(** C5, amended.  When no text of at most 3000 characters (the window of
    the last-resort split) counts more tokens than [max_tokens], every
    chunk returned by [re_chunk_if_oversize] is within [max_tokens]. *)
Theorem C5_chunks_within_limit_when_window_fits :
  forall (tokenizer : option (string -> nat)) (sections : list string)
         (max_tokens : nat),
    (forall s : string,
        String.length s <= 3000 ->
        Budget.count_tokens tokenizer s <= max_tokens) ->
    Forall (fun chunk => Budget.count_tokens tokenizer chunk <= max_tokens)
           (Budget.re_chunk_if_oversize tokenizer sections max_tokens).
Proof.
  intros tokenizer sections max_tokens Hfit.
  unfold Budget.re_chunk_if_oversize.
  assert (G : forall acc,
             Forall (within_limit tokenizer max_tokens) acc ->
             Forall (within_limit tokenizer max_tokens)
                    (fold_left (Budget.add_section tokenizer max_tokens)
                               sections acc)).
  { induction sections as [|sec rest IH]; intros acc Hacc; simpl; [exact Hacc|].
    apply IH. apply add_section_within_limit; [exact Hfit | exact Hacc]. }
  apply G. constructor.
Qed.

Lemma cons_head_length (c : ascii) (l : list string) :
  List.length (cons_head c l) = Nat.max 1 (List.length l).
Proof. destruct l as [|x [|y l]]; reflexivity. Qed.

(** The fallback count never exceeds the number of characters. *)
Lemma word_count_le_length (s : string) :
  List.length (split_ws None s) <= String.length s.
Proof.
  induction s as [|c s IH]; [simpl; lia|].
  cbn [split_ws String.length]. destruct (isspace c); [lia|].
  destruct s as [|c2 s]; [simpl; lia|].
  destruct (isspace c2).
  - cbn [List.length option_map]. lia.
  - rewrite cons_head_length. cbn [String.length] in *. lia.
Qed.

Lemma C5_witness :
  Forall (fun chunk => Budget.count_tokens None chunk <= Budget.MAX_TOKENS)
         (Budget.re_chunk_if_oversize None
            ["The index is rebuilt. Nothing else changes."] Budget.MAX_TOKENS).
Proof.
  apply (C5_chunks_within_limit_when_window_fits None
           ["The index is rebuilt. Nothing else changes."] Budget.MAX_TOKENS).
  intros s Hs. unfold Budget.count_tokens.
  etransitivity; [apply word_count_le_length|].
  etransitivity; [exact Hs|].
  apply Nat.leb_le. vm_compute. reflexivity.
Defined.

Lemma no_space_not_lf (c : ascii) : isspace c = false -> Ascii.eqb c LF = false.
Proof.
  intros H. destruct (Ascii.eqb c LF) eqn:E; [|reflexivity].
  apply Ascii.eqb_eq in E. subst c. discriminate H.
Qed.

Lemma no_space_cons (c : ascii) (s : string) :
  no_space (String c s) = true -> isspace c = false /\ no_space s = true.
Proof.
  unfold no_space. cbn [forallb_chars]. intros H.
  apply andb_true_iff in H as [Hc Hs]. now apply negb_true_iff in Hc.
Qed.

Lemma lstrip_no_space (s : string) : no_space s = true -> lstrip s = s.
Proof.
  destruct s as [|c s]; [reflexivity|]. intros H.
  apply no_space_cons in H as [Hc _]. now apply lstrip_head.
Qed.

Lemma rstrip_no_space (s : string) : no_space s = true -> rstrip s = s.
Proof.
  induction s as [|c s IH]; [reflexivity|]. intros H.
  apply no_space_cons in H as [Hc Hs]. cbn [rstrip].
  now rewrite (IH Hs), Hc, andb_false_r.
Qed.

Lemma strip_no_space (s : string) : no_space s = true -> strip s = s.
Proof.
  intros H. unfold strip. rewrite lstrip_no_space by assumption.
  now apply rstrip_no_space.
Qed.

Lemma no_space_drop (k : nat) (s : string) :
  no_space s = true -> no_space (Regex.drop k s) = true.
Proof.
  revert s. induction k as [|k IH]; intros [|c s] H; try exact H.
  apply no_space_cons in H as [_ Hs]. now apply IH.
Qed.

Lemma drop_length (k : nat) (s : string) :
  String.length (Regex.drop k s) = String.length s - k.
Proof.
  revert s. induction k as [|k IH]; intros [|c s]; simpl; try lia. apply IH.
Qed.

(** A text without whitespace is one sentence. *)
Lemma re_split_no_space (m : Regex.split_mode) (s : string) :
  no_space s = true -> Regex.re_split_from m s = [s].
Proof.
  revert m. induction s as [|c s IH]; intros m H; [reflexivity|].
  apply no_space_cons in H as [Hc Hs]. cbn [Regex.re_split_from].
  now rewrite Hc, (IH _ Hs).
Qed.

(** In a text without whitespace the window can only stop at the end. *)
Lemma window_too_long (w : nat) (s : string) :
  no_space s = true -> w < String.length s -> Regex.window w s = None.
Proof.
  revert s. induction w as [|w IH]; intros [|c s] H L; simpl in L; try lia.
  - apply no_space_cons in H as [Hc _]. simpl. now rewrite Hc.
  - apply no_space_cons in H as [Hc Hs]. cbn [Regex.window Regex.at_boundary].
    rewrite (no_space_not_lf c Hc), (IH s Hs) by lia. now rewrite Hc.
Qed.

Lemma window_to_the_end (w : nat) (s : string) :
  no_space s = true -> String.length s <= w ->
  Regex.window w s = Some (String.length s).
Proof.
  revert s. induction w as [|w IH]; intros [|c s] H L; simpl in L; try lia;
    try reflexivity.
  apply no_space_cons in H as [Hc Hs]. cbn [Regex.window String.length].
  rewrite (no_space_not_lf c Hc), (IH s Hs) by lia. reflexivity.
Qed.

Lemma take_all (n : nat) (s : string) :
  String.length s <= n -> Regex.take n s = s.
Proof.
  revert s. induction n as [|n IH]; intros [|c s] L; simpl in *; try lia;
    try reflexivity.
  rewrite IH by lia. reflexivity.
Qed.

Lemma drop_all (n : nat) (s : string) :
  String.length s <= n -> Regex.drop n s = "".
Proof.
  revert s. induction n as [|n IH]; intros [|c s] L; simpl in *; try lia;
    try reflexivity.
  apply IH. lia.
Qed.

Lemma findall_skips_all (w skip : nat) (s : string) :
  String.length s <= skip -> Regex.findall_from w skip s = [].
Proof.
  revert skip. induction s as [|c s IH]; intros skip L; [reflexivity|].
  simpl in L. destruct skip as [|n]; [lia|]. simpl. apply IH. lia.
Qed.

(** The window pattern on a text without whitespace that is [k]
    characters longer than the window: one match, the last [w]
    characters; the first [k] are in no match. *)
Lemma findall_no_space (w k : nat) (s : string) :
  no_space s = true -> 1 <= w -> String.length s = w + k ->
  Regex.findall_from w 0 s = [Regex.drop k s].
Proof.
  intros Hs Hw. revert s Hs. induction k as [|k IH]; intros s Hs L.
  - destruct s as [|c s]; [simpl in L; lia|].
    destruct w as [|w]; [lia|]. simpl in L.
    pose proof (no_space_cons c s Hs) as [Hc Hs'].
    cbn [Regex.findall_from Regex.match_here].
    rewrite (no_space_not_lf c Hc), (window_to_the_end w s Hs') by lia.
    rewrite drop_all by (simpl; lia). cbn [Regex.ws_run].
    rewrite take_all by (simpl; lia).
    rewrite findall_skips_all by (simpl; lia). reflexivity.
  - destruct s as [|c s]; [simpl in L; lia|].
    destruct w as [|w]; [lia|]. simpl in L.
    pose proof (no_space_cons c s Hs) as [Hc Hs'].
    cbn [Regex.findall_from Regex.match_here].
    rewrite (no_space_not_lf c Hc), (window_too_long w s Hs') by lia.
    cbn [Regex.drop]. apply IH; [exact Hs' | simpl; lia].
Qed.

(** C6 fails on the code.  Take any text without whitespace that is
    longer than the 3000-character window and over the token limit,
    whatever the tokenizer.  [re_chunk_if_oversize] returns one chunk:
    the last 3000 characters.  The last-resort pattern needs whitespace
    or the end of the text after each window, finds neither, and starts
    again one character further, so everything before the last 3000
    characters is in no chunk. *)
Theorem C6_long_word_loses_text :
  forall (tokenizer : option (string -> nat)) (max_tokens : nat) (s : string),
    no_space s = true ->
    Regex.CHAR_WINDOW < String.length s ->
    max_tokens < Budget.count_tokens tokenizer s ->
    Budget.re_chunk_if_oversize tokenizer [s] max_tokens
    = [Regex.drop (String.length s - Regex.CHAR_WINDOW) s].
Proof.
  intros tokenizer max_tokens s Hs Hlong Hover.
  assert (Hleb : (Budget.count_tokens tokenizer s <=? max_tokens) = false)
    by now apply Nat.leb_gt.
  assert (Hne : is_empty s = false).
  { destruct s; [|reflexivity]. simpl in Hlong. lia. }
  assert (Hsplit : Budget.hard_split s
                   = [Regex.drop (String.length s - Regex.CHAR_WINDOW) s]).
  { unfold Budget.hard_split, Regex.findall_windows.
    rewrite (findall_no_space Regex.CHAR_WINDOW
               (String.length s - Regex.CHAR_WINDOW) s Hs).
    - cbn [map filter].
      rewrite strip_no_space by now apply no_space_drop.
      assert (T : truthy (Regex.drop (String.length s - Regex.CHAR_WINDOW) s)
                  = true).
      { unfold truthy.
        destruct (Regex.drop (String.length s - Regex.CHAR_WINDOW) s) eqn:E;
          [|reflexivity].
        pose proof (drop_length (String.length s - Regex.CHAR_WINDOW) s) as D.
        rewrite E in D. simpl in D.
        assert (0 < Regex.CHAR_WINDOW)
          by (apply Nat.ltb_lt; vm_compute; reflexivity).
        lia. }
      rewrite T. reflexivity.
    - apply Nat.leb_le. vm_compute. reflexivity.
    - lia. }
  unfold Budget.re_chunk_if_oversize. cbn [fold_left].
  unfold Budget.add_section.
  rewrite (strip_no_space s Hs), Hne, Hleb.
  unfold Regex.re_split_sentences. rewrite (re_split_no_space _ s Hs).
  cbn [fold_left]. unfold Budget.add_part at 1.
  cbn [truthy is_empty negb String.append]. rewrite Hleb.
  rewrite (strip_no_space s Hs). unfold truthy. rewrite Hne.
  cbn [negb app]. unfold Budget.recheck. cbn [flat_map]. rewrite Hleb, Hsplit.
  reflexivity.
Qed.

Lemma C6_witness :
  Budget.re_chunk_if_oversize (Some three_per_char) [long_word] Budget.MAX_TOKENS
  = [Regex.drop (String.length long_word - Regex.CHAR_WINDOW) long_word].
Proof.
  apply (C6_long_word_loses_text (Some three_per_char) Budget.MAX_TOKENS
                                 long_word).
  - vm_compute. reflexivity.
  - apply Nat.ltb_lt. vm_compute. reflexivity.
  - apply Nat.ltb_lt. vm_compute. reflexivity.
Defined.

(** The chunk that comes back is the word without its first letter. *)
Example long_word_first_letter_lost :
  Budget.re_chunk_if_oversize (Some three_per_char) [long_word] Budget.MAX_TOKENS
  = [repeat_char "a" 3000].
Proof. vm_compute. reflexivity. Qed.

(* ================================================================== *)
(** * Further properties of the token budgeter *)
(* ================================================================== *)

Lemma rstrip_rstrip (s : string) : rstrip (rstrip s) = rstrip s.
Proof.
  induction s as [|c s IH]; [reflexivity|]. cbn [rstrip].
  destruct (is_empty (rstrip s) && isspace c) eqn:E; [reflexivity|].
  cbn [rstrip]. now rewrite IH, E.
Qed.

Lemma lstrip_shape (s : string) :
  lstrip s = "" \/ starts_with_text (lstrip s).
Proof.
  induction s as [|c s IH]; [now left|]. cbn [lstrip].
  destruct (isspace c) eqn:E; [exact IH | right; exact E].
Qed.

Lemma lstrip_starts_with_text (s : string) :
  starts_with_text s -> lstrip s = s.
Proof. destruct s as [|c s]; [contradiction|]. apply lstrip_head. Qed.

Lemma rstrip_starts_with_text (s : string) :
  starts_with_text s -> starts_with_text (rstrip s).
Proof.
  destruct s as [|c s]; [contradiction|]. cbn [rstrip starts_with_text].
  intros H. now rewrite H, andb_false_r.
Qed.

Lemma strip_strip (s : string) : strip (strip s) = strip s.
Proof.
  unfold strip. destruct (lstrip_shape s) as [-> | H]; [reflexivity|].
  rewrite (lstrip_starts_with_text (rstrip (lstrip s)))
    by now apply rstrip_starts_with_text.
  apply rstrip_rstrip.
Qed.

Lemma starts_with_text_not_empty (s : string) :
  starts_with_text s -> is_empty s = false.
Proof. now destruct s. Qed.

(** Text that starts with a non-blank character strips to a clean chunk. *)
Lemma clean_strip_of_text (s : string) : starts_with_text s -> clean (strip s).
Proof.
  intros H. split; [|apply strip_strip].
  apply starts_with_text_not_empty. unfold strip.
  rewrite lstrip_starts_with_text by assumption.
  now apply rstrip_starts_with_text.
Qed.

Lemma clean_strip_truthy (s : string) : truthy (strip s) = true -> clean (strip s).
Proof.
  intros H. split; [|apply strip_strip].
  unfold truthy in H. now apply negb_true_iff in H.
Qed.

Lemma lstrip_length (s : string) : String.length (lstrip s) <= String.length s.
Proof.
  induction s as [|c s IH]; simpl; [lia|]. destruct (isspace c); simpl; lia.
Qed.

Lemma clean_starts_with_text (s : string) : clean s -> starts_with_text s.
Proof.
  intros [Hne Hs]. destruct s as [|c s]; [discriminate|].
  cbn [starts_with_text]. destruct (isspace c) eqn:E; [|reflexivity].
  exfalso. unfold strip in Hs. cbn [lstrip] in Hs. rewrite E in Hs.
  pose proof (rstrip_length (lstrip s)) as L1.
  pose proof (lstrip_length s) as L2.
  rewrite Hs in L1. simpl in L1. lia.
Qed.

Lemma clean_rstrip (s : string) : clean s -> rstrip s = s.
Proof.
  intros H. pose proof (clean_starts_with_text s H) as Ht.
  destruct H as [_ Hs]. unfold strip in Hs.
  now rewrite lstrip_starts_with_text in Hs.
Qed.

Lemma clean_intro (s : string) :
  starts_with_text s -> rstrip s = s -> clean s.
Proof.
  intros Ht Hr. split; [now apply starts_with_text_not_empty|].
  unfold strip. now rewrite lstrip_starts_with_text.
Qed.

Lemma rstrip_tail (c : ascii) (s : string) :
  rstrip (String c s) = String c s ->
  rstrip s = s /\ (isspace c = true -> is_empty s = false).
Proof.
  cbn [rstrip]. destruct (is_empty (rstrip s) && isspace c) eqn:E;
    [discriminate|].
  intros H. injection H as H. split; [exact H|].
  intros Hc. rewrite H, Hc, andb_true_r in E. exact E.
Qed.

Lemma re_split_not_nil (m : Regex.split_mode) (s : string) :
  exists h t, Regex.re_split_from m s = h :: t.
Proof.
  revert m. induction s as [|c s IH]; intros m; [now exists "", []|].
  cbn [Regex.re_split_from].
  destruct (isspace c).
  - destruct m.
    + destruct (IH Regex.Plain) as (h & t & ->). now exists (String c h), t.
    + now eexists _, _.
    + apply IH.
  - destruct (IH (if Regex.is_sentence_end c
                  then Regex.AfterPunct else Regex.Plain)) as (h & t & ->).
    now exists (String c h), t.
Qed.

Lemma re_split_plain_head (c : ascii) (s : string) :
  exists h t, Regex.re_split_from Regex.Plain (String c s) = String c h :: t.
Proof.
  cbn [Regex.re_split_from]. destruct (isspace c).
  - destruct (re_split_not_nil Regex.Plain s) as (h & t & ->).
    now exists h, t.
  - destruct (re_split_not_nil (if Regex.is_sentence_end c
                                then Regex.AfterPunct else Regex.Plain) s)
      as (h & t & ->).
    now exists h, t.
Qed.

(** The sentences cut from a text that ends on a non-blank character: none
    ends on whitespace, and every sentence after a separator starts on a
    non-blank character. *)
Lemma re_split_shape (s : string) (m : Regex.split_mode) :
  rstrip s = s ->
  (m = Regex.InSeparator -> is_empty s = false) ->
  Forall (fun p => rstrip p = p) (Regex.re_split_from m s)
  /\ Forall starts_with_text (tl (Regex.re_split_from m s))
  /\ (m = Regex.InSeparator ->
      starts_with_text (hd "" (Regex.re_split_from m s))).
Proof.
  revert m. induction s as [|c s IH]; intros m Hr Hm.
  - destruct m; try (specialize (Hm eq_refl); discriminate);
      (split; [repeat constructor | split; [constructor | discriminate]]).
  - apply rstrip_tail in Hr as [Hr Hc]. cbn [Regex.re_split_from].
    destruct (isspace c) eqn:Ec.
    + specialize (Hc eq_refl). destruct m.
      * (* Plain *)
        destruct s as [|c2 s2]; [discriminate|].
        destruct (IH Regex.Plain Hr) as (A & B & _); [discriminate|].
        destruct (re_split_plain_head c2 s2) as (h & t & E).
        rewrite E in *. cbn [cons_head tl] in *.
        inversion A as [|x l Ah At]; subst.
        split; [|split; [exact B | discriminate]].
        constructor; [|exact At]. cbn [rstrip].
        cbn [rstrip] in Ah.
        destruct (is_empty (rstrip h) && isspace c2) eqn:E2;
          [discriminate|].
        rewrite Ah. reflexivity.
      * (* AfterPunct *)
        destruct (IH Regex.InSeparator Hr (fun _ => Hc)) as (A & B & C).
        specialize (C eq_refl).
        destruct (re_split_not_nil Regex.InSeparator s) as (h & t & E).
        rewrite E in *. cbn [hd tl] in *.
        split; [|split; [|discriminate]].
        -- constructor; [reflexivity | exact A].
        -- constructor; assumption.
      * (* InSeparator *)
        apply IH; [exact Hr | intros _; exact Hc].
    + set (m' := if Regex.is_sentence_end c
                 then Regex.AfterPunct else Regex.Plain).
      assert (Hm' : m' = Regex.InSeparator -> is_empty s = false).
      { unfold m'. destruct (Regex.is_sentence_end c); discriminate. }
      destruct (IH m' Hr Hm') as (A & B & _).
      destruct (re_split_not_nil m' s) as (h & t & E).
      rewrite E in *. cbn [cons_head hd tl] in *.
      inversion A as [|x l Ah At]; subst.
      split; [|split; [exact B | intros _; exact Ec]].
      constructor; [|exact At]. cbn [rstrip].
      now rewrite Ah, Ec, andb_false_r.
Qed.

(** The sentences of a clean text are clean. *)
Lemma re_split_clean (s : string) :
  clean s -> Forall clean (Regex.re_split_sentences s).
Proof.
  intros Hs. pose proof (clean_starts_with_text s Hs) as Ht.
  pose proof (clean_rstrip s Hs) as Hr.
  unfold Regex.re_split_sentences.
  destruct (re_split_shape s Regex.Plain Hr) as (A & B & _); [discriminate|].
  destruct s as [|c s]; [contradiction|].
  destruct (re_split_plain_head c s) as (h & t & E).
  rewrite E in *. cbn [tl] in B.
  inversion A as [|x l Ah At]; subst.
  constructor.
  - apply clean_intro; [exact Ht | exact Ah].
  - apply Forall_forall. intros p Hp.
    apply clean_intro.
    + now apply (proj1 (Forall_forall _ _) B).
    + now apply (proj1 (Forall_forall _ _) At).
Qed.

Lemma hard_split_clean (chunk : string) : Forall clean (Budget.hard_split chunk).
Proof.
  unfold Budget.hard_split. apply Forall_forall. intros p Hp.
  apply filter_In in Hp as [Hp Ht].
  apply in_map_iff in Hp as (m & <- & _). now apply clean_strip_truthy.
Qed.

Lemma recheck_clean (tokenizer : option (string -> nat)) (max_tokens : nat)
      (chunks : list string) :
  Forall clean chunks ->
  Forall clean (Budget.recheck tokenizer max_tokens chunks).
Proof.
  intros H. unfold Budget.recheck. apply Forall_flat_map.
  apply Forall_forall. intros chunk Hin.
  destruct (Budget.count_tokens tokenizer chunk <=? max_tokens).
  - constructor; [|constructor]. now apply (proj1 (Forall_forall _ _) H).
  - apply hard_split_clean.
Qed.

Lemma starts_with_text_append (a b : string) :
  starts_with_text a -> starts_with_text (a ++ b).
Proof. now destruct a. Qed.

(** One turn of the loop over the sentences keeps the finished chunks
    clean and the chunk in progress empty or starting with text. *)
Lemma add_part_clean (tokenizer : option (string -> nat)) (max_tokens : nat)
      (st : list string * string) (part : string) :
  clean part ->
  Forall clean (fst st) ->
  (snd st = "" \/ starts_with_text (snd st)) ->
  Forall clean (fst (Budget.add_part tokenizer max_tokens st part))
  /\ (snd (Budget.add_part tokenizer max_tokens st part) = ""
      \/ starts_with_text (snd (Budget.add_part tokenizer max_tokens st part))).
Proof.
  destruct st as [final_chunks current]. cbn [fst snd].
  intros Hpart Hf Hc.
  pose proof (clean_starts_with_text part Hpart) as Htext.
  unfold Budget.add_part.
  destruct (Budget.count_tokens tokenizer _ <=? max_tokens); cbn [fst snd].
  - split; [exact Hf|]. right.
    destruct Hc as [-> | Hc]; [exact Htext|].
    now apply starts_with_text_append.
  - split; [|right; exact Htext].
    destruct Hc as [-> | Hc]; [exact Hf|].
    unfold truthy. rewrite (starts_with_text_not_empty _ Hc). cbn [negb].
    apply Forall_app. split; [exact Hf|].
    constructor; [now apply clean_strip_of_text | constructor].
Qed.

Lemma add_parts_clean (tokenizer : option (string -> nat)) (max_tokens : nat)
      (parts : list string) (st : list string * string) :
  Forall clean parts ->
  Forall clean (fst st) ->
  (snd st = "" \/ starts_with_text (snd st)) ->
  Forall clean (fst (fold_left (Budget.add_part tokenizer max_tokens) parts st))
  /\ (snd (fold_left (Budget.add_part tokenizer max_tokens) parts st) = ""
      \/ starts_with_text
           (snd (fold_left (Budget.add_part tokenizer max_tokens) parts st))).
Proof.
  revert st. induction parts as [|part parts IH]; intros st Hp Hf Hc;
    [now split|].
  inversion Hp as [|x l Hpart Hrest]; subst. cbn [fold_left].
  destruct (add_part_clean tokenizer max_tokens st part Hpart Hf Hc) as [A B].
  now apply IH.
Qed.

Lemma add_section_clean (tokenizer : option (string -> nat)) (max_tokens : nat)
      (final_chunks : list string) (section : string) :
  Forall clean final_chunks ->
  Forall clean (Budget.add_section tokenizer max_tokens final_chunks section).
Proof.
  intros Hf. unfold Budget.add_section.
  destruct (is_empty (strip section)) eqn:Hne; [exact Hf|].
  assert (Hsec : clean (strip section)) by (split; [exact Hne | apply strip_strip]).
  destruct (Budget.count_tokens tokenizer (strip section) <=? max_tokens).
  - apply Forall_app. split; [exact Hf |].
    constructor; [exact Hsec | constructor].
  - pose proof (add_parts_clean tokenizer max_tokens
                  (Regex.re_split_sentences (strip section))
                  (final_chunks, EmptyString)
                  (re_split_clean _ Hsec) Hf (or_introl eq_refl)) as [A _].
    destruct (fold_left (Budget.add_part tokenizer max_tokens)
                        (Regex.re_split_sentences (strip section))
                        (final_chunks, EmptyString)) as [chunks current].
    cbn [fst] in A. apply recheck_clean.
    destruct (truthy (strip current)) eqn:Ht; [|exact A].
    apply Forall_app. split; [exact A|].
    constructor; [now apply clean_strip_truthy | constructor].
Qed.

(** X1.  Whatever the tokenizer and the limit, [re_chunk_if_oversize]
    never returns an empty chunk nor one with whitespace at either end:
    blank sections are dropped, and every chunk is stripped. *)
Theorem rechunk_returns_clean_chunks :
  forall (tokenizer : option (string -> nat)) (sections : list string)
         (max_tokens : nat),
    Forall (fun chunk => is_empty chunk = false /\ strip chunk = chunk)
           (Budget.re_chunk_if_oversize tokenizer sections max_tokens).
Proof.
  intros tokenizer sections max_tokens. unfold Budget.re_chunk_if_oversize.
  assert (G : forall acc,
             Forall clean acc ->
             Forall clean (fold_left (Budget.add_section tokenizer max_tokens)
                                     sections acc)).
  { induction sections as [|sec rest IH]; intros acc Hacc; [exact Hacc|].
    cbn [fold_left]. apply IH. now apply add_section_clean. }
  apply G. constructor.
Qed.

(** X2.  When every section, once stripped, is within the limit, nothing
    is split: the result is the list of the stripped sections, in order,
    without the blank ones. *)
Theorem rechunk_keeps_sections_within_limit :
  forall (tokenizer : option (string -> nat)) (sections : list string)
         (max_tokens : nat),
    Forall (fun section =>
              Budget.count_tokens tokenizer (strip section) <= max_tokens)
           sections ->
    Budget.re_chunk_if_oversize tokenizer sections max_tokens
    = filter truthy (map strip sections).
Proof.
  intros tokenizer sections max_tokens H. unfold Budget.re_chunk_if_oversize.
  assert (G : forall acc,
             fold_left (Budget.add_section tokenizer max_tokens) sections acc
             = acc ++ filter truthy (map strip sections)).
  { induction H as [|sec rest Hsec Hrest IH]; intros acc.
    - simpl. now rewrite app_nil_r.
    - cbn [fold_left map filter]. rewrite IH. unfold Budget.add_section.
      replace (truthy (strip sec)) with (negb (is_empty (strip sec)))
        by reflexivity.
      destruct (is_empty (strip sec)); cbn [negb]; [reflexivity|].
      apply Nat.leb_le in Hsec. rewrite Hsec.
      now rewrite <- app_assoc. }
  apply (G []).
Qed.

Lemma rechunk_keeps_sections_witness :
  Budget.re_chunk_if_oversize None ["  one two "; "   "; "three"] 2
  = filter truthy (map strip ["  one two "; "   "; "three"]).
Proof.
  apply (rechunk_keeps_sections_within_limit None
           ["  one two "; "   "; "three"] 2).
  repeat constructor.
Defined.

(* ================================================================== *)
(** * Further properties of the executor and the resolver *)
(* ================================================================== *)

(* ------------------------------------------------------------------ *)
(** ** Batches *)

Lemma ceil_step (n : nat) : (S n + 9) / 10 = S ((S n - 10 + 9) / 10).
Proof.
  destruct (le_lt_dec 10 (S n)) as [H|H].
  - replace (S n + 9) with ((S n - 10 + 9) + 1 * 10) by lia.
    rewrite Nat.div_add by lia. lia.
  - replace (S n - 10) with 0 by lia.
    replace (S n + 9) with ((S n - 1) + 1 * 10) by lia.
    rewrite Nat.div_add by lia. rewrite Nat.div_small by lia. reflexivity.
Qed.

(** The first slice, then the slices of what is left. *)
Lemma batches_cons (x : entry) (l : list entry) :
  batches (x :: l)
  = firstn BATCH_SIZE (x :: l) :: batches (skipn BATCH_SIZE (x :: l)).
Proof.
  unfold batches. rewrite length_skipn.
  change (List.length (x :: l)) with (S (List.length l)).
  unfold BATCH_SIZE. change (10 - 1) with 9.
  rewrite ceil_step. rewrite <- cons_seq, <- seq_shift, map_cons, map_map.
  f_equal. apply map_ext. intros j. rewrite skipn_skipn. f_equal. f_equal.
  simpl. lia.
Qed.

(** X3.  The slices that [run_sync] sends to the store are a partition of
    the chunks of the file: put end to end they are the chunks, in
    order, none is empty and none is longer than [BATCH_SIZE]. *)
Theorem batches_partition_the_chunks :
  forall chunks : list entry,
    List.concat (batches chunks) = chunks
    /\ Forall (fun batch => 1 <= List.length batch <= BATCH_SIZE)
              (batches chunks).
Proof.
  intros chunks.
  assert (G : forall n l, List.length l <= n ->
                          List.concat (batches l) = l
                          /\ Forall (fun batch =>
                                       1 <= List.length batch <= BATCH_SIZE)
                                    (batches l)).
  { induction n as [|n IH]; intros l Hn.
    - destruct l; [|simpl in Hn; lia]. split; [reflexivity | constructor].
    - destruct l as [|x l]; [split; [reflexivity | constructor]|].
      rewrite batches_cons.
      destruct (IH (skipn BATCH_SIZE (x :: l))) as [Hc Hl].
      { rewrite length_skipn. unfold BATCH_SIZE. simpl in *. lia. }
      split.
      + cbn [List.concat]. rewrite Hc. apply firstn_skipn.
      + constructor; [|exact Hl].
        rewrite length_firstn. unfold BATCH_SIZE.
        change (List.length (x :: l)) with (S (List.length l)). lia. }
  now apply (G (List.length chunks)).
Qed.

(* ------------------------------------------------------------------ *)
(** ** Explicit files *)

(** X4.  A [--files] token [st:path] whose prefix has no colon and is,
    once stripped and upper-cased, one of A, M, D, gives the record of
    that status for [path] exactly as written: later colons and blanks
    of the path are kept. *)
Theorem parse_token_keeps_the_path :
  forall st path : string,
    free_of ":" st = true ->
    mem (upper (strip st)) STATUSES = true ->
    parse_token (st ++ ":" ++ path) = inr (upper (strip st), path).
Proof.
  intros st path Hfree Hst. unfold parse_token.
  change (st ++ ":" ++ path)%string with (st ++ String ":" path)%string.
  rewrite contains_colon.
  rewrite split_sep_field by (assumption || discriminate).
  cbn [option_map pred]. rewrite split_sep_zero. now rewrite Hst.
Qed.

Lemma parse_token_keeps_the_path_witness :
  parse_token " d:docs/a:b c.md" = inr ("D", "docs/a:b c.md").
Proof.
  apply (parse_token_keeps_the_path " d" "docs/a:b c.md"); reflexivity.
Defined.

(* ------------------------------------------------------------------ *)
(** ** What the resolver hands to the executor *)

Lemma bind_ok {S A B : Type} (m : M S A) (k : A -> M S B) (s s' : S) (b : B) :
  bind m k s = (s', Ok b) ->
  exists a s1, m s = (s1, Ok a) /\ k a s1 = (s', Ok b).
Proof.
  unfold bind. destruct (m s) as [s1 [a|e|c]]; intros H; try discriminate H.
  now exists a, s1.
Qed.

Lemma ret_ok {S A : Type} (a b : A) (s s' : S) :
  ret a s = (s', Ok b) -> s' = s /\ b = a.
Proof. unfold ret. intros H. injection H as <- <-. now split. Qed.

Lemma mem_In (x : string) (l : list string) : mem x l = true <-> In x l.
Proof.
  unfold mem. rewrite existsb_exists. split.
  - intros [y [Hy E]]. apply String.eqb_eq in E. now subst.
  - intros H. exists x. split; [exact H | apply String.eqb_refl].
Qed.

Lemma dedup_from_spec (seen xs : list string) :
  NoDup (dedup_from seen xs)
  /\ forall x, In x (dedup_from seen xs) -> In x xs /\ ~ In x seen.
Proof.
  revert seen. induction xs as [|x xs IH]; intros seen; simpl.
  - split; [constructor | intros x []].
  - destruct (mem x seen) eqn:E.
    + destruct (IH seen) as [N I]. split; [exact N|].
      intros y Hy. destruct (I y Hy). tauto.
    + destruct (IH (x :: seen)) as [N I]. split.
      * constructor; [|exact N]. intros Hx.
        destruct (I x Hx) as [_ Hn]. apply Hn. now left.
      * intros y [<-|Hy].
        -- split; [now left|]. intros Hin. apply mem_In in Hin. congruence.
        -- destruct (I y Hy) as [Hin Hn]. split; [now right|].
           intros Hs. apply Hn. now right.
Qed.

Lemma collect_forall {S A B : Type} (P : B -> Prop) (f : A -> M S (list B)) :
  (forall x s s' l, f x s = (s', Ok l) -> Forall P l) ->
  forall xs s s' l, collect f xs s = (s', Ok l) -> Forall P l.
Proof.
  intros Hf. induction xs as [|x xs IH]; intros s s' l H.
  - apply ret_ok in H as [_ ->]. constructor.
  - cbn [collect] in H.
    apply bind_ok in H as (here & s1 & H1 & H).
    apply bind_ok in H as (later & s2 & H2 & H).
    apply ret_ok in H as [_ ->]. apply Forall_app. split.
    + exact (Hf _ _ _ _ H1).
    + exact (IH _ _ _ H2).
Qed.

Lemma tracked_files_forall (P : string -> Prop) (keep : string -> bool)
      (rename : string -> string) (out : string) :
  (forall fp, P (rename fp)) -> Forall P (tracked_files keep rename out).
Proof.
  intros H. unfold tracked_files.
  induction (splitlines out) as [|fp rest IH]; [constructor|].
  cbn [flat_map]. apply Forall_app. split; [|exact IH].
  destruct (truthy (strip fp) && keep (strip fp)); repeat constructor.
  apply H.
Qed.

Lemma backslash_to_slash_free (s : string) :
  free_of "\" (backslash_to_slash s) = true.
Proof.
  unfold free_of, backslash_to_slash, replace_char.
  induction s as [|c s IH]; [reflexivity|].
  cbn [map_chars forallb_chars]. rewrite IH, andb_true_r.
  destruct (Ascii.eqb c "\") eqn:E; [reflexivity | now rewrite E].
Qed.

Lemma try_except_ok {S A : Type} (m : M S A) (h : string -> M S A)
      (s s' : S) (a : A) :
  try_except m h s = (s', Ok a) ->
  m s = (s', Ok a) \/ exists s1 e, m s = (s1, Raise e) /\ h e s1 = (s', Ok a).
Proof.
  unfold try_except. destruct (m s) as [s1 [x|e|c]]; intros H.
  - now left.
  - right. now exists s1, e.
  - discriminate H.
Qed.

Lemma journal_then_nothing (path : string) (fp : json) (op msg : string)
      (st : option string) (B : Type) (t t' : trace) (l : list B) :
  (append_error path fp op msg st ;; ret []) t = (t', Ok l) -> l = [].
Proof.
  intros H. apply bind_ok in H as (u & t1 & _ & H).
  now apply ret_ok in H as [_ ->].
Qed.

Lemma submodule_files_free (w : World) (repo_root errors_out sub_path : string)
      (t t' : trace) (l : list string) :
  submodule_files w repo_root errors_out sub_path t = (t', Ok l) ->
  Forall (fun fp => free_of "\" fp = true) l.
Proof.
  unfold submodule_files. intros H.
  apply bind_ok in H as (there & t0 & _ & H).
  destruct (negb there).
  - apply journal_then_nothing in H as ->. constructor.
  - apply try_except_ok in H as [H | (t1 & e & _ & H)].
    + apply bind_ok in H as (out & t1 & _ & H).
      apply ret_ok in H as [_ ->].
      apply tracked_files_forall. intros fp. apply backslash_to_slash_free.
    + apply journal_then_nothing in H as ->. constructor.
Qed.

(** The shape of what the enumeration returns. *)
Lemma reindex_all_shape (w : World) (repo_root errors_out : string)
      (t t' : trace) (recs : list (string * string)) :
  compute_reindex_all_files w repo_root errors_out t = (t', Ok recs) ->
  exists paths,
    recs = map (fun fp => ("A", fp)) paths
    /\ NoDup paths
    /\ Forall (fun fp => free_of "\" fp = true) paths.
Proof.
  unfold compute_reindex_all_files. intros H.
  apply bind_ok in H as (submodules & t1 & _ & H).
  apply bind_ok in H as (super_out & t2 & _ & H).
  apply bind_ok in H as (sub_files & t3 & Hsub & H).
  apply ret_ok in H as [_ ->].
  eexists. split; [reflexivity|]. split.
  - apply (dedup_from_spec [] _).
  - apply Forall_forall. intros fp Hin.
    apply (proj2 (dedup_from_spec [] _)) in Hin as [Hin _].
    revert fp Hin. apply Forall_forall, Forall_app. split.
    + apply tracked_files_forall. intros fp. apply backslash_to_slash_free.
    + apply (collect_forall _ _ (submodule_files_free w repo_root errors_out)
                            _ _ _ _ Hsub).
Qed.

(** X5.  Whatever git prints, the enumeration of reindex-all that
    returns gives records that are all additions, of paths that are
    pairwise distinct and written with forward slashes only. *)
Theorem reindex_all_lists_each_path_once :
  forall (w : World) (repo_root errors_out : string) (t t' : trace)
         (recs : list (string * string)),
    compute_reindex_all_files w repo_root errors_out t = (t', Ok recs) ->
    Forall (fun rec => fst rec = "A") recs
    /\ NoDup (map snd recs)
    /\ Forall (fun rec => free_of "\" (snd rec) = true) recs.
Proof.
  intros w repo_root errors_out t t' recs H.
  apply reindex_all_shape in H as (paths & -> & Hnd & Hfree).
  repeat split.
  - apply Forall_map, Forall_forall. now intros.
  - rewrite map_map, map_id. exact Hnd.
  - apply Forall_map. exact Hfree.
Qed.

Lemma reindex_all_lists_each_path_once_witness :
  let recs := [("A", "src/a.py"); ("A", "b.py")] in
  Forall (fun rec => fst rec = "A") recs
  /\ NoDup (map snd recs)
  /\ Forall (fun rec => free_of "\" (snd rec) = true) recs.
Proof.
  apply (reindex_all_lists_each_path_once messy_world "." "errors.jsonl" []
           [Git ["ls-files"] "."]).
  reflexivity.
Defined.

Lemma status_is_no_rename (st : string) :
  mem st STATUSES = true -> startswith "R" st = false.
Proof.
  intros H. apply mem_In in H.
  destruct H as [<-|[<-|[<-|[]]]]; reflexivity.
Qed.

Lemma parse_token_status (tok : string) (rec : string * string) :
  parse_token tok = inr rec -> mem (fst rec) STATUSES = true.
Proof.
  unfold parse_token. destruct (contains ":" tok).
  - destruct (split_sep ":" (Some 1) tok) as [|st [|path rest]];
      try discriminate.
    destruct (mem (upper (strip st)) STATUSES) eqn:E; [|discriminate].
    intros H. injection H as <-. exact E.
  - intros H. injection H as <-. reflexivity.
Qed.

Lemma parse_tokens_statuses (toks : list string) (recs : list (string * string)) :
  parse_tokens toks = inr recs ->
  Forall (fun rec => mem (fst rec) STATUSES = true) recs.
Proof.
  revert recs. induction toks as [|tok toks IH]; intros recs; simpl.
  - intros H. injection H as <-. constructor.
  - destruct (parse_token tok) as [e|rec] eqn:E; [discriminate|].
    destruct (parse_tokens toks) as [e|later]; [discriminate|].
    intros H. injection H as <-. constructor.
    + exact (parse_token_status tok rec E).
    + now apply IH.
Qed.

Lemma replay_line_statuses (w : World) (line : string) :
  Forall (fun rec : change => mem (fst rec) STATUSES = true)
         (replay_line w line).
Proof.
  unfold replay_line.
  destruct (json_loads w line) as [[| | | | | |members]|]; try constructor.
  set (status := match dict_get "status" members with
                 | Some v => if json_truthy v then v else JStr "M"
                 | None => JStr "M"
                 end).
  destruct status as [| | | |st| |]; try constructor.
  destruct (dict_get "file_path" members) as [v|]; [|constructor].
  destruct (json_truthy v); [|constructor].
  constructor; [|constructor]. cbn [fst].
  destruct (mem (upper st) STATUSES) eqn:E; [exact E | reflexivity].
Qed.

Lemma listing_line_no_rename (line : string) (recs : list (string * string)) :
  listing_line_changes line = inr recs ->
  Forall (fun rec => startswith "R" (fst rec) = false) recs.
Proof.
  unfold listing_line_changes.
  destruct (startswith "R" (nth_col 0 (split_ws (Some 2) line))) eqn:E.
  - destruct (3 <=? List.length (split_ws (Some 2) line)); [|discriminate].
    intros H. injection H as <-. now repeat constructor.
  - destruct (truthy _); intros H; injection H as <-; now repeat constructor.
Qed.

Lemma listing_changes_no_rename (lines : list string)
      (recs : list (string * string)) :
  listing_changes lines = inr recs ->
  Forall (fun rec => startswith "R" (fst rec) = false) recs.
Proof.
  revert recs. induction lines as [|line lines IH]; intros recs; simpl.
  - intros H. injection H as <-. constructor.
  - destruct (listing_line_changes line) as [e|here] eqn:E; [discriminate|].
    destruct (listing_changes lines) as [e|later]; [discriminate|].
    intros H. injection H as <-. apply Forall_app. split.
    + exact (listing_line_no_rename line here E).
    + now apply IH.
Qed.

Lemma as_changes_forall (P : string -> Prop) (l : list (string * string)) :
  Forall (fun rec => P (fst rec)) l ->
  Forall (fun rec : change => P (fst rec)) (as_changes l).
Proof.
  intros H. unfold as_changes. apply Forall_map.
  eapply Forall_impl; [|exact H]. now intros [st fp].
Qed.

Lemma of_result_ok {S A : Type} (r : string + A) (s s' : S) (a : A) :
  of_result r s = (s', Ok a) -> r = inr a.
Proof.
  destruct r as [e|x]; intros H; [discriminate H|].
  now apply ret_ok in H as [_ ->].
Qed.

(** X6.  In every input mode, the records that [main_entry] hands to
    the executor carry no rename status: a status never starts with R.
    With [--reindex-all], [--files] or [--retry-errors] every status is
    one of A, M, D. *)
Theorem resolve_returns_no_rename :
  forall (w : World) (args : Args) (t t' : trace) (recs : list change),
    resolve w args t = (t', Ok recs) ->
    Forall (fun rec => rename_status rec = false) recs
    /\ (reindex_all args = true \/ list_truthy (files args) = true
        \/ opt_truthy (retry_errors args) = true ->
        Forall (fun rec => mem (fst rec) STATUSES = true) recs).
Proof.
  intros w args t t' recs. unfold resolve, rename_status.
  assert (weaken : forall l : list change,
             Forall (fun rec => mem (fst rec) STATUSES = true) l ->
             Forall (fun rec => startswith "R" (fst rec) = false) l).
  { intros l. apply Forall_impl. intros rec. apply status_is_no_rename. }
  destruct (reindex_all args).
  { intros H. apply bind_ok in H as (found & t1 & Hfound & H).
    apply reindex_all_shape in Hfound as (paths & -> & _).
    assert (G : Forall (fun rec : change => mem (fst rec) STATUSES = true)
                       (as_changes (map (fun fp => ("A", fp)) paths))).
    { apply (as_changes_forall (fun st => mem st STATUSES = true)).
      apply Forall_map, Forall_forall. now intros. }
    destruct paths as [|p paths]; [discriminate H|].
    apply ret_ok in H as [_ ->]. split; [now apply weaken | now intros _]. }
  destruct (list_truthy (files args)).
  { intros H. apply bind_ok in H as (parsed & t1 & Hparsed & H).
    apply of_result_ok, parse_tokens_statuses in Hparsed.
    apply ret_ok in H as [_ ->].
    pose proof (as_changes_forall (fun st => mem st STATUSES = true) _ Hparsed)
      as G.
    split; [now apply weaken | now intros _]. }
  destruct (opt_truthy (retry_errors args)).
  { intros H. apply bind_ok in H as (on_disk & t0 & _ & H).
    destruct on_disk; [|discriminate H].
    apply bind_ok in H as (text & t1 & _ & H).
    apply ret_ok in H as [_ ->].
    assert (G : Forall (fun rec : change => mem (fst rec) STATUSES = true)
                       (flat_map (replay_line w) (splitlines text))).
    { induction (splitlines text) as [|line rest IH]; [constructor|].
      cbn [flat_map]. apply Forall_app. split; [|exact IH].
      apply replay_line_statuses. }
    split; [now apply weaken | now intros _]. }
  intros H. split; [|intros [E|[E|E]]; discriminate E].
  apply bind_ok in H as ([from_rev to_rev] & t1 & _ & H).
  destruct (truthy from_rev).
  { apply bind_ok in H as (changes & t2 & _ & H).
    apply ret_ok in H as [_ ->].
    apply (as_changes_forall (fun st => startswith "R" st = false)).
    unfold drop_unexpanded_renames. apply Forall_forall. intros rec Hin.
    apply filter_In in Hin as [_ Hin]. now apply negb_true_iff in Hin. }
  destruct (opt_truthy (changed_files args)); [|discriminate H].
  apply bind_ok in H as (text & t2 & _ & H).
  apply bind_ok in H as (listed & t3 & Hlisted & H).
  apply ret_ok in H as [_ ->].
  apply of_result_ok, listing_changes_no_rename in Hlisted.
  now apply (as_changes_forall (fun st => startswith "R" st = false)).
Qed.

Lemma resolve_returns_no_rename_witness :
  let recs := [("D", JStr "old.md"); ("M", JStr "new.md")] in
  Forall (fun rec : change => rename_status rec = false) recs
  /\ (false = true \/ false = true \/ false = true ->
      Forall (fun rec : change => mem (fst rec) STATUSES = true) recs).
Proof.
  apply (resolve_returns_no_rename rename_world
           (mkArgs None None None "errors.jsonl" (Some "abc1234") "HEAD" "."
                   false false)
           []
           [Git ["diff"; "--name-status"; "abc1234"; "HEAD"] ".";
            Git ["diff"; "--submodule=short"; "abc1234"; "HEAD"] "."]).
  reflexivity.
Defined.

(* ------------------------------------------------------------------ *)
(** ** Submodules of a commit range *)

Lemma run_git_ok (w : World) (args : list string) (cwd out : string)
      (t : trace) :
  git w t args cwd = inr out ->
  _run_git w args cwd t = (t ++ [Git args cwd], Ok out).
Proof. intros H. unfold _run_git, try_except, call. now rewrite H. Qed.

Lemma emits_one (P : event -> Prop) (t : trace) (ev : event) :
  P ev -> emits P t (t ++ [ev]).
Proof. intros H. exists [ev]. split; [reflexivity | now constructor]. Qed.

(** A git call whose failure is journaled always returns. *)
Lemma journaled_git_returns (w : World) (B : Type) (args : list string)
      (cwd sub_path : string) (f : string -> list B) (t : trace) :
  exists t' l,
    try_except
      (out <- _run_git w args cwd ;; ret (f out))
      (fun e => append_error SUBMODULE_ERRORS (JStr sub_path)
                             "diff-submodule" e None ;;
                ret [])
      t = (t', Ok l)
    /\ emits range_event t t'.
Proof.
  unfold try_except, bind, _run_git, try_except, call, raise, ret, append_error.
  destruct (git w t args cwd) as [e|out].
  - eexists _, []. split; [reflexivity|].
    eapply emits_trans; apply emits_one; cbn; auto.
  - eexists _, (f out). split; [reflexivity|]. now apply emits_one.
Qed.

(** The same with the look at the directory that chooses the command:
    its failure is journaled as well. *)
Lemma guarded_git_returns (w : World) (B : Type) (p : string)
      (args1 args2 : list string) (cwd sub_path : string)
      (f : string -> list B) (t : trace) :
  exists t' l,
    try_except
      (out <- (there <- is_dir w p ;;
               if there then _run_git w args1 cwd else _run_git w args2 cwd) ;;
       ret (f out))
      (fun e => append_error SUBMODULE_ERRORS (JStr sub_path)
                             "diff-submodule" e None ;;
                ret [])
      t = (t', Ok l)
    /\ emits range_event t t'.
Proof.
  unfold is_dir.
  destruct (path_kind w p); run_guards; try apply journaled_git_returns.
  eexists _, []. split; [reflexivity|]. apply emits_one. cbn. auto.
Qed.

Lemma submodule_changes_returns (w : World) (repo_root : string)
      (sub : string * string * string) (t : trace) :
  exists t' l,
    submodule_changes w repo_root sub t = (t', Ok l)
    /\ emits range_event t t'.
Proof.
  destruct sub as [[sub_path oldsha] newsha]. unfold submodule_changes.
  destruct (null_sha oldsha); [|destruct (null_sha newsha)];
    apply guarded_git_returns.
Qed.

Lemma collect_returns {A B : Type} (P : event -> Prop)
      (f : A -> W (list B)) :
  (forall x t, exists t' l, f x t = (t', Ok l) /\ emits P t t') ->
  forall xs t, exists t' l, collect f xs t = (t', Ok l) /\ emits P t t'.
Proof.
  intros Hf. induction xs as [|x xs IH]; intros t.
  - exists t, []. split; [reflexivity | apply emits_refl].
  - destruct (Hf x t) as (t1 & here & H1 & E1).
    destruct (IH t1) as (t2 & later & H2 & E2).
    exists t2, (here ++ later). split; [|now apply emits_trans with t1].
    cbn [collect]. unfold bind. now rewrite H1, H2.
Qed.

(** X7.  A commit range is resolved whenever the two git calls in the
    superproject succeed, whatever fails in the submodules: the result
    starts with the records of the superproject; nothing is called but
    git and the journal, and the journal is always the one at
    [chat/.vector_sync_errors.jsonl], with operation "diff-submodule". *)
Theorem submodule_failures_do_not_stop_the_resolution :
  forall (w : World) (repo_root from_rev to_rev : string) (t : trace)
         (super_out sub_out : string),
    git w t ["diff"; "--name-status"; from_rev; to_rev] repo_root
    = inr super_out ->
    git w (t ++ [Git ["diff"; "--name-status"; from_rev; to_rev] repo_root])
        ["diff"; "--submodule=short"; from_rev; to_rev] repo_root
    = inr sub_out ->
    exists t' sub_changes,
      compute_changes_from_git w repo_root from_rev to_rev t
      = (t', Ok (flat_map superproject_line_changes (splitlines super_out)
                 ++ sub_changes))
      /\ emits range_event t t'.
Proof.
  intros w repo_root from_rev to_rev t super_out sub_out Hsuper Hsub.
  unfold compute_changes_from_git.
  destruct (collect_returns range_event (submodule_changes w repo_root)
              (submodule_changes_returns w repo_root)
              (_parse_submodule_short sub_out)
              ((t ++ [Git ["diff"; "--name-status"; from_rev; to_rev] repo_root])
                 ++ [Git ["diff"; "--submodule=short"; from_rev; to_rev] repo_root]))
    as (t' & sub_changes & Hcollect & Hemits).
  exists t', sub_changes. split.
  - unfold bind at 1. rewrite (run_git_ok _ _ _ _ _ Hsuper).
    unfold bind at 1. rewrite (run_git_ok _ _ _ _ _ Hsub).
    unfold bind. now rewrite Hcollect.
  - eapply emits_trans; [|exact Hemits].
    eapply emits_trans; apply emits_one; exact I.
Qed.

Lemma submodule_failures_do_not_stop_the_resolution_witness :
  exists t' sub_changes,
    compute_changes_from_git broken_submodule_world "." "abc1234" "HEAD" []
    = (t', Ok (flat_map superproject_line_changes
                        (splitlines ("M" ++ tab ++ "a.py" ++ newline))
               ++ sub_changes))
    /\ emits range_event [] t'.
Proof.
  apply (submodule_failures_do_not_stop_the_resolution broken_submodule_world
           "." "abc1234" "HEAD" []
           ("M" ++ tab ++ "a.py" ++ newline)
           ("Submodule team 1234567..89abcde:" ++ newline));
    reflexivity.
Defined.

(* ------------------------------------------------------------------ *)
(** ** Lines of a changed-files listing *)

(** X8.  In a changed-files listing, the path of a line that is not a
    rename ends at its first whitespace: what follows is not part of
    the record. *)
Theorem listing_path_ends_at_whitespace :
  forall (st path rest : string) (c1 c2 : ascii),
    is_empty st = false -> no_space st = true ->
    startswith "R" st = false ->
    is_empty path = false -> no_space path = true ->
    isspace c1 = true -> isspace c2 = true ->
    listing_line_changes (st ++ String c1 (path ++ String c2 rest))
    = inr [(st, path)].
Proof.
  intros st path rest c1 c2 Hst1 Hst2 HR Hp1 Hp2 Hc1 Hc2.
  unfold listing_line_changes.
  rewrite split_ws_word by (assumption || discriminate).
  cbn [option_map pred].
  rewrite split_ws_skip by (assumption || discriminate).
  rewrite split_ws_word by (assumption || discriminate).
  cbn [option_map pred nth_col nth List.length]. rewrite HR.
  cbn [Nat.ltb Nat.leb]. unfold truthy. now rewrite Hp1.
Qed.

Lemma listing_path_ends_at_whitespace_witness :
  listing_line_changes ("M" ++ String TAB ("my" ++ String " " "notes.md"))
  = inr [("M", "my")].
Proof.
  apply (listing_path_ends_at_whitespace "M" "my" "notes.md" TAB " ");
    reflexivity.
Defined.

(* ------------------------------------------------------------------ *)
(** ** Calls that a run never makes *)

Ltac keeps_walk refl trans leaf :=
  repeat first
    [ leaf
    | apply keeps_ret; apply refl
    | apply keeps_raise; apply refl
    | apply keeps_sys_exit; apply refl
    | apply keeps_of_result; apply refl
    | apply keeps_bind; [apply trans | | intro]
    | apply keeps_try_except; [apply trans | | intro]
    | apply keeps_for_each; [apply refl | apply trans | intro]
    | match goal with
      | |- keeps _ (if ?b then _ else _) => destruct b
      | |- keeps _ (match ?x with _ => _ end) => destruct x
      end ].

Lemma keeps_collect_emits {A B : Type} (P : event -> Prop)
      (f : A -> W (list B)) (xs : list A) :
  (forall x, keeps (emits P) (f x)) -> keeps (emits P) (collect f xs).
Proof.
  intros Hf. induction xs as [|x rest IH]; simpl.
  - apply keeps_ret, emits_refl.
  - apply keeps_bind; [apply emits_trans | apply Hf | intros here].
    apply keeps_bind; [apply emits_trans | apply IH | intros later].
    apply keeps_ret, emits_refl.
Qed.

Lemma keeps_finish (P : event -> Prop) (repo_name : string) :
  keeps (emits_in P) (finish repo_name).
Proof.
  intros s. unfold finish. destruct (failures s); apply emits_in_refl.
Qed.

Ltac no_wipe_leaf :=
  first
    [ apply keeps_call; exact I
    | apply keeps_append_error; intros; exact I
    | apply keeps_collect_emits; intro
    | apply keeps_lift
    | apply keeps_finish
    | apply keeps_modify; intros; apply emits_in_same_calls; reflexivity ].

Ltac no_wipe_walk :=
  keeps_walk (emits_refl no_wipe) (emits_trans no_wipe) no_wipe_leaf.

Ltac no_wipe_walk_in :=
  keeps_walk (emits_in_refl no_wipe) (emits_in_trans no_wipe) no_wipe_leaf.

Lemma no_wipe_resolve (w : World) (args : Args) :
  keeps (emits no_wipe) (resolve w args).
Proof.
  unfold resolve, compute_reindex_all_files, compute_changes_from_git,
    _get_submodule_paths, of_result.
  no_wipe_walk; unfold submodule_files, submodule_changes, _run_git;
    no_wipe_walk.
Qed.

Lemma no_wipe_init_clients (w : World) :
  keeps (emits no_wipe) (init_clients w).
Proof. unfold init_clients. no_wipe_walk. Qed.

Lemma no_wipe_process_record (w : World)
      (errors_out repo_name commit_sha : string) (rec : change) :
  keeps (emits_in no_wipe)
        (process_record w false errors_out repo_name commit_sha rec).
Proof.
  destruct rec as [status filepath].
  unfold process_record, process_record_body, chunk_and_upsert, upsert_batch,
    record_failure.
  no_wipe_walk_in;
    unfold safe_delete_vectors, safe_upsert_batch; no_wipe_walk.
Qed.

(** X9.  Without [--reindex-all] a run never asks the store to delete
    the whole namespace, whatever the inputs and whatever fails. *)
Theorem no_wipe_without_reindex_all :
  forall (w : World) (args : Args) (s : sync_state),
    reindex_all args = false ->
    exists new,
      calls (fst (main_entry w args s)) = calls s ++ new
      /\ ~ In StoreDeleteAll new.
Proof.
  intros w args s Hflag.
  assert (K : keeps (emits_in no_wipe) (main_entry w args)).
  { unfold main_entry. rewrite Hflag. cbn [andb].
    unfold run_sync, setup, run_records.
    no_wipe_walk_in.
    - apply no_wipe_resolve.
    - apply no_wipe_init_clients.
    - apply no_wipe_process_record. }
  destruct (K s) as (new & Hnew & Hall). exists new. split; [exact Hnew|].
  intros Hin. rewrite Forall_forall in Hall. exact (Hall _ Hin).
Qed.

Lemma no_wipe_without_reindex_all_witness :
  exists new,
    calls (fst (main_entry one_file_world
                  (mkArgs None (Some ["a.py"]) None "errors.jsonl" None
                          "HEAD" "." false false)
                  (initial_state [])))
    = calls (initial_state []) ++ new
    /\ ~ In StoreDeleteAll new.
Proof.
  apply (no_wipe_without_reindex_all one_file_world
           (mkArgs None (Some ["a.py"]) None "errors.jsonl" None
                   "HEAD" "." false false)
           (initial_state [])).
  reflexivity.
Defined.

(* ------------------------------------------------------------------ *)
(** ** What a run reports *)

Lemma sent_app (a b : trace) : sent (a ++ b) = sent a ++ sent b.
Proof. apply flat_map_app. Qed.

Lemma batch_ids_app (a b : list entry) :
  batch_ids (a ++ b) = batch_ids a ++ batch_ids b.
Proof.
  induction a as [|e a IH]; [reflexivity|]. simpl.
  destruct (entry_id e); simpl; now rewrite IH.
Qed.

Lemma reported_refl (s : sync_state) : reported s s.
Proof.
  exists [], []. rewrite !app_nil_r. repeat split; try lia.
  intros x [].
Qed.

Lemma reported_trans (a b c : sync_state) :
  reported a b -> reported b c -> reported a c.
Proof.
  intros (n1 & i1 & C1 & U1 & I1 & L1 & T1) (n2 & i2 & C2 & U2 & I2 & L2 & T2).
  exists (n1 ++ n2), (i1 ++ i2). repeat split.
  - now rewrite C2, C1, app_assoc.
  - now rewrite U2, U1, app_assoc.
  - rewrite sent_app, batch_ids_app. apply incl_app.
    + now apply incl_appl.
    + now apply incl_appr.
  - lia.
  - rewrite sent_app, length_app. lia.
Qed.

(** A step that only adds calls other than upserts, or none. *)
Lemma reported_quiet (s s' : sync_state) :
  (exists new, calls s' = calls s ++ new) ->
  upserted_ids s' = upserted_ids s ->
  total_upserted s' = total_upserted s ->
  reported s s'.
Proof.
  intros [new C] U T. exists new, []. rewrite app_nil_r.
  repeat split; try assumption; try lia. intros x [].
Qed.

Lemma reported_lift {A : Type} (m : W A) :
  keeps (emits any_event) m -> keeps reported (lift m).
Proof.
  intros Hm s. specialize (Hm (calls s)). unfold lift.
  destruct (m (calls s)) as [t r]. destruct Hm as (new & Hnew & _).
  apply reported_quiet; [now exists new | reflexivity | reflexivity].
Qed.

Lemma reported_counter (f : sync_state -> sync_state) :
  (forall s, calls (f s) = calls s
             /\ upserted_ids (f s) = upserted_ids s
             /\ total_upserted (f s) = total_upserted s) ->
  keeps reported (modify f).
Proof.
  intros H s. destruct (H s) as (C & U & T).
  apply reported_quiet; [exists []; now rewrite app_nil_r | exact U | exact T].
Qed.

Ltac any_event_leaf :=
  first
    [ apply keeps_call; exact I
    | apply keeps_append_error; intros; exact I ].

Ltac any_event_walk :=
  keeps_walk (emits_refl any_event) (emits_trans any_event) any_event_leaf.

Ltac reported_leaf :=
  first
    [ apply reported_lift
    | apply reported_counter; intros; repeat split; reflexivity ].

Ltac reported_walk :=
  keeps_walk reported_refl reported_trans reported_leaf.

Lemma reported_record_failure (errors_out : string) (fp : json)
      (op status msg : string) :
  keeps reported (record_failure errors_out fp op status msg).
Proof. unfold record_failure. reported_walk. any_event_walk. Qed.

(** One batch: its ids are reported only after it was sent. *)
Lemma reported_upsert_batch (w : World)
      (errors_out repo_name status fp : string) (batch : list entry) :
  keeps reported (upsert_batch w errors_out repo_name status fp batch).
Proof.
  intros s. unfold upsert_batch, try_except.
  destruct ((upserted_count <- lift (safe_upsert_batch w batch repo_name) ;;
             modify (add_upserted upserted_count (batch_ids batch))) s)
    as [s1 r] eqn:E.
  assert (R : reported s s1).
  { revert E. unfold bind, lift, safe_upsert_batch.
    destruct (find empty_content batch).
    - intros E. injection E as <- <-.
      apply reported_quiet; [exists []; cbn; now rewrite app_nil_r | |];
        reflexivity.
    - unfold bind, call, ret, modify.
      destruct (unit_answer (index_upsert w (calls s) batch)) as [e|[]];
        intros E; injection E as <- <-.
      + apply reported_quiet; [now exists [StoreUpsert batch] | |]; reflexivity.
      + exists [StoreUpsert batch], (batch_ids batch). cbn.
        rewrite app_nil_r. repeat split; try lia. apply incl_refl. }
  destruct r as [u|e|c]; cbn [fst]; try exact R.
  eapply reported_trans; [exact R | apply reported_record_failure].
Qed.

Lemma reported_process_record (w : World) (wipe_first : bool)
      (errors_out repo_name commit_sha : string) (rec : change) :
  keeps reported
        (process_record w wipe_first errors_out repo_name commit_sha rec).
Proof.
  destruct rec as [status filepath].
  unfold process_record, process_record_body, chunk_and_upsert.
  keeps_walk reported_refl reported_trans
             ltac:(first [ apply reported_upsert_batch
                         | apply reported_record_failure
                         | reported_leaf ]);
    unfold safe_delete_vectors; any_event_walk.
Qed.

Lemma setup_grows (w : World) (wipe_first : bool) :
  keeps (emits_in any_event) (setup w wipe_first).
Proof.
  unfold setup, init_clients, wipe_namespace.
  keeps_walk (emits_in_refl any_event) (emits_in_trans any_event)
             ltac:(apply keeps_lift); any_event_walk.
Qed.

(** X10.  A run that ends normally reports only ids of entries that it
    sent to the store during that run, and counts no more upserted
    chunks than it sent; earlier runs leave nothing in the report. *)
Theorem reported_ids_were_sent :
  forall (w : World) (files_to_process : list change)
         (errors_out repo_root : string) (wipe_first : bool)
         (s s' : sync_state) (result : run_result),
    run_sync w files_to_process errors_out repo_root wipe_first s
    = (s', Ok result) ->
    exists new,
      calls s' = calls s ++ new
      /\ incl (res_upserted_ids result) (batch_ids (sent new))
      /\ total_upserted s' <= List.length (sent new).
Proof.
  intros w recs errors_out repo_root wipe_first s s' result H.
  unfold run_sync, run_records in H.
  apply bind_ok in H as ([] & s1 & Hsetup & H).
  apply bind_ok in H as ([] & s2 & Hreset & H).
  apply bind_ok in H as ([] & s3 & Hloop & H).
  pose proof (setup_grows w wipe_first s) as (new0 & Hnew0 & _).
  rewrite Hsetup in Hnew0. cbn [fst] in Hnew0.
  unfold modify in Hreset. injection Hreset as <-.
  assert (R : reported (initial_state (calls s1)) s3).
  { unfold sync_loop in Hloop.
    pose proof (keeps_for_each reported reported_refl reported_trans
                  (process_record w wipe_first errors_out
                                  (compute_repo_name w repo_root)
                                  (compute_commit_sha w))
                  recs
                  (reported_process_record w wipe_first errors_out _ _)
                  (initial_state (calls s1))) as K.
    now rewrite Hloop in K. }
  destruct R as (new & ids & C & U & I & _ & T).
  unfold finish in H. destruct (failures s3); [|discriminate H].
  injection H as <- <-. cbn in C, U, T |- *.
  exists (new0 ++ new). repeat split.
  - now rewrite C, Hnew0, app_assoc.
  - rewrite U, sent_app, batch_ids_app. now apply incl_appr.
  - rewrite sent_app, length_app. lia.
Qed.

Lemma reported_ids_were_sent_witness :
  let run := run_sync one_file_world [("A", JStr "a.py")] "errors.jsonl" "."
                      false (initial_state []) in
  exists new,
    calls (fst run) = calls (initial_state []) ++ new
    /\ incl ["id-a.py"] (batch_ids (sent new))
    /\ total_upserted (fst run) <= List.length (sent new).
Proof.
  intros run.
  apply (reported_ids_were_sent one_file_world [("A", JStr "a.py")]
           "errors.jsonl" "." false (initial_state []) (fst run)
           (mkResult "" "." ["id-a.py"])).
  reflexivity.
Defined.

(* ------------------------------------------------------------------ *)
(** ** Failures inside the turn of one file *)

(** X11.  When the delete that precedes the indexing of an added or
    modified file fails, for another reason than a namespace that does
    not exist yet, the file is left as it was: nothing is chunked,
    embedded or upserted for it; the failure is counted and journaled
    with operation "process", and the loop goes on. *)
Theorem failed_pre_delete_leaves_the_file_untouched :
  forall (w : World) (errors_out repo_name commit_sha status fp msg : string)
         (s : sync_state),
    path_kind w fp = RegularFile ->
    status = "A" \/ status = "M" ->
    index_delete w (calls s) repo_name fp = Some msg ->
    namespace_absent msg = false ->
    process_record w false errors_out repo_name commit_sha (status, JStr fp) s
    = (mkState
         (calls s ++ [StoreDelete repo_name fp;
                      JournalAppend errors_out
                        (mkError (JStr fp) "process" msg (Some status))])
         (processed s) (S (errors s)) (skipped s)
         (failures s ++ [mkError (JStr fp) "process" msg (Some status)])
         (deleted_files s) (upserted_ids s) (total_upserted s),
       Ok tt).
Proof.
  intros w errors_out repo_name commit_sha status fp msg s Hkind Hst Hdel Habs.
  assert (Hd : String.eqb status "D" = false)
    by (destruct Hst as [-> | ->]; reflexivity).
  assert (Hm : mem status ["A"; "M"] = true)
    by (destruct Hst as [-> | ->]; reflexivity).
  assert (Ht : truthy status = true)
    by (destruct Hst as [-> | ->]; reflexivity).
  unfold process_record.
  rewrite (body_of_regular_file w errors_out repo_name commit_sha false
                                status fp Hkind Hd), Hm.
  cbn [negb andb]. rewrite try_except_bind, delete_step, Hdel, Habs.
  rewrite record_failure_run, Ht. cbn. now rewrite <- app_assoc.
Qed.

Lemma failed_pre_delete_leaves_the_file_untouched_witness :
  process_record outage_world false "errors.jsonl" "repo" "sha"
                 ("M", JStr "a.py") (initial_state [])
  = (mkState
       [StoreDelete "repo" "a.py";
        JournalAppend "errors.jsonl"
          (mkError (JStr "a.py") "process" "503 Service Unavailable" (Some "M"))]
       0 1 0
       [mkError (JStr "a.py") "process" "503 Service Unavailable" (Some "M")]
       0 [] 0,
     Ok tt).
Proof.
  apply (failed_pre_delete_leaves_the_file_untouched outage_world
           "errors.jsonl" "repo" "sha" "M" "a.py" "503 Service Unavailable"
           (initial_state []));
    solve [reflexivity | now right].
Defined.

Lemma upserts_app (a b : trace) : upserts (a ++ b) = upserts a ++ upserts b.
Proof. apply flat_map_app. Qed.

Lemma upsert_batch_step (w : World) (errors_out repo_name status fp : string)
      (batch : list entry) (s : sync_state) :
  exists s' new,
    upsert_batch w errors_out repo_name status fp batch s = (s', Ok tt)
    /\ calls s' = calls s ++ new
    /\ processed s' = processed s
    /\ upserts new = if valid_batch batch then [batch] else [].
Proof.
  unfold upsert_batch, try_except, bind, lift, safe_upsert_batch, valid_batch.
  destruct (find empty_content batch).
  - cbn. eexists _, _. split; [reflexivity|]. cbn.
    split; [reflexivity|]. split; reflexivity.
  - unfold bind, call, ret.
    destruct (unit_answer (index_upsert w (calls s) batch)) as [e|[]]; cbn.
    + eexists _, _. split; [reflexivity|]. cbn.
      split; [now rewrite <- app_assoc|]. split; reflexivity.
    + eexists _, _. split; [reflexivity|]. cbn.
      split; [reflexivity|]. split; reflexivity.
Qed.

Lemma upsert_batches_run (w : World) (errors_out repo_name status fp : string)
      (bs : list (list entry)) (s : sync_state) :
  exists s' new,
    for_each (upsert_batch w errors_out repo_name status fp) bs s = (s', Ok tt)
    /\ calls s' = calls s ++ new
    /\ processed s' = processed s
    /\ upserts new = filter valid_batch bs.
Proof.
  revert s. induction bs as [|b bs IH]; intros s.
  - exists s, []. rewrite app_nil_r. now repeat split.
  - destruct (upsert_batch_step w errors_out repo_name status fp b s)
      as (s1 & n1 & H1 & C1 & P1 & V1).
    destruct (IH s1) as (s2 & n2 & H2 & C2 & P2 & V2).
    exists s2, (n1 ++ n2). cbn [for_each]. unfold bind. rewrite H1, H2.
    repeat split.
    + now rewrite C2, C1, app_assoc.
    + congruence.
    + rewrite upserts_app, V1, V2. cbn [filter].
      now destruct (valid_batch b).
Qed.

(** X12.  Once a file is chunked and embedded, the slices of its
    entries that are sent to the store are exactly those that pass the
    validation, in order, whatever happened to the slices before them;
    and the file counts as processed, once, even when slices failed. *)
Theorem every_valid_batch_is_sent :
  forall (w : World) (errors_out repo_name commit_sha status fp : string)
         (s : sync_state) (chunks : list entry),
    process_file w (calls s) fp status repo_name commit_sha = inr chunks ->
    exists s' new,
      chunk_and_upsert w errors_out repo_name commit_sha status fp s
      = (s', Ok tt)
      /\ calls s' = calls s ++ ProcessFile fp status :: new
      /\ processed s' = S (processed s)
      /\ upserts new = filter valid_batch (batches chunks).
Proof.
  intros w errors_out repo_name commit_sha status fp s chunks Hfile.
  unfold chunk_and_upsert, bind at 1, lift, call. rewrite Hfile.
  destruct (upsert_batches_run w errors_out repo_name status fp
              (batches chunks)
              (set_calls (calls s ++ [ProcessFile fp status]) s))
    as (s1 & new & H1 & C1 & P1 & V1).
  exists (incr_processed s1), new. unfold bind. rewrite H1. repeat split.
  - cbn. rewrite C1. cbn. now rewrite <- app_assoc.
  - cbn. now rewrite P1.
  - exact V1.
Qed.

Lemma every_valid_batch_is_sent_witness :
  exists s' new,
    chunk_and_upsert three_files_world "errors.jsonl" "repo" "sha" "A" "one.py"
                     (initial_state [])
    = (s', Ok tt)
    /\ calls s' = calls (initial_state []) ++ ProcessFile "one.py" "A" :: new
    /\ processed s' = S (processed (initial_state []))
    /\ upserts new
       = filter valid_batch
                (batches [content_entry "id-one.py" "one.py" [1%float]]).
Proof.
  apply (every_valid_batch_is_sent three_files_world "errors.jsonl" "repo"
           "sha" "A" "one.py" (initial_state [])
           [content_entry "id-one.py" "one.py" [1%float]]).
  reflexivity.
Defined.

(* ================================================================== *)
(** * Properties of embedding, line ranges and chunking *)
(* ================================================================== *)

(* ------------------------------------------------------------------ *)
(** ** Embedding *)

(** X13.  A vector that [get_embedding] returns is the one the service
    gave for a text that is not blank, has exactly [DIMENSION]
    components, and none of them is NaN or infinite. *)
Theorem get_embedding_returns_checked_vectors :
  forall (sv : Services) (text : string) (vector : list float),
    Indexer.get_embedding sv text = inr vector ->
    get_text_embedding sv text = inr vector
    /\ truthy (strip text) = true
    /\ List.length vector = DIMENSION
    /\ Forall finite vector.
Proof.
  intros sv text vector. unfold Indexer.get_embedding.
  destruct (truthy text); cbn [negb orb]; [|discriminate].
  destruct (truthy (strip text)); cbn [negb]; [|discriminate].
  destruct (get_text_embedding sv text) as [e|embedding]; [discriminate|].
  unfold Indexer.checked_embedding.
  destruct embedding as [|v vs]; [discriminate|].
  destruct (List.length (v :: vs) =? DIMENSION) eqn:Hlen;
    cbn [negb]; [|discriminate].
  destruct (existsb is_nan_or_inf (v :: vs)) eqn:Hbad; [discriminate|].
  intros H. injection H as <-. repeat split.
  - now apply Nat.eqb_eq.
  - apply Forall_forall. intros x Hin. unfold finite.
    destruct (is_nan_or_inf x) eqn:E; [|reflexivity].
    assert (existsb is_nan_or_inf (v :: vs) = true)
      by (apply existsb_exists; now exists x).
    congruence.
Qed.

Lemma get_embedding_returns_checked_vectors_witness :
  get_text_embedding (plain_services unit_vector) "Body text."
  = inr unit_vector
  /\ truthy (strip "Body text.") = true
  /\ List.length unit_vector = DIMENSION
  /\ Forall finite unit_vector.
Proof.
  apply (get_embedding_returns_checked_vectors (plain_services unit_vector)
           "Body text." unit_vector).
  vm_compute. reflexivity.
Defined.

(* ------------------------------------------------------------------ *)
(** ** Line ranges *)

Lemma split_sep_not_nil (sep : ascii) (ms : option nat) (s : string) :
  1 <= List.length (split_sep sep ms s).
Proof.
  revert ms. induction s as [|c s IH]; intros ms.
  - destruct ms as [[|k]|]; simpl; lia.
  - destruct ms as [[|k]|]; simpl; try lia;
      (destruct (Ascii.eqb c sep); simpl; [lia|];
       match goal with
       | |- context [cons_head c ?l] =>
           destruct l eqn:E; simpl; lia
       end).
Qed.

Lemma contains_empty (s : string) : contains "" s = true.
Proof. destruct s; reflexivity. Qed.

(** The first hit of a search over the numbered lines. *)
Lemma find_numbered (g : string -> bool) (l : list string) (a : nat) :
  match find (fun il : nat * string => g (snd il))
             (combine (seq a (List.length l)) l) with
  | Some (i, _) =>
      a <= i < a + List.length l
      /\ forall k, k < List.length l -> g (nth k l "") = true -> i <= a + k
  | None => forall k, k < List.length l -> g (nth k l "") = false
  end.
Proof.
  revert a. induction l as [|x l IH]; intros a.
  - simpl. intros k Hk. lia.
  - cbn [List.length seq combine find snd].
    destruct (g x) eqn:Hx.
    + split; [lia|]. intros k _ _. lia.
    + specialize (IH (S a)).
      destruct (find _ (combine (seq (S a) (List.length l)) l)) as [[i y]|].
      * destruct IH as [Hi Hfirst]. split; [lia|].
        intros [|k] Hk Hg; [simpl in Hg; congruence|].
        simpl in Hg. specialize (Hfirst k ltac:(lia) Hg). lia.
      * intros [|k] Hk; [exact Hx|]. simpl. apply IH. lia.
Qed.

(** X14.  The line range given to a chunk is well formed and starts
    inside the file: 1 <= start <= end, and start is at most the number
    of lines of the file. *)
Theorem line_range_is_well_formed :
  forall chunk full_text : string,
    1 <= fst (line_range chunk full_text)
    /\ fst (line_range chunk full_text) <= snd (line_range chunk full_text)
    /\ fst (line_range chunk full_text)
       <= List.length (split_sep LF None full_text).
Proof.
  intros chunk full_text.
  pose proof (split_sep_not_nil LF None full_text) as Hfull.
  pose proof (split_sep_not_nil LF None (strip chunk)) as Hchunk.
  unfold line_range, enumerate.
  destruct (negb (truthy full_text) || negb (truthy chunk));
    [cbn [fst snd]; lia|].
  destruct (negb (truthy (strip chunk))); [cbn [fst snd]; lia|].
  destruct (negb (truthy (strip (nth 0 (split_sep LF None (strip chunk)) ""))));
    [cbn [fst snd]; lia|].
  match goal with
  | |- context [find ?f (combine (seq 0 _) (split_sep LF None full_text))] =>
      pose proof (find_numbered
                    (fun line =>
                       contains (strip (nth 0 (split_sep LF None (strip chunk)) ""))
                                (strip line)
                       || contains (strip line)
                                   (strip (nth 0 (split_sep LF None (strip chunk)) "")))
                    (split_sep LF None full_text) 0) as H1
  end.
  cbn [snd] in H1.
  destruct (find _ (combine (seq 0 _) (split_sep LF None full_text)))
    as [[i x]|].
  - cbn [fst snd]. lia.
  - clear H1.
    pose proof (find_numbered
                  (fun line => (10 <? String.length (strip line))
                               && contains (strip line) chunk)
                  (split_sep LF None full_text) 0) as H2.
    cbn [snd] in H2.
    destruct (find _ (combine (seq 0 _) (split_sep LF None full_text)))
      as [[i x]|]; cbn [fst snd]; lia.
Qed.

(** X15.  A blank line in the file stops the search: whatever the
    chunk, its range starts no later than the first blank line of the
    file. *)
Theorem line_range_stops_at_a_blank_line :
  forall (chunk full_text : string) (k : nat),
    k < List.length (split_sep LF None full_text) ->
    strip (nth k (split_sep LF None full_text) "") = "" ->
    fst (line_range chunk full_text) <= k + 1.
Proof.
  intros chunk full_text k Hk Hblank.
  unfold line_range, enumerate.
  destruct (negb (truthy full_text) || negb (truthy chunk));
    [cbn [fst snd]; lia|].
  destruct (negb (truthy (strip chunk))); [cbn [fst snd]; lia|].
  destruct (negb (truthy (strip (nth 0 (split_sep LF None (strip chunk)) ""))));
    [cbn [fst snd]; lia|].
  pose proof (find_numbered
                (fun line =>
                   contains (strip (nth 0 (split_sep LF None (strip chunk)) ""))
                            (strip line)
                   || contains (strip line)
                               (strip (nth 0 (split_sep LF None (strip chunk)) "")))
                (split_sep LF None full_text) 0) as H1.
  cbn [snd] in H1.
  destruct (find _ (combine (seq 0 _) (split_sep LF None full_text)))
    as [[i x]|].
  - destruct H1 as [_ Hfirst]. cbn [fst].
    specialize (Hfirst k Hk). rewrite Hblank, contains_empty, orb_true_r in Hfirst.
    specialize (Hfirst eq_refl). lia.
  - specialize (H1 k Hk).
    rewrite Hblank, contains_empty, orb_true_r in H1. discriminate H1.
Qed.

Lemma line_range_stops_at_a_blank_line_witness :
  fst (line_range "Body text."
                  ("# Notes" ++ newline ++ newline ++ "Body text.")) <= 1 + 1.
Proof.
  apply (line_range_stops_at_a_blank_line
           "Body text." ("# Notes" ++ newline ++ newline ++ "Body text.") 1).
  - vm_compute. lia.
  - reflexivity.
Defined.

(* ------------------------------------------------------------------ *)
(** ** Chunks and entries of one file *)

Lemma rechunk_clean (tokenizer : option (string -> nat))
      (sections : list string) (max_tokens : nat) :
  Forall clean (Budget.re_chunk_if_oversize tokenizer sections max_tokens).
Proof.
  unfold Budget.re_chunk_if_oversize.
  assert (G : forall acc,
             Forall clean acc ->
             Forall clean (fold_left (Budget.add_section tokenizer max_tokens)
                                     sections acc)).
  { induction sections as [|sec rest IH]; intros acc Hacc; [exact Hacc|].
    cbn [fold_left]. apply IH. now apply add_section_clean. }
  apply G. constructor.
Qed.

Lemma clean_nonblank (chunk : string) : clean chunk -> nonblank chunk.
Proof.
  intros [Hne Hs]. unfold nonblank, truthy. now rewrite Hs, Hne.
Qed.

Lemma message_nonblank (c : ascii) (s : string) :
  isspace c = false -> nonblank (String c s).
Proof.
  intros Hc. split; [reflexivity|].
  destruct (clean_strip_of_text (String c s) Hc) as [Hne _].
  unfold truthy. now rewrite Hne.
Qed.

Lemma rechunk_nonblank (sv : Services) (sections : list string) :
  Forall nonblank (Indexer.re_chunk_if_oversize sv sections).
Proof.
  unfold Indexer.re_chunk_if_oversize.
  eapply Forall_impl; [|apply rechunk_clean]. apply clean_nonblank.
Qed.

Lemma chunk_as_summary_nonblank (sv : Services) (filepath : string) :
  Forall nonblank (Indexer.chunk_as_summary sv filepath).
Proof.
  unfold Indexer.chunk_as_summary.
  destruct (stat_size sv filepath) as [e|[size_text under_one_mb]].
  - constructor; [|constructor]. now apply message_nonblank.
  - apply rechunk_nonblank.
Qed.

Lemma chunk_csv_tsv_nonblank (sv : Services) (filepath : string) :
  Forall nonblank (Indexer.chunk_csv_tsv sv filepath).
Proof.
  unfold Indexer.chunk_csv_tsv.
  destruct (head_lines sv filepath) as [e|content].
  - constructor; [|constructor]. now apply message_nonblank.
  - apply rechunk_nonblank.
Qed.

(** The three results of [dispatch_chunking], one by one. *)
Lemma dispatch_chunking_shape (sv : Services) (filepath : string) :
  Forall nonblank (fst (fst (Indexer.dispatch_chunking sv filepath)))
  /\ snd (fst (Indexer.dispatch_chunking sv filepath)) = true
  /\ (snd (Indexer.dispatch_chunking sv filepath) = "summary"
      \/ snd (Indexer.dispatch_chunking sv filepath) = "content"
         /\ mem (lower (path_name sv filepath)) SUMMARY_ONLY_BASENAMES = false
         /\ mem (lower (path_suffix sv filepath))
                (BINARY_EXTS ++ [".csv"; ".tsv"]) = false
         /\ exists c cs, chunk_file sv (path_str sv filepath) = inr (c :: cs)).
Proof.
  unfold Indexer.dispatch_chunking.
  destruct (mem (lower (path_name sv filepath)) SUMMARY_ONLY_BASENAMES).
  { cbn [fst snd]. auto using chunk_as_summary_nonblank. }
  destruct (mem (lower (path_suffix sv filepath)) BINARY_EXTS) eqn:Hbin.
  { cbn [fst snd]. auto using chunk_as_summary_nonblank. }
  destruct (mem (lower (path_suffix sv filepath)) [".csv"; ".tsv"]) eqn:Hcsv.
  { cbn [fst snd]. auto using chunk_csv_tsv_nonblank. }
  destruct (chunk_file sv (path_str sv filepath)) as [e|[|c cs]];
    cbn [fst snd]; auto using chunk_as_summary_nonblank.
  repeat split; [apply rechunk_nonblank|]. right. repeat split.
  - unfold mem in *. now rewrite existsb_app, Hbin, Hcsv.
  - now exists c, cs.
Qed.


Lemma fold_after_failure (sv : Services)
      (filepath status repo_name commit_sha : string) (should_embed : bool)
      (chunk_type full_text e : string) (ics : list (nat * string)) :
  fold_left (Indexer.add_chunk_entry sv filepath status repo_name commit_sha
                                     should_embed chunk_type full_text)
            ics (inl e)
  = inl e.
Proof. induction ics as [|ic ics IH]; [reflexivity | exact IH]. Qed.

Lemma vector_of_chunk (sv : Services) (chunk : string) (vector : list float) :
  nonblank chunk ->
  (if true && (Indexer.count_tokens sv chunk <=? Budget.MAX_TOKENS)
   then Indexer.get_embedding sv chunk else inr [])
  = inr vector ->
  if Indexer.count_tokens sv chunk <=? Budget.MAX_TOKENS
  then List.length vector = DIMENSION /\ Forall finite vector
       /\ match vector with [] => false | _ :: _ => true end = true
  else vector = []
       /\ match vector with [] => false | _ :: _ => true end = false.
Proof.
  intros _. cbn [andb].
  destruct (Indexer.count_tokens sv chunk <=? Budget.MAX_TOKENS).
  - unfold Indexer.get_embedding.
    destruct (negb (truthy chunk) || negb (truthy (strip chunk)));
      [discriminate|].
    destruct (get_text_embedding sv chunk) as [e|embedding]; [discriminate|].
    unfold Indexer.checked_embedding.
    destruct embedding as [|v vs]; [discriminate|].
    destruct (List.length (v :: vs) =? DIMENSION) eqn:Hlen;
      cbn [negb]; [|discriminate].
    destruct (existsb is_nan_or_inf (v :: vs)) eqn:Hbad; [discriminate|].
    intros H. injection H as <-. repeat split.
    + now apply Nat.eqb_eq.
    + apply Forall_forall. intros x Hin. unfold finite.
      destruct (is_nan_or_inf x) eqn:E; [|reflexivity].
      assert (existsb is_nan_or_inf (v :: vs) = true)
        by (apply existsb_exists; now exists x).
      congruence.
  - intros H. injection H as <-. now split.
Qed.

(** The loop of [process_file] over chunks that are not blank. *)
Lemma entries_of_chunks (sv : Services)
      (filepath status repo_name commit_sha chunk_type full_text : string)
      (chunks : list string) (a : nat) (acc entries : list chunk_entry) :
  Forall nonblank chunks ->
  fold_left (Indexer.add_chunk_entry sv filepath status repo_name commit_sha
                                     true chunk_type full_text)
            (combine (seq a (List.length chunks)) chunks) (inr acc)
  = inr entries ->
  exists added,
    entries = acc ++ added
    /\ map (fun c => m_content (ce_metadata c)) added = chunks
    /\ map (fun c => m_chunk_index (ce_metadata c)) added
       = seq a (List.length chunks)
    /\ Forall (fun c => m_chunk_type (ce_metadata c) = chunk_type
                        /\ m_file_path (ce_metadata c) = filepath
                        /\ m_token_count (ce_metadata c)
                           = Indexer.count_tokens sv (m_content (ce_metadata c))
                        /\ vector_by_token_count c)
              added.
Proof.
  revert a acc. induction chunks as [|chunk chunks IH]; intros a acc Hnb H.
  - injection H as <-. exists []. rewrite app_nil_r.
    repeat split; constructor.
  - inversion Hnb as [|x l [Ht Hs] Hrest]; subst.
    cbn [List.length seq combine fold_left] in H.
    unfold Indexer.add_chunk_entry at 2 in H.
    rewrite Ht, Hs in H. cbn [negb orb] in H.
    destruct (if true && (Indexer.count_tokens sv chunk <=? Budget.MAX_TOKENS)
              then Indexer.get_embedding sv chunk else inr [])
      as [e|vector] eqn:Hvec.
    { rewrite fold_after_failure in H. discriminate H. }
    apply vector_of_chunk in Hvec; [|now split].
    apply IH in H as (added & -> & Hc & Hi & Hall); [|exact Hrest].
    eexists (_ :: added). split; [now rewrite <- app_assoc|].
    cbn [map ce_metadata m_content m_chunk_index]. rewrite Hc, Hi.
    repeat split. constructor; [|exact Hall].
    unfold vector_by_token_count.
    cbn [ce_metadata ce_values m_chunk_type m_file_path m_token_count
         m_content m_embedded].
    repeat split.
    destruct (Indexer.count_tokens sv chunk <=? Budget.MAX_TOKENS);
      tauto.
Qed.

(** What [process_file] returns for a file on disk, next to what
    [dispatch_chunking] gave for it. *)
Lemma process_file_entries (sv : Services)
      (filepath status repo_name commit_sha : string)
      (entries : list chunk_entry) :
  on_disk sv filepath = true ->
  Indexer.process_file sv filepath status repo_name commit_sha = inr entries ->
  map (fun c => m_content (ce_metadata c)) entries
  = fst (fst (Indexer.dispatch_chunking sv filepath))
  /\ map (fun c => m_chunk_index (ce_metadata c)) entries
     = seq 0 (List.length entries)
  /\ Forall (fun c => m_chunk_type (ce_metadata c)
                      = snd (Indexer.dispatch_chunking sv filepath)
                      /\ m_file_path (ce_metadata c) = filepath
                      /\ m_token_count (ce_metadata c)
                         = Indexer.count_tokens sv (m_content (ce_metadata c))
                      /\ vector_by_token_count c)
            entries.
Proof.
  intros Hdisk. unfold Indexer.process_file. rewrite Hdisk. cbn [negb].
  destruct (dispatch_chunking_shape sv filepath) as (Hnb & Hse & _).
  destruct (Indexer.dispatch_chunking sv filepath)
    as [[chunks should_embed] chunk_type].
  cbn [fst snd] in *. subst should_embed. unfold enumerate. intros H.
  apply entries_of_chunks in H as (added & -> & Hc & Hi & Hall);
    [|exact Hnb].
  cbn [app]. repeat split; try assumption.
  rewrite Hi. f_equal. rewrite <- Hc. now rewrite length_map.
Qed.

(** X17.  For a file on disk, [process_file] returns one entry for each
    chunk of [dispatch_chunking], in the same order, numbered from 0
    without a gap: no chunk is passed over. *)
Theorem process_file_keeps_every_chunk :
  forall (sv : Services) (filepath status repo_name commit_sha : string)
         (entries : list chunk_entry),
    on_disk sv filepath = true ->
    Indexer.process_file sv filepath status repo_name commit_sha
    = inr entries ->
    map (fun c => m_content (ce_metadata c)) entries
    = fst (fst (Indexer.dispatch_chunking sv filepath))
    /\ map (fun c => m_chunk_index (ce_metadata c)) entries
       = seq 0 (List.length entries).
Proof.
  intros sv filepath status repo_name commit_sha entries Hdisk H.
  destruct (process_file_entries sv filepath status repo_name commit_sha
                                 entries Hdisk H) as (Hc & Hi & _).
  now split.
Qed.

(** X18.  In what [process_file] returns, an entry whose content is
    within [MAX_TOKENS] carries a vector of [DIMENSION] finite numbers,
    and an entry whose content is over it carries none; so the
    validation of [safe_upsert_batch] stops exactly on the entries of
    kind "content" that are over the limit. *)
Theorem process_file_embeds_within_the_limit :
  forall (sv : Services) (filepath status repo_name commit_sha : string)
         (entries : list chunk_entry),
    Indexer.process_file sv filepath status repo_name commit_sha
    = inr entries ->
    Forall (fun c =>
              (if Indexer.count_tokens sv (m_content (ce_metadata c))
                  <=? Budget.MAX_TOKENS
               then List.length (ce_values c) = DIMENSION
                    /\ Forall finite (ce_values c)
               else ce_values c = [])
              /\ empty_content (to_entry c)
                 = String.eqb (m_chunk_type (ce_metadata c)) "content"
                   && (Budget.MAX_TOKENS
                       <? Indexer.count_tokens sv (m_content (ce_metadata c))))
           entries.
Proof.
  intros sv filepath status repo_name commit_sha entries H.
  destruct (on_disk sv filepath) eqn:Hdisk.
  - destruct (process_file_entries sv filepath status repo_name commit_sha
                                   entries Hdisk H) as (_ & _ & Hall).
    eapply Forall_impl; [|exact Hall].
    intros c (_ & _ & Htok & Hvec). unfold vector_by_token_count in Hvec.
    rewrite Htok in Hvec. unfold empty_content, to_entry.
    cbn [entry_metadata entry_values chunk_type].
    rewrite Nat.ltb_antisym.
    destruct (Indexer.count_tokens sv (m_content (ce_metadata c))
              <=? Budget.MAX_TOKENS).
    + destruct Hvec as (Hlen & Hfin & _). split; [now split|].
      destruct (ce_values c); [discriminate Hlen|].
      cbn [negb]. now rewrite andb_false_r.
    + destruct Hvec as (-> & _). split; [reflexivity|]. reflexivity.
  - unfold Indexer.process_file in H. rewrite Hdisk in H.
    injection H as <-. constructor.
Qed.

Lemma process_file_keeps_every_chunk_witness :
  map (fun c => m_content (ce_metadata c)) (entries_of (plain_services unit_vector))
  = fst (fst (Indexer.dispatch_chunking (plain_services unit_vector) "notes.md"))
  /\ map (fun c => m_chunk_index (ce_metadata c))
         (entries_of (plain_services unit_vector))
     = seq 0 (List.length (entries_of (plain_services unit_vector))).
Proof.
  apply (process_file_keeps_every_chunk (plain_services unit_vector)
           "notes.md" "A" "repo" "sha").
  - reflexivity.
  - vm_compute. reflexivity.
Defined.

Lemma process_file_embeds_within_the_limit_witness :
  Forall (fun c =>
            (if Indexer.count_tokens over_limit_services
                                     (m_content (ce_metadata c))
                <=? Budget.MAX_TOKENS
             then List.length (ce_values c) = DIMENSION
                  /\ Forall finite (ce_values c)
             else ce_values c = [])
            /\ empty_content (to_entry c)
               = String.eqb (m_chunk_type (ce_metadata c)) "content"
                 && (Budget.MAX_TOKENS
                     <? Indexer.count_tokens over_limit_services
                                             (m_content (ce_metadata c))))
         (entries_of over_limit_services).
Proof.
  apply (process_file_embeds_within_the_limit over_limit_services
           "notes.md" "A" "repo" "sha").
  vm_compute. reflexivity.
Defined.

(* ------------------------------------------------------------------ *)
(** ** Sentences that fit *)

Lemma concat_cons (sep x : string) (l : list string) :
  l <> [] -> String.concat sep (x :: l) = (x ++ sep ++ String.concat sep l)%string.
Proof. destruct l; [contradiction | reflexivity]. Qed.

(** Joining two neighbours with one space does not change the text. *)
Lemma concat_merge (l r : list string) (a b : string) :
  String.concat " " (l ++ (a ++ " " ++ b)%string :: r)
  = String.concat " " (l ++ a :: b :: r).
Proof.
  induction l as [|x l IH].
  - cbn [app]. rewrite (concat_cons " " a (b :: r)) by discriminate.
    destruct r as [|y r]; [reflexivity|].
    rewrite !concat_cons by discriminate.
    now rewrite !append_assoc.
  - cbn [app]. rewrite !concat_cons by (destruct l; discriminate).
    now rewrite IH.
Qed.

Lemma clean_join (a b : string) :
  clean a -> clean b -> clean (a ++ " " ++ b).
Proof.
  intros Ha Hb. apply clean_intro.
  - apply starts_with_text_append. now apply clean_starts_with_text.
  - pose proof (clean_rstrip b Hb) as Hr. destruct Hb as [Hne _].
    assert (Hsp : rstrip (" " ++ b) = (" " ++ b)%string).
    { change (" " ++ b)%string with (String " " b). cbn [rstrip].
      rewrite Hr. now destruct b. }
    rewrite rstrip_append; rewrite Hsp; reflexivity.
Qed.

Lemma strip_clean_or_empty (c : string) : c = "" \/ clean c -> strip c = c.
Proof. intros [-> | [_ H]]; [reflexivity | exact H]. Qed.

Lemma pending_strip (c : string) :
  c = "" \/ clean c ->
  (if truthy (strip c) then [strip c] else []) = pending c.
Proof. intros H. now rewrite (strip_clean_or_empty c H). Qed.

Section SentencesFit.

Variable tokenizer : option (string -> nat).
Variable max_tokens : nat.

(** What the loop over the sentences keeps true: the text so far, the
    limit, and a chunk in progress that needs no stripping. *)
Lemma add_part_keeps_text (st : list string * string) (done : list string)
      (part : string) :
  clean part ->
  within_limit tokenizer max_tokens part ->
  (snd st = "" \/ clean (snd st)) ->
  (forall rest, String.concat " " (fst st ++ pending (snd st) ++ rest)
                = String.concat " " (done ++ rest)) ->
  Forall (within_limit tokenizer max_tokens) (fst st ++ pending (snd st)) ->
  let st' := Budget.add_part tokenizer max_tokens st part in
  (snd st' = "" \/ clean (snd st'))
  /\ (forall rest, String.concat " " (fst st' ++ pending (snd st') ++ rest)
                   = String.concat " " ((done ++ [part]) ++ rest))
  /\ Forall (within_limit tokenizer max_tokens) (fst st' ++ pending (snd st')).
Proof.
  destruct st as [final_chunks current]. cbn [fst snd].
  intros Hpart Hfit Hcur Htext Hall.
  assert (Hp : pending part = [part]).
  { unfold pending, truthy. now rewrite (proj1 Hpart). }
  unfold Budget.add_part.
  destruct (Budget.count_tokens tokenizer _ <=? max_tokens) eqn:Hle;
    cbn [fst snd].
  - destruct Hcur as [-> | Hcur].
    + cbn [truthy is_empty negb append] in *. repeat split.
      * now right.
      * intros rest. rewrite Hp, <- app_assoc. apply (Htext (part :: rest)).
      * rewrite Hp. cbn [pending truthy is_empty negb] in Hall.
        apply Forall_app. split; [now rewrite app_nil_r in Hall|].
        now repeat constructor.
    + assert (Ht : truthy current = true)
        by (unfold truthy; now rewrite (proj1 Hcur)).
      rewrite Ht in *. unfold pending in Htext, Hall. rewrite Ht in Htext, Hall.
      pose proof (clean_join current part Hcur Hpart) as Hjoin.
      repeat split.
      * now right.
      * intros rest. unfold pending, truthy. rewrite (proj1 Hjoin).
        cbn [negb app]. rewrite concat_merge, <- app_assoc.
        apply (Htext (part :: rest)).
      * unfold pending, truthy. rewrite (proj1 Hjoin). cbn [negb].
        apply Forall_app. apply Forall_app in Hall as [Hall _].
        split; [exact Hall|]. constructor; [|constructor].
        now apply Nat.leb_le in Hle.
  - repeat split.
    + now right.
    + intros rest. rewrite Hp, <- app_assoc.
      destruct Hcur as [-> | Hcur].
      * cbn [truthy is_empty negb]. apply (Htext (part :: rest)).
      * assert (Ht : truthy current = true)
          by (unfold truthy; now rewrite (proj1 Hcur)).
        rewrite Ht. unfold pending in Htext. rewrite Ht in Htext.
        rewrite (proj2 Hcur), <- app_assoc. apply (Htext (part :: rest)).
    + rewrite Hp. apply Forall_app. split; [|now repeat constructor].
      destruct Hcur as [-> | Hcur].
      * cbn [truthy is_empty negb pending] in *. now rewrite app_nil_r in Hall.
      * assert (Ht : truthy current = true)
          by (unfold truthy; now rewrite (proj1 Hcur)).
        rewrite Ht. unfold pending in Hall. rewrite Ht in Hall.
        now rewrite (proj2 Hcur).
Qed.

Lemma add_parts_keep_text (parts : list string) (st : list string * string)
      (done : list string) :
  Forall clean parts ->
  Forall (within_limit tokenizer max_tokens) parts ->
  (snd st = "" \/ clean (snd st)) ->
  (forall rest, String.concat " " (fst st ++ pending (snd st) ++ rest)
                = String.concat " " (done ++ rest)) ->
  Forall (within_limit tokenizer max_tokens) (fst st ++ pending (snd st)) ->
  let st' := fold_left (Budget.add_part tokenizer max_tokens) parts st in
  (snd st' = "" \/ clean (snd st'))
  /\ String.concat " " (fst st' ++ pending (snd st'))
     = String.concat " " (done ++ parts)
  /\ Forall (within_limit tokenizer max_tokens) (fst st' ++ pending (snd st')).
Proof.
  revert st done.
  induction parts as [|part parts IH]; intros st done Hc Hf Hcur Htext Hall.
  - cbn [fold_left]. repeat split; try assumption.
    specialize (Htext []). now rewrite !app_nil_r in *.
  - inversion Hc as [|x l Hc1 Hc2]; subst.
    inversion Hf as [|x l Hf1 Hf2]; subst.
    destruct (add_part_keeps_text st done part Hc1 Hf1 Hcur Htext Hall)
      as (A & B & C).
    cbn [fold_left].
    destruct (IH (Budget.add_part tokenizer max_tokens st part)
                 (done ++ [part]) Hc2 Hf2 A B C) as (A' & B' & C').
    repeat split; try assumption.
    now rewrite <- app_assoc in B'.
Qed.

Lemma recheck_within (chunks : list string) :
  Forall (within_limit tokenizer max_tokens) chunks ->
  Budget.recheck tokenizer max_tokens chunks = chunks.
Proof.
  unfold Budget.recheck. induction 1 as [|chunk chunks Hc _ IH];
    [reflexivity|].
  cbn [flat_map]. rewrite IH. apply Nat.leb_le in Hc. now rewrite Hc.
Qed.

End SentencesFit.

(** X19.  When a section is over the limit but each of its sentences is
    within it, the section is cut between sentences only: every chunk
    is within the limit, and the chunks put together with one space
    between them are the sentences put together the same way.  No text
    is lost. *)
Theorem sentences_that_fit_are_kept :
  forall (tokenizer : option (string -> nat)) (max_tokens : nat)
         (section : string),
    max_tokens < Budget.count_tokens tokenizer (strip section) ->
    Forall (fun part => Budget.count_tokens tokenizer part <= max_tokens)
           (Regex.re_split_sentences (strip section)) ->
    String.concat " " (Budget.re_chunk_if_oversize tokenizer [section] max_tokens)
    = String.concat " " (Regex.re_split_sentences (strip section))
    /\ Forall (fun chunk => Budget.count_tokens tokenizer chunk <= max_tokens)
              (Budget.re_chunk_if_oversize tokenizer [section] max_tokens).
Proof.
  intros tokenizer max_tokens section Hover Hfit.
  unfold Budget.re_chunk_if_oversize. cbn [fold_left].
  unfold Budget.add_section.
  destruct (is_empty (strip section)) eqn:Hne.
  { destruct (strip section); [|discriminate Hne].
    split; [reflexivity | constructor]. }
  apply Nat.leb_gt in Hover. rewrite Hover.
  assert (Hsec : clean (strip section))
    by (split; [exact Hne | apply strip_strip]).
  destruct (add_parts_keep_text tokenizer max_tokens
              (Regex.re_split_sentences (strip section))
              ([], EmptyString) []
              (re_split_clean _ Hsec) Hfit (or_introl eq_refl)
              (fun rest => eq_refl) (Forall_nil _))
    as (A & B & C).
  destruct (fold_left (Budget.add_part tokenizer max_tokens)
                      (Regex.re_split_sentences (strip section))
                      ([], EmptyString)) as [chunks current].
  cbn [fst snd app] in A, B, C.
  replace (if truthy (strip current) then chunks ++ [strip current] else chunks)
    with (chunks ++ pending current).
  - rewrite (recheck_within tokenizer max_tokens _ C). now split.
  - rewrite <- (pending_strip current A).
    destruct (truthy (strip current)); [reflexivity | apply app_nil_r].
Qed.

Lemma sentences_that_fit_are_kept_witness :
  String.concat " " (Budget.re_chunk_if_oversize
                       None ["One two. Three four.   Five. "] 2)
  = String.concat " " (Regex.re_split_sentences
                         (strip "One two. Three four.   Five. "))
  /\ Forall (fun chunk => Budget.count_tokens None chunk <= 2)
            (Budget.re_chunk_if_oversize
               None ["One two. Three four.   Five. "] 2).
Proof.
  apply (sentences_that_fit_are_kept None 2 "One two. Three four.   Five. ").
  - vm_compute. lia.
  - vm_compute. repeat constructor.
Defined.

(* ------------------------------------------------------------------ *)
(** ** Commit range of a GitHub Actions run *)

Lemma free_of_append_sep (c : ascii) (a b : string) :
  free_of c (a ++ String c b) = false.
Proof.
  unfold free_of. induction a as [|x a IH]; cbn [append forallb_chars].
  - now rewrite Ascii.eqb_refl.
  - rewrite IH. apply andb_false_r.
Qed.

Lemma caret_base (s : string) :
  json_truthy (JStr (s ++ "^")) = true
  /\ JStr (s ++ "^")%string <> JStr GithubEvent.NULL_SHA.
Proof.
  split.
  - cbn [json_truthy]. now destruct s.
  - intros H. injection H as H.
    pose proof (free_of_append_sep "^" s "") as F. rewrite H in F.
    discriminate F.
Qed.

Lemma close_range_result (r : Runner) (base head base' head' : json) :
  GithubEvent.close_range r base head = inr (base', head') ->
  head' = head
  /\ json_truthy base' = true
  /\ json_truthy head' = true
  /\ base' <> JStr GithubEvent.NULL_SHA.
Proof.
  unfold GithubEvent.close_range, GithubEvent.and_then.
  destruct (negb (json_truthy base)
            || match base with
               | JStr s => String.eqb s GithubEvent.NULL_SHA
               | _ => false
               end) eqn:Hbase.
  - destruct (json_truthy head) eqn:Hhead; [|discriminate].
    cbn [negb]. intros H. injection H as <- <-.
    destruct (caret_base (GithubEvent.text_of r head)) as [A B].
    now repeat split.
  - apply orb_false_iff in Hbase as [Ht Hz]. apply negb_false_iff in Ht.
    destruct (json_truthy head) eqn:Hhead; cbn [negb]; [|discriminate].
    intros H. injection H as <- <-. repeat split; try assumption.
    intros ->. rewrite String.eqb_refl in Hz. discriminate Hz.
Qed.

(** X20.  A commit range that [detect_github_commit_range] returns has
    a base and a head that are both truthy, and its base is never the
    null commit: for a first push it is the parent of the head.  On a
    push event the head is [GITHUB_SHA] whenever that variable is set
    and not empty. *)
Theorem detected_range_has_a_real_base :
  forall (r : Runner) (base head : json),
    GithubEvent.detect_github_commit_range r = inr (base, head) ->
    json_truthy base = true
    /\ json_truthy head = true
    /\ base <> JStr GithubEvent.NULL_SHA
    /\ (forall sha, runner_env r "GITHUB_EVENT_NAME" = Some "push" ->
                    runner_env r "GITHUB_SHA" = Some sha ->
                    truthy sha = true -> head = JStr sha).
Proof.
  intros r base head. unfold GithubEvent.detect_github_commit_range.
  destruct (negb (opt_truthy (runner_env r "GITHUB_EVENT_PATH")));
    [discriminate|].
  destruct (negb (event_file_exists r _)); [discriminate|].
  destruct (load_event r _) as [e|event]; [discriminate|].
  unfold GithubEvent.and_then at 1.
  destruct (GithubEvent.read_range _ _ event) as [e|[base0 head0]] eqn:Hread;
    [discriminate|].
  cbn [fst snd]. intros H.
  apply close_range_result in H as (-> & Hb & Hh & Hz).
  repeat split; try assumption.
  intros sha Hname Hsha Ht. rewrite Hname, Hsha in Hread.
  unfold GithubEvent.read_range in Hread. cbn [String.eqb] in Hread.
  change (String.eqb "push" "push") with true in Hread.
  cbv iota in Hread. cbn [json_truthy] in Hread. rewrite Ht in Hread.
  unfold GithubEvent.and_then in Hread.
  destruct (GithubEvent.get event "before" (JStr "")); [discriminate|].
  now injection Hread as _ <-.
Qed.

Lemma detected_range_has_a_real_base_witness :
  json_truthy (JStr "89abcde^") = true
  /\ json_truthy (JStr "89abcde") = true
  /\ JStr "89abcde^" <> JStr GithubEvent.NULL_SHA
  /\ (forall sha,
         runner_env first_push_runner "GITHUB_EVENT_NAME" = Some "push" ->
         runner_env first_push_runner "GITHUB_SHA" = Some sha ->
         truthy sha = true -> JStr "89abcde" = JStr sha).
Proof.
  apply (detected_range_has_a_real_base first_push_runner
           (JStr "89abcde^") (JStr "89abcde")).
  reflexivity.
Defined.

(* ------------------------------------------------------------------ *)
(** ** Exceptions and counters of a run *)





Lemma counters_grow_refl (s : sync_state) : counters_grow s s.
Proof. unfold counters_grow. lia. Qed.

Lemma counters_grow_trans (a b c : sync_state) :
  counters_grow a b -> counters_grow b c -> counters_grow a c.
Proof. unfold counters_grow. lia. Qed.

Lemma counters_grow_lift {A : Type} (m : W A) : keeps counters_grow (lift m).
Proof.
  intros s. unfold lift. destruct (m (calls s)) as [t r].
  unfold counters_grow. cbn. lia.
Qed.

Ltac counters_leaf :=
  first
    [ apply counters_grow_lift
    | apply keeps_modify; intros; unfold counters_grow; cbn; lia ].

Ltac counters_walk :=
  keeps_walk counters_grow_refl counters_grow_trans counters_leaf.

Lemma counters_grow_upsert_batch (w : World)
      (errors_out repo_name status fp : string) (batch : list entry) :
  keeps counters_grow (upsert_batch w errors_out repo_name status fp batch).
Proof. unfold upsert_batch, record_failure. counters_walk. Qed.

Lemma counters_grow_body (w : World) (wipe_first : bool)
      (errors_out repo_name commit_sha status : string) (filepath : json) :
  keeps counters_grow
        (process_record_body w wipe_first errors_out repo_name commit_sha
                             status filepath).
Proof.
  unfold process_record_body, chunk_and_upsert.
  keeps_walk counters_grow_refl counters_grow_trans
             ltac:(first [apply counters_grow_upsert_batch | counters_leaf]).
Qed.

Lemma kept {S A : Type} (rel : S -> S -> Prop) (m : M S A) (s s' : S)
      (r : outcome A) :
  keeps rel m -> m s = (s', r) -> rel s s'.
Proof. intros K H. specialize (K s). now rewrite H in K. Qed.

(** A turn whose body returns has moved a counter. *)
Lemma body_moves_a_counter (w : World) (wipe_first : bool)
      (errors_out repo_name commit_sha status : string) (filepath : json)
      (s s' : sync_state) :
  process_record_body w wipe_first errors_out repo_name commit_sha
                      status filepath s = (s', Ok tt) ->
  counted s < counted s'.
Proof.
  unfold process_record_body.
  destruct filepath as [| | | |fp| |]; try (intros H; discriminate H).
  assert (Hdel : (lift (safe_delete_vectors w fp repo_name) ;;
                  modify incr_deleted) s = (s', Ok tt) ->
                 counted s < counted s').
  { intros H. apply bind_ok in H as ([] & s1 & H1 & H2).
    injection H2 as <-.
    apply (kept counters_grow _ _ _ _ (counters_grow_lift _)) in H1.
    unfold counters_grow, counted in *. cbn. lia. }
  destruct (path_kind w fp); run_guards.
  { destruct (String.eqb status "D"); [exact Hdel|]. run_guards.
    intros H. apply bind_ok in H as ([] & s1 & _ & H2). discriminate H2. }
  2:{ intros H. apply bind_ok in H as ([] & s1 & H1 & H2).
      injection H1 as <-.
      apply (kept counters_grow _ _ _ _ (counters_grow_lift _)) in H2.
      unfold counters_grow, counted in *. cbn in H2. lia. }
  2:{ intros H. discriminate H. }
  destruct (String.eqb status "D"); [exact Hdel|]. run_guards.
  intros H. apply bind_ok in H as ([] & s1 & H1 & H2).
  assert (G1 : counters_grow s s1).
  { revert H1. apply kept. counters_walk. }
  unfold chunk_and_upsert in H2.
  apply bind_ok in H2 as (chunks & s2 & H2 & H3).
  apply (kept counters_grow _ _ _ _ (counters_grow_lift _)) in H2.
  apply bind_ok in H3 as ([] & s3 & H3 & H4).
  assert (G3 : counters_grow s2 s3).
  { revert H3. apply kept.
    apply keeps_for_each;
      [apply counters_grow_refl | apply counters_grow_trans | intros b].
    apply counters_grow_upsert_batch. }
  injection H4 as <-.
  unfold counters_grow, counted in *. cbn. lia.
Qed.

Lemma turn_moves_a_counter (w : World) (wipe_first : bool)
      (errors_out repo_name commit_sha : string) (rec : change)
      (s : sync_state) :
  counted s
  < counted (fst (process_record w wipe_first errors_out repo_name commit_sha
                                 rec s)).
Proof.
  destruct rec as [status filepath]. unfold process_record, try_except.
  pose proof (counters_grow_body w wipe_first errors_out repo_name commit_sha
                                 status filepath s) as G.
  pose proof (no_exit_body w wipe_first errors_out repo_name commit_sha
                           status filepath s) as N.
  destruct (process_record_body w wipe_first errors_out repo_name commit_sha
                                status filepath s) as [s1 [[]|e|c]] eqn:E;
    cbn [fst snd] in *.
  - now apply body_moves_a_counter in E.
  - rewrite record_failure_run. unfold counters_grow, counted in *. cbn. lia.
  - now elim (N c).
Qed.

(** X22.  No record passes unnoticed: after the loop of [run_sync] over
    n records, the counters of the summary (processed, skipped, deleted
    and errors) have together gone up by at least n, whatever failed. *)
Theorem every_record_is_counted :
  forall (w : World) (wipe_first : bool)
         (errors_out repo_name commit_sha : string)
         (files_to_process : list change) (s : sync_state),
    counted s + List.length files_to_process
    <= counted (fst (sync_loop w wipe_first errors_out repo_name commit_sha
                               files_to_process s)).
Proof.
  intros w wipe_first errors_out repo_name commit_sha recs.
  induction recs as [|rec recs IH]; intros s.
  - cbn. lia.
  - pose proof (turn_moves_a_counter w wipe_first errors_out repo_name
                                     commit_sha rec s) as Hturn.
    unfold sync_loop in *. cbn [for_each List.length]. unfold bind.
    destruct (process_record_returns w wipe_first errors_out repo_name
                                     commit_sha rec s) as [s1 Hs1].
    rewrite Hs1 in *. cbn [fst] in Hturn. specialize (IH s1). lia.
Qed.

(* ------------------------------------------------------------------ *)
(** ** The metadata tag of a run *)

Lemma split_sep_two (sep : ascii) (a b : string) :
  2 <= List.length (split_sep sep None (a ++ String sep b)).
Proof.
  induction a as [|c a IH]; cbn [append split_sep].
  - rewrite Ascii.eqb_refl. cbn [List.length].
    pose proof (split_sep_not_nil sep (option_map pred None) b). lia.
  - destruct (Ascii.eqb c sep).
    + cbn [List.length]. pose proof (split_sep_not_nil sep (option_map pred None)
                                   (a ++ String sep b)). lia.
    + destruct (split_sep sep None (a ++ String sep b)) as [|x l];
        [cbn in IH; lia | exact IH].
Qed.

(** The text after the last separator is the last field. *)
Lemma split_sep_last_field (sep : ascii) (a b : string) :
  free_of sep b = true ->
  last (split_sep sep None (a ++ String sep b)) "" = b.
Proof.
  intros Hb. induction a as [|c a IH]; cbn [append split_sep].
  - rewrite Ascii.eqb_refl. cbn [option_map].
    now rewrite (split_sep_last sep None b Hb).
  - pose proof (split_sep_two sep a b) as L.
    destruct (Ascii.eqb c sep); cbn [option_map].
    + destruct (split_sep sep None (a ++ String sep b)) as [|x l];
        [cbn in L; lia | exact IH].
    + destruct (split_sep sep None (a ++ String sep b)) as [|x [|y l]];
        [cbn in L; lia | cbn in L; lia | exact IH].
Qed.

(** X23.  The metadata tag [repo_name] of a run is never empty; when
    [GITHUB_REPOSITORY] is [owner/name], it is [name], the text after
    the last slash. *)
Theorem repo_name_is_the_last_path_component :
  forall (w : World) (repo_root : string),
    compute_repo_name w repo_root <> ""
    /\ forall owner name : string,
         environ w "GITHUB_REPOSITORY" = Some (owner ++ "/" ++ name)%string ->
         no_space owner = true -> clean name -> free_of "/" name = true ->
         compute_repo_name w repo_root = name.
Proof.
  intros w repo_root. split.
  - unfold compute_repo_name.
    destruct (truthy (if truthy _ then _ else _)) eqn:E1.
    + intros H. rewrite H in E1. discriminate E1.
    + destruct (truthy (resolved_name w repo_root)) eqn:E2.
      * intros H. rewrite H in E2. discriminate E2.
      * discriminate.
  - intros owner name Henv Howner Hname Hfree.
    unfold compute_repo_name, getenv_or_empty. rewrite Henv.
    assert (Hstrip : strip (owner ++ "/" ++ name) = (owner ++ "/" ++ name)%string).
    { pose proof (clean_rstrip name Hname) as Hr.
      assert (Hsl : rstrip ("/" ++ name) = ("/" ++ name)%string).
      { change ("/" ++ name)%string with (String "/" name). cbn [rstrip].
        rewrite Hr. destruct Hname as [Hne _]. now rewrite Hne. }
      unfold strip.
      assert (Hl : lstrip (owner ++ "/" ++ name) = (owner ++ "/" ++ name)%string).
      { destruct owner as [|c owner]; [reflexivity|].
        apply lstrip_head. cbn in Howner.
        apply andb_true_iff in Howner as [Hc _]. now apply negb_true_iff. }
      rewrite Hl. rewrite rstrip_append; rewrite Hsl; reflexivity. }
    rewrite Hstrip.
    assert (Ht : truthy (owner ++ "/" ++ name) = true) by now destruct owner.
    rewrite Ht.
    change (owner ++ "/" ++ name)%string with (owner ++ String "/" name)%string.
    rewrite (split_sep_last_field "/" owner name Hfree).
    destruct Hname as [Hne _]. unfold truthy. now rewrite Hne.
Qed.

Lemma repo_name_is_the_last_path_component_witness :
  compute_repo_name tagged_world "." = "codechat-fork".
Proof.
  apply (proj2 (repo_name_is_the_last_path_component tagged_world ".")
               "ModelEarth" "codechat-fork");
    reflexivity || (split; reflexivity).
Defined.

(* ------------------------------------------------------------------ *)
(** ** Submodules *)

Lemma take_run (p : ascii -> bool) (s : string) :
  forallb_chars p (Regex.take (run_length p s) s) = true
  /\ String.length (Regex.take (run_length p s) s) = run_length p s.
Proof.
  induction s as [|c s [IH1 IH2]]; [now split|].
  cbn [run_length]. destruct (p c) eqn:E; [|now split].
  cbn [Regex.take forallb_chars String.length]. rewrite E, IH1, IH2.
  now split.
Qed.

Lemma match_submodule_line_fields (line path oldsha newsha : string) :
  match_submodule_line line = Some (path, oldsha, newsha) ->
  is_empty path = false /\ no_space path = true
  /\ short_sha oldsha /\ short_sha newsha.
Proof.
  unfold match_submodule_line.
  destruct (strip_prefix "Submodule" (strip line)) as [r1|]; [|discriminate].
  set (n1 := run_length isspace r1).
  set (r2 := Regex.drop n1 r1).
  set (n2 := run_length (fun c => negb (isspace c)) r2).
  set (r3 := Regex.drop n2 r2).
  set (n3 := run_length isspace r3).
  set (r4 := Regex.drop n3 r3).
  set (n4 := run_length is_hex r4).
  set (r5 := Regex.drop n4 r4).
  set (n5 := run_length (Ascii.eqb ".") r5).
  set (r6 := Regex.drop n5 r5).
  set (n6 := run_length is_hex r6).
  destruct ((1 <=? n1) && (1 <=? n2) && (1 <=? n3) && (7 <=? n4)
            && ((n5 =? 2) || (n5 =? 3)) && (7 <=? n6)) eqn:E; [|discriminate].
  apply andb_true_iff in E as [E E6]. apply andb_true_iff in E as [E E5].
  apply andb_true_iff in E as [E E4]. apply andb_true_iff in E as [E E3].
  apply andb_true_iff in E as [E1 E2].
  intros H. injection H as <- <- <-.
  destruct (take_run (fun c => negb (isspace c)) r2) as [A1 A2].
  destruct (take_run is_hex r4) as [B1 B2].
  destruct (take_run is_hex r6) as [C1 C2].
  fold n2 in A1, A2. fold n4 in B1, B2. fold n6 in C1, C2.
  repeat split.
  - destruct (Regex.take n2 r2); [|reflexivity].
    cbn in A2. apply Nat.leb_le in E2. lia.
  - exact A1.
  - rewrite B2. now apply Nat.leb_le.
  - exact B1.
  - rewrite C2. now apply Nat.leb_le.
  - exact C1.
Qed.

(** X24.  Whatever the text of [git diff --submodule=short], each
    triple that [_parse_submodule_short] returns holds a path that is
    not empty and has no whitespace, and two commit ids of seven or
    more lower-case hex digits each. *)
Theorem parsed_submodule_changes_are_well_formed :
  forall diff_text : string,
    Forall (fun sub => let '(path, oldsha, newsha) := sub in
                       is_empty path = false /\ no_space path = true
                       /\ short_sha oldsha /\ short_sha newsha)
           (_parse_submodule_short diff_text).
Proof.
  intros diff_text. unfold _parse_submodule_short.
  induction (splitlines diff_text) as [|line lines IH]; [constructor|].
  cbn [flat_map]. apply Forall_app. split; [|exact IH].
  destruct (match_submodule_line line) as [[[path oldsha] newsha]|] eqn:E;
    [|constructor].
  constructor; [|constructor].
  exact (match_submodule_line_fields line path oldsha newsha E).
Qed.

Lemma gitmodules_path_line_free (line : string) :
  Forall (fun p => free_of "\" p = true) (gitmodules_path_line line).
Proof.
  unfold gitmodules_path_line.
  destruct (split_ws (Some 1) (strip line)) as [|k [|p [|q l]]];
    try constructor.
  destruct (truthy (strip p)); constructor; [|constructor].
  apply backslash_to_slash_free.
Qed.

(** X25.  [_get_submodule_paths] raises only when the test for
    [.gitmodules] itself does (a path that [stat] cannot examine), and
    it has then called nothing.  Without a [.gitmodules] file it returns
    the empty list and calls nothing.  Otherwise it calls git once and
    returns, whatever git does: the empty list when git fails, and in
    every case paths that are pairwise distinct and written with forward
    slashes only. *)
Theorem submodule_paths_are_distinct :
  forall (w : World) (repo_root : string) (t : trace),
    let args := ["config"; "--file"; ".gitmodules"; "--get-regexp";
                 "submodule\..*\.path"] in
    match path_kind w (joinpath w repo_root [".gitmodules"]) with
    | Unreadable msg => _get_submodule_paths w repo_root t = (t, Raise msg)
    | Absent => _get_submodule_paths w repo_root t = (t, Ok [])
    | RegularFile | Directory =>
        exists paths,
          _get_submodule_paths w repo_root t
          = (t ++ [Git args repo_root], Ok paths)
          /\ NoDup paths
          /\ Forall (fun p => free_of "\" p = true) paths
          /\ (forall e, git w t args repo_root = inl e -> paths = [])
    end.
Proof.
  intros w repo_root t args.
  assert (G : forall out,
             NoDup (dedup (flat_map gitmodules_path_line (splitlines out)))
             /\ Forall (fun p => free_of "\" p = true)
                       (dedup (flat_map gitmodules_path_line (splitlines out)))).
  { intros out. split; [apply (dedup_from_spec [] _)|].
    apply Forall_forall. intros p Hin.
    apply (proj2 (dedup_from_spec [] _)) in Hin as [Hin _].
    revert p Hin. apply Forall_forall, Forall_flat_map, Forall_forall.
    intros line _. apply gitmodules_path_line_free. }
  unfold _get_submodule_paths. fold args.
  destruct (path_kind w (joinpath w repo_root [".gitmodules"]));
    run_guards; try reflexivity;
    unfold try_except, bind, _run_git, try_except, call, raise, ret;
    (destruct (git w t args repo_root) as [e|out];
     [exists []; repeat split; constructor
     | exists (dedup (flat_map gitmodules_path_line (splitlines out)));
       destruct (G out) as [G1 G2]; repeat split;
       [exact G1 | exact G2 | intros e H; discriminate H]]).
Qed.

(* ------------------------------------------------------------------ *)
(** ** The wipe of reindex-all *)

Lemma init_clients_calls (w : World) :
  keeps (emits init_event) (init_clients w).
Proof.
  unfold init_clients.
  keeps_walk (emits_refl init_event) (emits_trans init_event)
             ltac:(apply keeps_call; exact I).
Qed.

Lemma wipe_namespace_calls (w : World) (t : trace) :
  fst (wipe_namespace w t) = t ++ [StoreDeleteAll].
Proof.
  unfold wipe_namespace, try_except, call.
  destruct (unit_answer (index_delete_all w t)) as [e|[]]; cbn [fst];
    [|reflexivity].
  now destruct (contains "namespace not found" (lower e)).
Qed.

Lemma run_records_grows (w : World) (wipe_first : bool)
      (errors_out repo_name commit_sha : string) (recs : list change)
      (s : sync_state) :
  exists new,
    calls (fst (run_records w wipe_first errors_out repo_name commit_sha
                            recs s))
    = calls s ++ new.
Proof.
  rewrite run_records_outcome. cbn [fst].
  destruct (calls_grow_in_loop w wipe_first errors_out repo_name commit_sha
                               recs (initial_state (calls s)))
    as (new & Hnew & _).
  exists new. exact Hnew.
Qed.

(** X26.  With [wipe_first] (reindex-all), the wipe of the namespace
    comes before everything else that touches the store: the calls of
    a run are those that initialise the clients and then, unless the
    initialisation failed, the wipe followed by the rest.  Nothing is
    deleted by filter, chunked or upserted before the wipe. *)
Theorem the_wipe_comes_first :
  forall (w : World) (files_to_process : list change)
         (errors_out repo_root : string) (s : sync_state),
    exists init rest,
      calls (fst (run_sync w files_to_process errors_out repo_root true s))
      = calls s ++ init ++ rest
      /\ Forall init_event init
      /\ (rest = [] \/ exists later, rest = StoreDeleteAll :: later).
Proof.
  intros w recs errors_out repo_root s.
  unfold run_sync, setup, bind at 1, bind at 1, lift at 1.
  destruct (init_clients_calls w (calls s)) as (init & Hinit & Hall).
  destruct (init_clients w (calls s)) as [t [[]|e|c]]; cbn [fst] in Hinit;
    subst t.
  - unfold lift.
    pose proof (wipe_namespace_calls w (calls s ++ init)) as Hw.
    destruct (wipe_namespace w (calls (set_calls (calls s ++ init) s)))
      as [t r] eqn:E.
    cbn [calls set_calls] in E. rewrite E in Hw. cbn [fst] in Hw. subst t.
    destruct r as [[]|e|c]; cbn [fst].
    + destruct (run_records_grows w true errors_out
                  (compute_repo_name w repo_root) (compute_commit_sha w) recs
                  (set_calls ((calls s ++ init) ++ [StoreDeleteAll])
                             (set_calls (calls s ++ init) s)))
        as (new & Hnew).
      exists init, (StoreDeleteAll :: new). split; [|split].
      * rewrite Hnew. cbn [calls set_calls].
        now rewrite <- !app_assoc.
      * exact Hall.
      * right. now exists new.
    + exists init, [StoreDeleteAll]. split; [|split].
      * cbn [calls set_calls]. now rewrite <- app_assoc.
      * exact Hall.
      * right. now exists [].
    + exists init, [StoreDeleteAll]. split; [|split].
      * cbn [calls set_calls]. now rewrite <- app_assoc.
      * exact Hall.
      * right. now exists [].
  - exists init, []. rewrite app_nil_r. cbn. repeat split; auto.
  - exists init, []. rewrite app_nil_r. cbn. repeat split; auto.
Qed.
